(** * Rift Streamer: the per-frame simulation of [GameCanvas.tsx]

    A shallow embedding of the simulation core of
    [src/components/GameCanvas.tsx] (with the types of [src/types.ts] and the
    social-event handler of [src/App.tsx]), and the properties of its scoring,
    collision and session-lifecycle logic.

    Conventions of the embedding.
    - A JavaScript [number] is an exact rational ([Q]); timestamps
      ([Date.now()]) and levels are integers ([Z]).  No division by a
      variable occurs in the simulation, so no NaN or infinity arises.
    - Every [useRef] cell of the component, and every piece of React state
      that the simulation writes, is a field of the record [World]; the
      functions of the component are state transformers on [World].
    - The browser is a [Host]: the stream of [Math.random()] draws,
      [Math.sin], [Math.cos], [Math.sqrt], [Math.PI] and
      [Number.prototype.toString(36)].  [World] counts the draws made so
      far, so the n-th call of [Math.random()] reads the n-th draw.
    - Calls that leave the component (audio cues and the three callbacks
      [onSocialEvent], [onScoreUpdate], [onGameOver]) are appended to the
      [trace] field, in call order. *)

From Stdlib Require Import QArith Qminmax Qround ZArith List String Lia Lqa.
From Stdlib Require Import Ascii DecimalString.
From stdpp Require Import gmap strings.
Import ListNotations.

Local Open Scope Q_scope.

(** ** Numbers *)

(** JavaScript's [a < b] on numbers. *)
Definition Qltb (a b : Q) : bool := negb (Qle_bool b a).

Lemma Qltb_lt (a b : Q) : Qltb a b = true <-> a < b.
Proof.
  unfold Qltb. rewrite negb_true_iff. split.
  - intros H. apply Qnot_le_lt. intros Hle.
    apply Qle_bool_iff in Hle. congruence.
  - intros H. destruct (Qle_bool b a) eqn:E; [|reflexivity].
    apply Qle_bool_iff in E. exfalso. exact (Qlt_not_le _ _ H E).
Qed.

Lemma Qltb_ge (a b : Q) : Qltb a b = false <-> b <= a.
Proof.
  unfold Qltb. rewrite negb_false_iff. apply Qle_bool_iff.
Qed.

(** [`${n}`] for an integer [n]. *)
Definition string_of_Z (n : Z) : string := NilZero.string_of_int (Z.to_int n).

(** ** Constants (GameCanvas.tsx, lines 30-40) *)

Definition CANVAS_WIDTH : Q := 800.
Definition CANVAS_HEIGHT : Q := 400.
Definition GROUND_Y : Q := 320.
Definition GRAVITY : Q := 0.8.
Definition JUMP_FORCE : Q := -15.
Definition PLAYER_X : Q := 100.
Definition PLAYER_SIZE : Q := 30.
Definition PLAYER_SPEED : Q := 5.
Definition POWERUP_DURATION : Z := 8000.
Definition NEAR_MISS_THRESHOLD : Q := 25.
Definition INVINCIBILITY_DURATION : Z := 2000.

(** ** Data model (types.ts) *)

Record Vector2D : Type := mkVec { v_x : Q; v_y : Q }.

Inductive GameState : Type := START | PLAYING | GAMEOVER.

Inductive PowerUpType : Type := SHIELD | BOOST | MULTIPLIER.

Record Environment : Type := mkEnvironment {
  name : string;
  primaryColor : string;
  secondaryColor : string;
  description : string;
  atmosphere : string
}.

Inductive ObstacleType : Type :=
  spike | wall | drone | mine | laser | saw | stomp | missile.

Inductive StompStage : Type := waiting | dropping | rising.

(** The source keeps an obstacle's [type] tag and its loosely typed [state]
    object in two fields.  [spawnObstacle] is the only place that creates
    obstacles, it always pairs a tag with the state object of that tag, and
    nothing reassigns [type]; the pair is therefore one variant here, and
    [o_type] reads the tag back. *)
Inductive ObstacleKind : Type :=
| Spike
| Wall
| Drone
| Mine (phase : Q)
| Laser (timer : Q) (active : bool)
| Saw (rotation : Q)
| Stomp (stage : StompStage) (timer : Q) (impactSoundPlayed : bool)
| Missile (speed : Q).

Record Obstacle : Type := mkObstacle {
  o_id : string;
  o_x : Q;
  o_y : Q;
  o_baseY : Q;
  o_width : Q;
  o_height : Q;
  o_kind : ObstacleKind;
  o_speedMultiplier : Q
}.

Definition o_type (o : Obstacle) : ObstacleType :=
  match o_kind o with
  | Spike => spike | Wall => wall | Drone => drone | Mine _ => mine
  | Laser _ _ => laser | Saw _ => saw | Stomp _ _ _ => stomp
  | Missile _ => missile
  end.

Record Collectible : Type := mkCollectible {
  c_id : string;
  c_x : Q;
  c_y : Q;
  c_size : Q;
  c_collected : bool
}.

Record PowerUp : Type := mkPowerUp {
  pu_id : string;
  pu_x : Q;
  pu_y : Q;
  pu_size : Q;
  pu_type : PowerUpType;
  pu_collected : bool
}.

Inductive ParticleType : Type := spark | heart.

Record Particle : Type := mkParticle {
  pt_x : Q;
  pt_y : Q;
  pt_vx : Q;
  pt_vy : Q;
  pt_life : Q;
  pt_color : string;
  pt_type : option ParticleType
}.

Inductive SocialEvent : Type :=
  NEAR_MISS | COLLECT | POWERUP | BIOME_SHIFT | LEVEL_UP.

(** ** Component-local types (GameCanvas.tsx, lines 24-28 and 57) *)

Record ActivePowerUpState : Type := mkHud {
  hud_type : PowerUpType;
  hud_timeLeft : Z;
  hud_percent : Q
}.

Record SocialMsg : Type := mkSocialMsg {
  msg_text : string;
  msg_time : Z;
  msg_color : option string
}.

(** One pad of [navigator.getGamepads()]: the axis and the buttons that
    [update] reads ([?.pressed] of a missing button is falsy). *)
Record Gamepad : Type := mkGamepad {
  axes0 : Q;
  button0 : bool;
  button1 : bool;
  button2 : bool;
  button14 : bool;
  button15 : bool
}.

(** The cues of [services/audioService] that the component plays. *)
Inductive AudioCue : Type :=
| playJumpSound | playCollectSound | playLevelUpSound
| playShieldActivateSound | playShieldBreakSound
| playBoostActivateSound | playMultiplierActivateSound
| playStompSound | playLaserOnSound | playMissileLaunchSound
| playGameOverSound.

(** What leaves the component. *)
Inductive Effect : Type :=
| Audio (cue : AudioCue)
| OnSocialEvent (e : SocialEvent)
| OnScoreUpdate (score : Z)
| OnGameOver (score : Z).

(** ** Decidable equalities *)

Definition GameState_eqb (a b : GameState) : bool :=
  match a, b with
  | START, START | PLAYING, PLAYING | GAMEOVER, GAMEOVER => true
  | _, _ => false
  end.

Definition PowerUpType_eqb (a b : PowerUpType) : bool :=
  match a, b with
  | SHIELD, SHIELD | BOOST, BOOST | MULTIPLIER, MULTIPLIER => true
  | _, _ => false
  end.

Definition ObstacleType_eqb (a b : ObstacleType) : bool :=
  match a, b with
  | spike, spike | wall, wall | drone, drone | mine, mine
  | laser, laser | saw, saw | stomp, stomp | missile, missile => true
  | _, _ => false
  end.

Definition SocialEvent_eqb (a b : SocialEvent) : bool :=
  match a, b with
  | NEAR_MISS, NEAR_MISS | COLLECT, COLLECT | POWERUP, POWERUP
  | BIOME_SHIFT, BIOME_SHIFT | LEVEL_UP, LEVEL_UP => true
  | _, _ => false
  end.

Lemma PowerUpType_eqb_eq (a b : PowerUpType) :
  PowerUpType_eqb a b = true <-> a = b.
Proof. destruct a, b; simpl; split; congruence. Qed.

Lemma ObstacleType_eqb_eq (a b : ObstacleType) :
  ObstacleType_eqb a b = true <-> a = b.
Proof. destruct a, b; simpl; split; congruence. Qed.

(** ** The active power-up registry: [Map<PowerUpType, number>]

    A JavaScript [Map] iterates in insertion order and [set] on a present
    key keeps the key's position, so the registry is an association list. *)

Definition Registry : Type := list (PowerUpType * Z).

Definition reg_has (k : PowerUpType) (m : Registry) : bool :=
  existsb (fun e => PowerUpType_eqb (fst e) k) m.

Definition reg_delete (k : PowerUpType) (m : Registry) : Registry :=
  List.filter (fun e => negb (PowerUpType_eqb (fst e) k)) m.

Definition reg_set (k : PowerUpType) (v : Z) (m : Registry) : Registry :=
  if reg_has k m
  then map (fun e => if PowerUpType_eqb (fst e) k then (k, v) else e) m
  else m ++ [(k, v)].

(** ** The state of the component *)

Record World : Type := mkWorld {
  deathTimeoutRef : option nat;
  activeHudPowerUps : list ActivePowerUpState;
  hasMultiplier : bool;
  lastSocialMsg : option SocialMsg;
  keysPressed : gmap string bool;
  playerPos : Vector2D;
  playerVel : Vector2D;
  isJumping : bool;
  scoreRef : Q;
  lastLevelRef : Z;
  lastXDir : Q;
  isDying : bool;
  invincibleUntil : Z;
  timeScale : Q;
  dashTrails : list Vector2D;
  activePowerUps : Registry;
  obstacles : list Obstacle;
  collectibles : list Collectible;
  powerUps : list PowerUp;
  particles : list Particle;
  backgroundOffset : Q;
  nearMissedObstacles : gset string;
  shakeTime : Q;
  shakeOffset : Vector2D;
  randomCalls : nat;
  lastTimerId : nat;
  timers : list nat;
  trace : list Effect
}.

Definition set_deathTimeoutRef (v : option nat) (w : World) : World :=
  mkWorld v (activeHudPowerUps w) (hasMultiplier w) (lastSocialMsg w) (keysPressed w) (playerPos w) (playerVel w) (isJumping w) (scoreRef w) (lastLevelRef w) (lastXDir w) (isDying w) (invincibleUntil w) (timeScale w) (dashTrails w) (activePowerUps w) (obstacles w) (collectibles w) (powerUps w) (particles w) (backgroundOffset w) (nearMissedObstacles w) (shakeTime w) (shakeOffset w) (randomCalls w) (lastTimerId w) (timers w) (trace w).
Definition set_activeHudPowerUps (v : list ActivePowerUpState) (w : World) : World :=
  mkWorld (deathTimeoutRef w) v (hasMultiplier w) (lastSocialMsg w) (keysPressed w) (playerPos w) (playerVel w) (isJumping w) (scoreRef w) (lastLevelRef w) (lastXDir w) (isDying w) (invincibleUntil w) (timeScale w) (dashTrails w) (activePowerUps w) (obstacles w) (collectibles w) (powerUps w) (particles w) (backgroundOffset w) (nearMissedObstacles w) (shakeTime w) (shakeOffset w) (randomCalls w) (lastTimerId w) (timers w) (trace w).
Definition set_hasMultiplier (v : bool) (w : World) : World :=
  mkWorld (deathTimeoutRef w) (activeHudPowerUps w) v (lastSocialMsg w) (keysPressed w) (playerPos w) (playerVel w) (isJumping w) (scoreRef w) (lastLevelRef w) (lastXDir w) (isDying w) (invincibleUntil w) (timeScale w) (dashTrails w) (activePowerUps w) (obstacles w) (collectibles w) (powerUps w) (particles w) (backgroundOffset w) (nearMissedObstacles w) (shakeTime w) (shakeOffset w) (randomCalls w) (lastTimerId w) (timers w) (trace w).
Definition set_lastSocialMsg (v : option SocialMsg) (w : World) : World :=
  mkWorld (deathTimeoutRef w) (activeHudPowerUps w) (hasMultiplier w) v (keysPressed w) (playerPos w) (playerVel w) (isJumping w) (scoreRef w) (lastLevelRef w) (lastXDir w) (isDying w) (invincibleUntil w) (timeScale w) (dashTrails w) (activePowerUps w) (obstacles w) (collectibles w) (powerUps w) (particles w) (backgroundOffset w) (nearMissedObstacles w) (shakeTime w) (shakeOffset w) (randomCalls w) (lastTimerId w) (timers w) (trace w).
Definition set_keysPressed (v : gmap string bool) (w : World) : World :=
  mkWorld (deathTimeoutRef w) (activeHudPowerUps w) (hasMultiplier w) (lastSocialMsg w) v (playerPos w) (playerVel w) (isJumping w) (scoreRef w) (lastLevelRef w) (lastXDir w) (isDying w) (invincibleUntil w) (timeScale w) (dashTrails w) (activePowerUps w) (obstacles w) (collectibles w) (powerUps w) (particles w) (backgroundOffset w) (nearMissedObstacles w) (shakeTime w) (shakeOffset w) (randomCalls w) (lastTimerId w) (timers w) (trace w).
Definition set_playerPos (v : Vector2D) (w : World) : World :=
  mkWorld (deathTimeoutRef w) (activeHudPowerUps w) (hasMultiplier w) (lastSocialMsg w) (keysPressed w) v (playerVel w) (isJumping w) (scoreRef w) (lastLevelRef w) (lastXDir w) (isDying w) (invincibleUntil w) (timeScale w) (dashTrails w) (activePowerUps w) (obstacles w) (collectibles w) (powerUps w) (particles w) (backgroundOffset w) (nearMissedObstacles w) (shakeTime w) (shakeOffset w) (randomCalls w) (lastTimerId w) (timers w) (trace w).
Definition set_playerVel (v : Vector2D) (w : World) : World :=
  mkWorld (deathTimeoutRef w) (activeHudPowerUps w) (hasMultiplier w) (lastSocialMsg w) (keysPressed w) (playerPos w) v (isJumping w) (scoreRef w) (lastLevelRef w) (lastXDir w) (isDying w) (invincibleUntil w) (timeScale w) (dashTrails w) (activePowerUps w) (obstacles w) (collectibles w) (powerUps w) (particles w) (backgroundOffset w) (nearMissedObstacles w) (shakeTime w) (shakeOffset w) (randomCalls w) (lastTimerId w) (timers w) (trace w).
Definition set_isJumping (v : bool) (w : World) : World :=
  mkWorld (deathTimeoutRef w) (activeHudPowerUps w) (hasMultiplier w) (lastSocialMsg w) (keysPressed w) (playerPos w) (playerVel w) v (scoreRef w) (lastLevelRef w) (lastXDir w) (isDying w) (invincibleUntil w) (timeScale w) (dashTrails w) (activePowerUps w) (obstacles w) (collectibles w) (powerUps w) (particles w) (backgroundOffset w) (nearMissedObstacles w) (shakeTime w) (shakeOffset w) (randomCalls w) (lastTimerId w) (timers w) (trace w).
Definition set_scoreRef (v : Q) (w : World) : World :=
  mkWorld (deathTimeoutRef w) (activeHudPowerUps w) (hasMultiplier w) (lastSocialMsg w) (keysPressed w) (playerPos w) (playerVel w) (isJumping w) v (lastLevelRef w) (lastXDir w) (isDying w) (invincibleUntil w) (timeScale w) (dashTrails w) (activePowerUps w) (obstacles w) (collectibles w) (powerUps w) (particles w) (backgroundOffset w) (nearMissedObstacles w) (shakeTime w) (shakeOffset w) (randomCalls w) (lastTimerId w) (timers w) (trace w).
Definition set_lastLevelRef (v : Z) (w : World) : World :=
  mkWorld (deathTimeoutRef w) (activeHudPowerUps w) (hasMultiplier w) (lastSocialMsg w) (keysPressed w) (playerPos w) (playerVel w) (isJumping w) (scoreRef w) v (lastXDir w) (isDying w) (invincibleUntil w) (timeScale w) (dashTrails w) (activePowerUps w) (obstacles w) (collectibles w) (powerUps w) (particles w) (backgroundOffset w) (nearMissedObstacles w) (shakeTime w) (shakeOffset w) (randomCalls w) (lastTimerId w) (timers w) (trace w).
Definition set_lastXDir (v : Q) (w : World) : World :=
  mkWorld (deathTimeoutRef w) (activeHudPowerUps w) (hasMultiplier w) (lastSocialMsg w) (keysPressed w) (playerPos w) (playerVel w) (isJumping w) (scoreRef w) (lastLevelRef w) v (isDying w) (invincibleUntil w) (timeScale w) (dashTrails w) (activePowerUps w) (obstacles w) (collectibles w) (powerUps w) (particles w) (backgroundOffset w) (nearMissedObstacles w) (shakeTime w) (shakeOffset w) (randomCalls w) (lastTimerId w) (timers w) (trace w).
Definition set_isDying (v : bool) (w : World) : World :=
  mkWorld (deathTimeoutRef w) (activeHudPowerUps w) (hasMultiplier w) (lastSocialMsg w) (keysPressed w) (playerPos w) (playerVel w) (isJumping w) (scoreRef w) (lastLevelRef w) (lastXDir w) v (invincibleUntil w) (timeScale w) (dashTrails w) (activePowerUps w) (obstacles w) (collectibles w) (powerUps w) (particles w) (backgroundOffset w) (nearMissedObstacles w) (shakeTime w) (shakeOffset w) (randomCalls w) (lastTimerId w) (timers w) (trace w).
Definition set_invincibleUntil (v : Z) (w : World) : World :=
  mkWorld (deathTimeoutRef w) (activeHudPowerUps w) (hasMultiplier w) (lastSocialMsg w) (keysPressed w) (playerPos w) (playerVel w) (isJumping w) (scoreRef w) (lastLevelRef w) (lastXDir w) (isDying w) v (timeScale w) (dashTrails w) (activePowerUps w) (obstacles w) (collectibles w) (powerUps w) (particles w) (backgroundOffset w) (nearMissedObstacles w) (shakeTime w) (shakeOffset w) (randomCalls w) (lastTimerId w) (timers w) (trace w).
Definition set_timeScale (v : Q) (w : World) : World :=
  mkWorld (deathTimeoutRef w) (activeHudPowerUps w) (hasMultiplier w) (lastSocialMsg w) (keysPressed w) (playerPos w) (playerVel w) (isJumping w) (scoreRef w) (lastLevelRef w) (lastXDir w) (isDying w) (invincibleUntil w) v (dashTrails w) (activePowerUps w) (obstacles w) (collectibles w) (powerUps w) (particles w) (backgroundOffset w) (nearMissedObstacles w) (shakeTime w) (shakeOffset w) (randomCalls w) (lastTimerId w) (timers w) (trace w).
Definition set_dashTrails (v : list Vector2D) (w : World) : World :=
  mkWorld (deathTimeoutRef w) (activeHudPowerUps w) (hasMultiplier w) (lastSocialMsg w) (keysPressed w) (playerPos w) (playerVel w) (isJumping w) (scoreRef w) (lastLevelRef w) (lastXDir w) (isDying w) (invincibleUntil w) (timeScale w) v (activePowerUps w) (obstacles w) (collectibles w) (powerUps w) (particles w) (backgroundOffset w) (nearMissedObstacles w) (shakeTime w) (shakeOffset w) (randomCalls w) (lastTimerId w) (timers w) (trace w).
Definition set_activePowerUps (v : Registry) (w : World) : World :=
  mkWorld (deathTimeoutRef w) (activeHudPowerUps w) (hasMultiplier w) (lastSocialMsg w) (keysPressed w) (playerPos w) (playerVel w) (isJumping w) (scoreRef w) (lastLevelRef w) (lastXDir w) (isDying w) (invincibleUntil w) (timeScale w) (dashTrails w) v (obstacles w) (collectibles w) (powerUps w) (particles w) (backgroundOffset w) (nearMissedObstacles w) (shakeTime w) (shakeOffset w) (randomCalls w) (lastTimerId w) (timers w) (trace w).
Definition set_obstacles (v : list Obstacle) (w : World) : World :=
  mkWorld (deathTimeoutRef w) (activeHudPowerUps w) (hasMultiplier w) (lastSocialMsg w) (keysPressed w) (playerPos w) (playerVel w) (isJumping w) (scoreRef w) (lastLevelRef w) (lastXDir w) (isDying w) (invincibleUntil w) (timeScale w) (dashTrails w) (activePowerUps w) v (collectibles w) (powerUps w) (particles w) (backgroundOffset w) (nearMissedObstacles w) (shakeTime w) (shakeOffset w) (randomCalls w) (lastTimerId w) (timers w) (trace w).
Definition set_collectibles (v : list Collectible) (w : World) : World :=
  mkWorld (deathTimeoutRef w) (activeHudPowerUps w) (hasMultiplier w) (lastSocialMsg w) (keysPressed w) (playerPos w) (playerVel w) (isJumping w) (scoreRef w) (lastLevelRef w) (lastXDir w) (isDying w) (invincibleUntil w) (timeScale w) (dashTrails w) (activePowerUps w) (obstacles w) v (powerUps w) (particles w) (backgroundOffset w) (nearMissedObstacles w) (shakeTime w) (shakeOffset w) (randomCalls w) (lastTimerId w) (timers w) (trace w).
Definition set_powerUps (v : list PowerUp) (w : World) : World :=
  mkWorld (deathTimeoutRef w) (activeHudPowerUps w) (hasMultiplier w) (lastSocialMsg w) (keysPressed w) (playerPos w) (playerVel w) (isJumping w) (scoreRef w) (lastLevelRef w) (lastXDir w) (isDying w) (invincibleUntil w) (timeScale w) (dashTrails w) (activePowerUps w) (obstacles w) (collectibles w) v (particles w) (backgroundOffset w) (nearMissedObstacles w) (shakeTime w) (shakeOffset w) (randomCalls w) (lastTimerId w) (timers w) (trace w).
Definition set_particles (v : list Particle) (w : World) : World :=
  mkWorld (deathTimeoutRef w) (activeHudPowerUps w) (hasMultiplier w) (lastSocialMsg w) (keysPressed w) (playerPos w) (playerVel w) (isJumping w) (scoreRef w) (lastLevelRef w) (lastXDir w) (isDying w) (invincibleUntil w) (timeScale w) (dashTrails w) (activePowerUps w) (obstacles w) (collectibles w) (powerUps w) v (backgroundOffset w) (nearMissedObstacles w) (shakeTime w) (shakeOffset w) (randomCalls w) (lastTimerId w) (timers w) (trace w).
Definition set_backgroundOffset (v : Q) (w : World) : World :=
  mkWorld (deathTimeoutRef w) (activeHudPowerUps w) (hasMultiplier w) (lastSocialMsg w) (keysPressed w) (playerPos w) (playerVel w) (isJumping w) (scoreRef w) (lastLevelRef w) (lastXDir w) (isDying w) (invincibleUntil w) (timeScale w) (dashTrails w) (activePowerUps w) (obstacles w) (collectibles w) (powerUps w) (particles w) v (nearMissedObstacles w) (shakeTime w) (shakeOffset w) (randomCalls w) (lastTimerId w) (timers w) (trace w).
Definition set_nearMissedObstacles (v : gset string) (w : World) : World :=
  mkWorld (deathTimeoutRef w) (activeHudPowerUps w) (hasMultiplier w) (lastSocialMsg w) (keysPressed w) (playerPos w) (playerVel w) (isJumping w) (scoreRef w) (lastLevelRef w) (lastXDir w) (isDying w) (invincibleUntil w) (timeScale w) (dashTrails w) (activePowerUps w) (obstacles w) (collectibles w) (powerUps w) (particles w) (backgroundOffset w) v (shakeTime w) (shakeOffset w) (randomCalls w) (lastTimerId w) (timers w) (trace w).
Definition set_shakeTime (v : Q) (w : World) : World :=
  mkWorld (deathTimeoutRef w) (activeHudPowerUps w) (hasMultiplier w) (lastSocialMsg w) (keysPressed w) (playerPos w) (playerVel w) (isJumping w) (scoreRef w) (lastLevelRef w) (lastXDir w) (isDying w) (invincibleUntil w) (timeScale w) (dashTrails w) (activePowerUps w) (obstacles w) (collectibles w) (powerUps w) (particles w) (backgroundOffset w) (nearMissedObstacles w) v (shakeOffset w) (randomCalls w) (lastTimerId w) (timers w) (trace w).
Definition set_shakeOffset (v : Vector2D) (w : World) : World :=
  mkWorld (deathTimeoutRef w) (activeHudPowerUps w) (hasMultiplier w) (lastSocialMsg w) (keysPressed w) (playerPos w) (playerVel w) (isJumping w) (scoreRef w) (lastLevelRef w) (lastXDir w) (isDying w) (invincibleUntil w) (timeScale w) (dashTrails w) (activePowerUps w) (obstacles w) (collectibles w) (powerUps w) (particles w) (backgroundOffset w) (nearMissedObstacles w) (shakeTime w) v (randomCalls w) (lastTimerId w) (timers w) (trace w).
Definition set_randomCalls (v : nat) (w : World) : World :=
  mkWorld (deathTimeoutRef w) (activeHudPowerUps w) (hasMultiplier w) (lastSocialMsg w) (keysPressed w) (playerPos w) (playerVel w) (isJumping w) (scoreRef w) (lastLevelRef w) (lastXDir w) (isDying w) (invincibleUntil w) (timeScale w) (dashTrails w) (activePowerUps w) (obstacles w) (collectibles w) (powerUps w) (particles w) (backgroundOffset w) (nearMissedObstacles w) (shakeTime w) (shakeOffset w) v (lastTimerId w) (timers w) (trace w).
Definition set_lastTimerId (v : nat) (w : World) : World :=
  mkWorld (deathTimeoutRef w) (activeHudPowerUps w) (hasMultiplier w) (lastSocialMsg w) (keysPressed w) (playerPos w) (playerVel w) (isJumping w) (scoreRef w) (lastLevelRef w) (lastXDir w) (isDying w) (invincibleUntil w) (timeScale w) (dashTrails w) (activePowerUps w) (obstacles w) (collectibles w) (powerUps w) (particles w) (backgroundOffset w) (nearMissedObstacles w) (shakeTime w) (shakeOffset w) (randomCalls w) v (timers w) (trace w).
Definition set_timers (v : list nat) (w : World) : World :=
  mkWorld (deathTimeoutRef w) (activeHudPowerUps w) (hasMultiplier w) (lastSocialMsg w) (keysPressed w) (playerPos w) (playerVel w) (isJumping w) (scoreRef w) (lastLevelRef w) (lastXDir w) (isDying w) (invincibleUntil w) (timeScale w) (dashTrails w) (activePowerUps w) (obstacles w) (collectibles w) (powerUps w) (particles w) (backgroundOffset w) (nearMissedObstacles w) (shakeTime w) (shakeOffset w) (randomCalls w) (lastTimerId w) v (trace w).
Definition set_trace (v : list Effect) (w : World) : World :=
  mkWorld (deathTimeoutRef w) (activeHudPowerUps w) (hasMultiplier w) (lastSocialMsg w) (keysPressed w) (playerPos w) (playerVel w) (isJumping w) (scoreRef w) (lastLevelRef w) (lastXDir w) (isDying w) (invincibleUntil w) (timeScale w) (dashTrails w) (activePowerUps w) (obstacles w) (collectibles w) (powerUps w) (particles w) (backgroundOffset w) (nearMissedObstacles w) (shakeTime w) (shakeOffset w) (randomCalls w) (lastTimerId w) (timers w) v.

Definition emit (e : Effect) (w : World) : World :=
  set_trace (trace w ++ [e]) w.

(** ** The host (browser) *)

Record Host : Type := mkHost {
  h_random : nat -> Q;        (* the n-th draw of Math.random() *)
  h_sin : Q -> Q;             (* Math.sin *)
  h_cos : Q -> Q;             (* Math.cos *)
  h_sqrt : Q -> Q;            (* Math.sqrt *)
  h_PI : Q;                   (* Math.PI *)
  h_toString36 : Q -> string  (* n.toString(36) *)
}.

(** Generic traversal of a list whose elements are mutated in place while
    the surrounding state changes: [forEach] and [for ... of] loops. *)
Fixpoint forEach {A : Type} (f : A -> World -> A * World)
    (l : list A) (w : World) : list A * World :=
  match l with
  | [] => ([], w)
  | a :: l' =>
      let '(a', w1) := f a w in
      let '(l'', w2) := forEach f l' w1 in
      (a' :: l'', w2)
  end.

Section Simulation.

Variable host : Host.

(** [Math.random()] *)
Definition mathRandom (w : World) : Q * World :=
  (h_random host (randomCalls w), set_randomCalls (S (randomCalls w)) w).

(** [Math.random().toString(36).substr(2, 9)] *)
Definition randomId (w : World) : string * World :=
  let '(r, w) := mathRandom w in
  (substring 2 9 (h_toString36 host r), w).

(** [arr[Math.floor(r * arr.length)]]; the draws of [Math.random()] lie in
    [0, 1), so the index is in range and [d] is never returned. *)
Definition pick {A : Type} (d : A) (arr : list A) (r : Q) : A :=
  nth (Z.to_nat (Qfloor (r * inject_Z (Z.of_nat (length arr))))) arr d.

(** ** Particles (lines 154-190) *)

Definition pushParticle (p : Particle) (w : World) : World :=
  set_particles (particles w ++ [p]) w.

Definition createJumpParticles (environment : Environment) (w : World) : World :=
  Nat.iter 20 (fun w =>
    let '(r1, w) := mathRandom w in
    let '(r2, w) := mathRandom w in
    let '(r3, w) := mathRandom w in
    pushParticle
      {| pt_x := v_x (playerPos w) + PLAYER_SIZE / 2;
         pt_y := v_y (playerPos w) + PLAYER_SIZE;
         pt_vx := (r1 - 0.5) * 8;
         pt_vy := (r2 * 4) + 1;
         pt_life := 0.5 + r3 * 0.5;
         pt_color := secondaryColor environment;
         pt_type := None |} w) w.

Definition createLikeParticles (x y : Q) (w : World) : World :=
  Nat.iter 5 (fun w =>
    let '(r1, w) := mathRandom w in
    let '(r2, w) := mathRandom w in
    pushParticle
      {| pt_x := x; pt_y := y;
         pt_vx := (r1 - 0.5) * 4;
         pt_vy := - r2 * 6 - 2;
         pt_life := 1.0;
         pt_color := "#ff0055";
         pt_type := Some heart |} w) w.

Definition createCollisionBurst (x y : Q) (colors : list string)
    (count : nat) (force : Q) (w : World) : World :=
  Nat.iter count (fun w =>
    let '(r1, w) := mathRandom w in
    let '(r2, w) := mathRandom w in
    let '(r3, w) := mathRandom w in
    let '(r4, w) := mathRandom w in
    pushParticle
      {| pt_x := x; pt_y := y;
         pt_vx := (r1 - 0.5) * force;
         pt_vy := (r2 - 0.5) * force;
         pt_life := 0.8 + r3 * 1.5;
         pt_color := pick ""%string colors r4;
         pt_type := None |} w) w.

(** ** Session reset (lines 98-132) *)

(** [window.clearTimeout(tid)] *)
Definition clearTimeout (tid : nat) (w : World) : World :=
  set_timers (List.filter (fun t => negb (Nat.eqb t tid)) (timers w)) w.

Definition resetGame (w : World) : World :=
  let w :=
    match deathTimeoutRef w with
    | Some (S _ as tid) => set_deathTimeoutRef None (clearTimeout tid w)
    | _ => w
    end in
  let w := set_scoreRef 0 w in
  let w := set_lastLevelRef 1%Z w in
  let w := set_obstacles [] w in
  let w := set_collectibles [] w in
  let w := set_powerUps [] w in
  let w := set_particles [] w in
  let w := set_dashTrails [] w in
  let w := set_nearMissedObstacles ∅ w in
  let w := set_activePowerUps [] w in
  let w := set_activeHudPowerUps [] w in
  let w := set_playerPos (mkVec PLAYER_X (GROUND_Y - PLAYER_SIZE)) w in
  let w := set_playerVel (mkVec 0 0) w in
  let w := set_lastXDir 0 w in
  let w := set_isDying false w in
  let w := set_invincibleUntil 0%Z w in
  let w := set_timeScale 1.0 w in
  let w := set_hasMultiplier false w in
  let w := set_lastSocialMsg None w in
  let w := set_shakeTime 0 w in
  set_shakeOffset (mkVec 0 0) w.

(** The effect that runs when the [gameState] prop changes (lines 125-132). *)
Definition onGameState (gameState : GameState) (w : World) : World :=
  match gameState with
  | START => resetGame w
  | PLAYING =>
      if isDying w
         || (Qeq_bool (scoreRef w) 0 && (0 <? length (obstacles w))%nat)
      then resetGame w else w
  | GAMEOVER => w
  end.

(** ** Keyboard (lines 134-152) *)

Definition keyDown (code : string) (w : World) : bool :=
  match keysPressed w !! code with Some b => b | None => false end.

Definition jump (environment : Environment) (w : World) : World :=
  let w := set_playerVel (mkVec (v_x (playerVel w)) JUMP_FORCE) w in
  let w := set_isJumping true w in
  let w := emit (Audio playJumpSound) w in
  createJumpParticles environment w.

Definition handleKeyDown (gameState : GameState) (environment : Environment)
    (code : string) (w : World) : World :=
  let w := set_keysPressed (<[code := true]> (keysPressed w)) w in
  if negb (GameState_eqb gameState PLAYING) || isDying w then w
  else if (String.eqb code "Space" || String.eqb code "ArrowUp"
           || String.eqb code "KeyW") && negb (isJumping w)
  then jump environment w
  else w.

Definition handleKeyUp (code : string) (w : World) : World :=
  set_keysPressed (<[code := false]> (keysPressed w)) w.

(** ** Spawning (lines 192-242) *)

Definition spawnCollectible (w : World) : World :=
  let '(id, w) := randomId w in
  let '(r, w) := mathRandom w in
  set_collectibles
    (collectibles w ++
       [ {| c_id := id;
            c_x := CANVAS_WIDTH + 200;
            c_y := GROUND_Y - 50 - r * 150;
            c_size := 20;
            c_collected := false |} ]) w.

Definition spawnPowerUp (w : World) : World :=
  let '(rt, w) := mathRandom w in
  let type := pick SHIELD [SHIELD; BOOST; MULTIPLIER] rt in
  let '(id, w) := randomId w in
  let '(r, w) := mathRandom w in
  set_powerUps
    (powerUps w ++
       [ {| pu_id := id;
            pu_x := CANVAS_WIDTH + 200;
            pu_y := GROUND_Y - 100 - r * 100;
            pu_size := 30;
            pu_type := type;
            pu_collected := false |} ]) w.

(** The geometry and the initial behaviour state of a new obstacle of the
    drawn type: [(width, height, y, kind)] (lines 219-230). *)
Definition spawnShape (type : ObstacleType) (w : World)
    : (Q * Q * Q * ObstacleKind) * World :=
  match type with
  | spike => ((30, 30, GROUND_Y - 30, Spike), w)
  | wall => ((30, 60, GROUND_Y - 60, Wall), w)
  | drone =>
      let '(r, w) := mathRandom w in
      ((30, 30, GROUND_Y - 80 - r * 50, Drone), w)
  | mine =>
      let '(r1, w) := mathRandom w in
      let '(r2, w) := mathRandom w in
      ((25, 25, GROUND_Y - 100 - r1 * 100, Mine (r2 * h_PI host * 2)), w)
  | laser => ((20, GROUND_Y, 0, Laser 0 false), w)
  | saw => ((40, 40, GROUND_Y - 40, Saw 0), w)
  | stomp =>
      let '(r, w) := mathRandom w in
      ((60, 80, - (80), Stomp waiting (1000 + r * 1000) false), w)
  | missile =>
      let '(r, w) := mathRandom w in
      ((40, 20, v_y (playerPos w), Missile (8 + r * 5)),
       emit (Audio playMissileLaunchSound) w)
  end.

Definition spawnObstacle (w : World) : World :=
  let '(rt, w) := mathRandom w in
  let type :=
    pick spike [spike; wall; drone; mine; laser; saw; stomp; missile] rt in
  let '((width, height, y, kind), w) := spawnShape type w in
  let '(id, w) := randomId w in
  let w :=
    set_obstacles
      (obstacles w ++
         [ {| o_id := id;
              o_x := CANVAS_WIDTH + 150;
              o_y := y;
              o_baseY := y;
              o_width := width;
              o_height := height;
              o_kind := kind;
              o_speedMultiplier := 1 + (scoreRef w / 1000) |} ]) w in
  let '(rand, w) := mathRandom w in
  if Qltb 0.85 rand then spawnPowerUp w
  else if Qltb 0.7 rand then spawnCollectible w
  else w.

(** ** The death sequence (lines 244-262) *)

(** [window.setTimeout(callback, 1500)]: the browser hands out the next
    positive timer id and keeps the timer pending. *)
Definition setTimeout (w : World) : nat * World :=
  let tid := S (lastTimerId w) in
  (tid, set_timers (timers w ++ [tid]) (set_lastTimerId tid w)).

Definition triggerDeathSequence (environment : Environment)
    (impactX impactY : Q) (w : World) : World :=
  if isDying w then w
  else
    let w := set_isDying true w in
    let w := set_timeScale 0.15 w in
    let w := emit (Audio playGameOverSound) w in
    let w :=
      createCollisionBurst impactX impactY
        [primaryColor environment; secondaryColor environment;
         "#ffffff"%string; "#ff0000"%string; "#ff8800"%string]
        100 40 w in
    let w := set_shakeTime 200 w in
    let '(tid, w) := setTimeout w in
    set_deathTimeoutRef (Some tid) w.

(** The callback armed by [triggerDeathSequence], run by the browser when
    timer [tid] is still pending at its due time (line 260). *)
Definition deathTimeoutFires (tid : nat) (w : World) : World :=
  if existsb (Nat.eqb tid) (timers w)
  then
    let w := clearTimeout tid w in
    if isDying w then emit (OnGameOver (Qfloor (scoreRef w))) w else w
  else w.

(** ** The tick: [update] (lines 264-472) *)

(** Screen shake (lines 269-277). *)
Definition shakeStep (dt : Q) (w : World) : World :=
  if Qltb 0 (shakeTime w) then
    let w := set_shakeTime (shakeTime w - 16 * dt) w in
    let '(r1, w) := mathRandom w in
    let '(r2, w) := mathRandom w in
    set_shakeOffset (mkVec ((r1 - 0.5) * 15) ((r2 - 0.5) * 15)) w
  else set_shakeOffset (mkVec 0 0) w.

(** Expiry of power-ups and the HUD projection (lines 282-290): one pass
    over the entries of the registry. *)
Definition expireStep (now : Z) (acc : Registry * list ActivePowerUpState)
    (entry : PowerUpType * Z) : Registry * list ActivePowerUpState :=
  let '(reg, hudUpdates) := acc in
  let '(type, expiry) := entry in
  if (expiry <? now)%Z then (reg_delete type reg, hudUpdates)
  else
    let timeLeft := (expiry - now)%Z in
    (reg,
     hudUpdates ++
       [ {| hud_type := type;
            hud_timeLeft := timeLeft;
            hud_percent :=
              (inject_Z timeLeft / inject_Z POWERUP_DURATION) * 100 |} ]).

Definition expirePowerUps (now : Z) (w : World) : World :=
  let '(reg, hudUpdates) :=
    fold_left (expireStep now) (activePowerUps w) (activePowerUps w, []) in
  set_activeHudPowerUps hudUpdates (set_activePowerUps reg w).

(** One pad of the gamepad loop (lines 301-314); [None] is a null slot. *)
Definition gamepadStep (environment : Environment)
    (acc : Q * World) (slot : option Gamepad) : Q * World :=
  let '(currentDir, w) := acc in
  match slot with
  | None => (currentDir, w)
  | Some gp =>
      let currentDir :=
        if Qltb (axes0 gp) (-0.3) then -1
        else if Qltb 0.3 (axes0 gp) then 1
        else currentDir in
      let currentDir := if button14 gp then -1 else currentDir in
      let currentDir := if button15 gp then 1 else currentDir in
      let w :=
        if negb (isJumping w) && (button0 gp || button1 gp || button2 gp)
        then jump environment w else w in
      (currentDir, w)
  end.

(** Steering (lines 295-318). *)
Definition steerStep (environment : Environment)
    (gamepads : list (option Gamepad)) (currentSpeed dt : Q) (w : World)
    : World :=
  if isDying w then w
  else
    let currentDir := 0 in
    let currentDir :=
      if keyDown "ArrowLeft" w || keyDown "KeyA" w then -1 else currentDir in
    let currentDir :=
      if keyDown "ArrowRight" w || keyDown "KeyD" w then 1 else currentDir in
    let '(currentDir, w) :=
      fold_left (gamepadStep environment) gamepads (currentDir, w) in
    let w :=
      set_playerPos
        (mkVec (v_x (playerPos w) + currentDir * currentSpeed * dt)
               (v_y (playerPos w))) w in
    set_lastXDir currentDir w.

(** The dash trail (lines 320-323). *)
Definition dashStep (w : World) : World :=
  if reg_has BOOST (activePowerUps w) then
    let trails := playerPos w :: dashTrails w in
    set_dashTrails
      (if (12 <? length trails)%nat then removelast trails else trails) w
  else
    if (0 <? length (dashTrails w))%nat
    then set_dashTrails (removelast (dashTrails w)) w
    else w.

(** Clamping, gravity and landing (lines 325-333). *)
Definition physicsStep (dt : Q) (w : World) : World :=
  let w :=
    set_playerPos
      (mkVec (Qmax 0 (Qmin (v_x (playerPos w)) (CANVAS_WIDTH - PLAYER_SIZE)))
             (v_y (playerPos w))) w in
  let w :=
    set_playerVel
      (mkVec (v_x (playerVel w)) (v_y (playerVel w) + GRAVITY * dt)) w in
  let w :=
    set_playerPos
      (mkVec (v_x (playerPos w))
             (v_y (playerPos w) + v_y (playerVel w) * dt)) w in
  if Qltb (GROUND_Y - PLAYER_SIZE) (v_y (playerPos w)) then
    let w :=
      set_playerPos (mkVec (v_x (playerPos w)) (GROUND_Y - PLAYER_SIZE)) w in
    let w := set_playerVel (mkVec (v_x (playerVel w)) 0) w in
    set_isJumping false w
  else w.

(** Passive score accrual and the level check (lines 336-347). *)
Definition scoreStep (now : Z) (gameSpeed : Q) (isMultActive : bool)
    (w : World) : World :=
  if isDying w then w
  else
    let w :=
      set_scoreRef
        (scoreRef w + (gameSpeed / 8) * (if isMultActive then 2.5 else 1)) w in
    let currentLevel := (Qfloor (scoreRef w / 1000) + 1)%Z in
    if (lastLevelRef w <? currentLevel)%Z then
      let w := set_lastLevelRef currentLevel w in
      let w := emit (OnSocialEvent LEVEL_UP) w in
      let w :=
        set_lastSocialMsg
          (Some {| msg_text := "LEVEL UP: " ++ string_of_Z currentLevel;
                   msg_time := now;
                   msg_color := Some "#00ff00"%string |}) w in
      let w :=
        set_invincibleUntil (now + INVINCIBILITY_DURATION)%Z w in
      emit (Audio playLevelUpSound) w
    else w.

Definition o_set_x (x : Q) (o : Obstacle) : Obstacle :=
  mkObstacle (o_id o) x (o_y o) (o_baseY o) (o_width o) (o_height o)
    (o_kind o) (o_speedMultiplier o).

Definition o_set_y (y : Q) (o : Obstacle) : Obstacle :=
  mkObstacle (o_id o) (o_x o) y (o_baseY o) (o_width o) (o_height o)
    (o_kind o) (o_speedMultiplier o).

Definition o_set_kind (k : ObstacleKind) (o : Obstacle) : Obstacle :=
  mkObstacle (o_id o) (o_x o) (o_y o) (o_baseY o) (o_width o) (o_height o)
    k (o_speedMultiplier o).

(** World scroll of one obstacle (lines 350-351). *)
Definition scrollObstacle (gameSpeed dt : Q) (obs : Obstacle) : Obstacle :=
  match o_kind obs with
  | Missile speed => o_set_x (o_x obs - (gameSpeed + speed * dt)) obs
  | _ => o_set_x (o_x obs - gameSpeed) obs
  end.

(** The behaviour state machines (lines 353-395). *)
Definition behave (environment : Environment) (now : Z) (dt : Q)
    (obs : Obstacle) (w : World) : Obstacle * World :=
  match o_kind obs with
  | Spike | Wall | Missile _ => (obs, w)
  | Drone =>
      (o_set_y
         (o_baseY obs
          + h_sin host (inject_Z now / 300 + o_x obs / 100) * 12) obs, w)
  | Mine phase =>
      let time := inject_Z now / 400 + phase in
      let obs := o_set_y (o_baseY obs + h_sin host time * 40) obs in
      (o_set_x (o_x obs + h_cos host (time * 1.5) * 2) obs, w)
  | Laser timer active =>
      let timer := timer + 16 * dt in
      if Qltb 2000 timer then
        let active := negb active in
        (o_set_kind (Laser 0 active) obs,
         if active then emit (Audio playLaserOnSound) w else w)
      else (o_set_kind (Laser timer active) obs, w)
  | Saw rotation => (o_set_kind (Saw (rotation + 0.2 * dt)) obs, w)
  | Stomp waiting timer played =>
      let timer := timer - 16 * dt in
      (o_set_kind
         (Stomp (if Qle_bool timer 0 then dropping else waiting) timer played)
         obs, w)
  | Stomp dropping timer played =>
      let obs := o_set_y (o_y obs + 20 * dt) obs in
      if Qle_bool (GROUND_Y - o_height obs) (o_y obs) then
        let obs := o_set_y (GROUND_Y - o_height obs) obs in
        let w :=
          if negb played then
            let w := emit (Audio playStompSound) w in
            createCollisionBurst (o_x obs + o_width obs / 2) GROUND_Y
              [secondaryColor environment; "#ffffff"%string] 15 25 w
          else w in
        (o_set_kind (Stomp rising 500 true) obs, w)
      else (obs, w)
  | Stomp rising timer played =>
      let timer := timer - 16 * dt in
      if Qle_bool timer 0 then
        let obs := o_set_y (o_y obs - 3 * dt) obs in
        if Qle_bool (o_y obs) (- o_height obs) then
          let obs := o_set_y (- o_height obs) obs in
          let '(r, w) := mathRandom w in
          (o_set_kind (Stomp waiting (1500 + r * 2000) false) obs, w)
        else (o_set_kind (Stomp rising timer played) obs, w)
      else (o_set_kind (Stomp rising timer played) obs, w)
  end.

(** Distance between the centre of the player and the centre of an
    obstacle (lines 398-400). *)
Definition centreDistance (playerPos : Vector2D) (obs : Obstacle) : Q :=
  let dx := (v_x playerPos + PLAYER_SIZE / 2) - (o_x obs + o_width obs / 2) in
  let dy := (v_y playerPos + PLAYER_SIZE / 2) - (o_y obs + o_height obs / 2) in
  h_sqrt host (dx * dx + dy * dy).

(** The near-miss check of one obstacle (lines 397-407). *)
Definition nearMissCheck (now : Z) (obs : Obstacle) (w : World) : World :=
  if negb (isDying w)
     && negb (bool_decide (o_id obs ∈ nearMissedObstacles w))
  then
    let dist := centreDistance (playerPos w) obs in
    if Qltb dist (PLAYER_SIZE + NEAR_MISS_THRESHOLD) then
      let w :=
        set_nearMissedObstacles ({[ o_id obs ]} ∪ nearMissedObstacles w) w in
      let w := emit (OnSocialEvent NEAR_MISS) w in
      let w :=
        set_lastSocialMsg
          (Some {| msg_text := "NEAR MISS! +500 CLOUT";
                   msg_time := now;
                   msg_color := None |}) w in
      set_scoreRef (scoreRef w + 500) w
    else w
  else w.

(** The body of [obstacles.current.forEach] (lines 349-408). *)
Definition obstacleStep (environment : Environment) (now : Z)
    (gameSpeed dt : Q) (obs : Obstacle) (w : World) : Obstacle * World :=
  let obs := scrollObstacle gameSpeed dt obs in
  let '(obs, w) := behave environment now dt obs w in
  (obs, nearMissCheck now obs w).

Definition obstaclesStep (environment : Environment) (now : Z)
    (gameSpeed dt : Q) (w : World) : World :=
  let '(obs', w) :=
    forEach (obstacleStep environment now gameSpeed dt) (obstacles w) w in
  set_obstacles obs' w.

(** Scrolling of pickups, culling and the score report (lines 410-415). *)
Definition cullStep (gameSpeed : Q) (w : World) : World :=
  let w :=
    set_collectibles
      (map (fun col =>
              mkCollectible (c_id col) (c_x col - gameSpeed) (c_y col)
                (c_size col) (c_collected col)) (collectibles w)) w in
  let w :=
    set_powerUps
      (map (fun pup =>
              mkPowerUp (pu_id pup) (pu_x pup - gameSpeed) (pu_y pup)
                (pu_size pup) (pu_type pup) (pu_collected pup))
         (powerUps w)) w in
  let w :=
    set_obstacles
      (List.filter (fun obs => Qltb (-50) (o_x obs + o_width obs)) (obstacles w))
      w in
  let w := emit (OnScoreUpdate (Qfloor (scoreRef w))) w in
  let w :=
    set_collectibles
      (List.filter (fun col =>
                 Qltb (-50) (c_x col + c_size col) && negb (c_collected col))
         (collectibles w)) w in
  set_powerUps
    (List.filter (fun pup =>
               Qltb (-50) (pu_x pup + pu_size pup) && negb (pu_collected pup))
       (powerUps w)) w.

(** The spawn decision (lines 417-418). *)
Definition spawnDue (w : World) : bool :=
  negb (isDying w)
  && (Nat.eqb (length (obstacles w)) 0
      || match last (obstacles w) with
         | Some lastObs =>
             Qltb (o_x lastObs)
               (CANVAS_WIDTH - (250 - Qmin (scoreRef w / 30) 150))
         | None => false
         end).

Definition spawnStep (w : World) : World :=
  if spawnDue w then spawnObstacle w else w.

(** Particle motion and expiry (lines 420-425). *)
Definition particlesStep (dt : Q) (w : World) : World :=
  let moved :=
    map (fun p =>
           mkParticle (pt_x p + pt_vx p * dt) (pt_y p + pt_vy p * dt)
             (pt_vx p) (pt_vy p) (pt_life p - 0.02 * dt)
             (pt_color p) (pt_type p)) (particles w) in
  set_particles (List.filter (fun p => Qltb 0 (pt_life p)) moved) w.

(** Axis-aligned overlap of the player box with a square pickup. *)
Definition overlapsPickup (playerPos : Vector2D) (x y size : Q) : bool :=
  Qltb (v_x playerPos) (x + size)
  && Qltb x (v_x playerPos + PLAYER_SIZE)
  && Qltb (v_y playerPos) (y + size)
  && Qltb y (v_y playerPos + PLAYER_SIZE).

(** The body of the power-up loop (lines 428-442). *)
Definition powerUpStep (now : Z) (pup : PowerUp) (w : World)
    : PowerUp * World :=
  if negb (pu_collected pup)
     && overlapsPickup (playerPos w) (pu_x pup) (pu_y pup) (pu_size pup)
  then
    let pup :=
      mkPowerUp (pu_id pup) (pu_x pup) (pu_y pup) (pu_size pup) (pu_type pup)
        true in
    let w :=
      set_activePowerUps
        (reg_set (pu_type pup) (now + POWERUP_DURATION)%Z (activePowerUps w))
        w in
    let w :=
      emit (Audio match pu_type pup with
                  | SHIELD => playShieldActivateSound
                  | BOOST => playBoostActivateSound
                  | MULTIPLIER => playMultiplierActivateSound
                  end) w in
    let w := emit (OnSocialEvent POWERUP) w in
    (pup,
     createCollisionBurst (pu_x pup + pu_size pup / 2)
       (pu_y pup + pu_size pup / 2) ["#ffffff"%string] 15 25 w)
  else (pup, w).

(** The body of the collectible loop (lines 443-451). *)
Definition collectibleStep (isMultActive : bool) (col : Collectible)
    (w : World) : Collectible * World :=
  if negb (c_collected col)
     && overlapsPickup (playerPos w) (c_x col) (c_y col) (c_size col)
  then
    let col :=
      mkCollectible (c_id col) (c_x col) (c_y col) (c_size col) true in
    let w := set_scoreRef (scoreRef w + (if isMultActive then 300 else 100)) w in
    let w := emit (Audio playCollectSound) w in
    let w := emit (OnSocialEvent COLLECT) w in
    (col, createLikeParticles (c_x col + c_size col / 2)
            (c_y col + c_size col / 2) w)
  else (col, w).

(** The hazard test (lines 456-458). *)
Definition hit (playerPos : Vector2D) (obs : Obstacle) : bool :=
  let m := 5 in
  (negb (ObstacleType_eqb (o_type obs) laser)
   && Qltb (v_x playerPos + m) (o_x obs + o_width obs - m)
   && Qltb (o_x obs + m) (v_x playerPos + PLAYER_SIZE - m)
   && Qltb (v_y playerPos + m) (o_y obs + o_height obs - m)
   && Qltb (o_y obs + m) (v_y playerPos + PLAYER_SIZE - m))
  || match o_kind obs with
     | Laser _ active =>
         active
         && Qltb (o_x obs + 5) (v_x playerPos + PLAYER_SIZE)
         && Qltb (v_x playerPos) (o_x obs + o_width obs - 5)
     | _ => false
     end.

(** The body of the hazard loop (lines 455-468). *)
Definition hazardStep (environment : Environment) (now : Z)
    (obs : Obstacle) (w : World) : Obstacle * World :=
  if hit (playerPos w) obs then
    if reg_has SHIELD (activePowerUps w) then
      let w :=
        set_activePowerUps (reg_delete SHIELD (activePowerUps w)) w in
      let w := emit (Audio playShieldBreakSound) w in
      let w := set_invincibleUntil (now + 1000)%Z w in
      let obs :=
        if negb (ObstacleType_eqb (o_type obs) laser)
        then o_set_x (-1000) obs else obs in
      (obs,
       createCollisionBurst (v_x (playerPos w)) (v_y (playerPos w))
         ["#00ffff"%string] 30 25 w)
    else
      (obs,
       triggerDeathSequence environment
         (v_x (playerPos w)) (v_y (playerPos w)) w)
  else (obs, w).

(** The hazard pass (lines 453-469). *)
Definition hazardsStep (environment : Environment) (now : Z) (w : World)
    : World :=
  let isInvincible := (now <? invincibleUntil w)%Z in
  if negb isInvincible then
    let '(obs', w) :=
      forEach (hazardStep environment now) (obstacles w) w in
    set_obstacles obs' w
  else w.

(** The two pickup loops (lines 428-451). *)
Definition pickupsStep (now : Z) (isMultActive : bool) (w : World) : World :=
  let '(pups', w) := forEach (powerUpStep now) (powerUps w) w in
  let w := set_powerUps pups' w in
  let '(cols', w) :=
    forEach (collectibleStep isMultActive) (collectibles w) w in
  set_collectibles cols' w.

(** Pickups and hazards (lines 427-470). *)
Definition collisionsStep (environment : Environment) (now : Z)
    (isMultActive : bool) (w : World) : World :=
  if isDying w then w
  else hazardsStep environment now (pickupsStep now isMultActive w).

(** [update], called once per animation frame with [now = Date.now()]. *)
Definition update (gameState : GameState) (environment : Environment)
    (gamepads : list (option Gamepad)) (now : Z) (w : World) : World :=
  if negb (GameState_eqb gameState PLAYING) then w
  else
    let dt := timeScale w in
    let w := shakeStep dt w in
    let isMultActive := reg_has MULTIPLIER (activePowerUps w) in
    let w := set_hasMultiplier isMultActive w in
    let w := expirePowerUps now w in
    let currentSpeed :=
      if reg_has BOOST (activePowerUps w)
      then PLAYER_SPEED * 1.6 else PLAYER_SPEED in
    let w := steerStep environment gamepads currentSpeed dt w in
    let w := dashStep w in
    let w := physicsStep dt w in
    let gameSpeed := (6 + (scoreRef w / 1200)) * dt in
    let w := scoreStep now gameSpeed isMultActive w in
    let w := obstaclesStep environment now gameSpeed dt w in
    let w := cullStep gameSpeed w in
    let w := spawnStep w in
    let w := particlesStep dt w in
    let w := collisionsStep environment now isMultActive w in
    set_backgroundOffset (backgroundOffset w - gameSpeed * 0.5) w.


(** *** Stages of a PLAYING tick

    Names for the states that [update] passes through, so that a property
    can speak of the state in which a given line of the tick runs. *)

(** [isMultActive], the snapshot of line 279: taken before the expired
    entries are purged, and used for the whole tick. *)
Definition isMultActiveAt (w : World) : bool :=
  reg_has MULTIPLIER (activePowerUps (shakeStep (timeScale w) w)).

(** After the controls and the player physics (lines 266-333). *)
Definition afterPhysics (environment : Environment)
    (gamepads : list (option Gamepad)) (now : Z) (w : World) : World :=
  let dt := timeScale w in
  let w := shakeStep dt w in
  let w := set_hasMultiplier (reg_has MULTIPLIER (activePowerUps w)) w in
  let w := expirePowerUps now w in
  let currentSpeed :=
    if reg_has BOOST (activePowerUps w)
    then PLAYER_SPEED * 1.6 else PLAYER_SPEED in
  let w := steerStep environment gamepads currentSpeed dt w in
  let w := dashStep w in
  physicsStep dt w.

(** [gameSpeed] of the tick (line 335). *)
Definition gameSpeedAt (environment : Environment)
    (gamepads : list (option Gamepad)) (now : Z) (w : World) : Q :=
  (6 + (scoreRef (afterPhysics environment gamepads now w) / 1200))
  * timeScale w.

(** After the passive accrual and the level check (line 347). *)
Definition afterScore (environment : Environment)
    (gamepads : list (option Gamepad)) (now : Z) (w : World) : World :=
  scoreStep now (gameSpeedAt environment gamepads now w) (isMultActiveAt w)
    (afterPhysics environment gamepads now w).

(** On entry to the spawn decision (line 417). *)
Definition atSpawn (environment : Environment)
    (gamepads : list (option Gamepad)) (now : Z) (w : World) : World :=
  let gameSpeed := gameSpeedAt environment gamepads now w in
  cullStep gameSpeed
    (obstaclesStep environment now gameSpeed (timeScale w)
       (afterScore environment gamepads now w)).

(** On entry to the pickup loops (line 427). *)
Definition atPickups (environment : Environment)
    (gamepads : list (option Gamepad)) (now : Z) (w : World) : World :=
  particlesStep (timeScale w)
    (spawnStep (atSpawn environment gamepads now w)).

(** On entry to the hazard pass (line 453) of a tick that is not dying. *)
Definition atHazards (environment : Environment)
    (gamepads : list (option Gamepad)) (now : Z) (w : World) : World :=
  pickupsStep now (isMultActiveAt w) (atPickups environment gamepads now w).


(** *** The component as a transition system

    What can happen to the component between mount and unmount: an
    animation frame (lines 696-700 call [update] with the current props),
    a key event, a change of the [gameState] prop, and the firing of a
    death timer. *)
Inductive Event : Type :=
| Frame (gameState : GameState) (environment : Environment)
    (gamepads : list (option Gamepad)) (now : Z)
| KeyDown (gameState : GameState) (environment : Environment)
    (code : string)
| KeyUp (code : string)
| GameStateChanged (gameState : GameState)
| DeathTimeout (tid : nat).

Definition step (w : World) (ev : Event) : World :=
  match ev with
  | Frame gameState environment gamepads now =>
      update gameState environment gamepads now w
  | KeyDown gameState environment code =>
      handleKeyDown gameState environment code w
  | KeyUp code => handleKeyUp code w
  | GameStateChanged gameState => onGameState gameState w
  | DeathTimeout tid => deathTimeoutFires tid w
  end.

Definition run (events : list Event) (w : World) : World :=
  fold_left step events w.

End Simulation.

(** ** The component at mount (the initial values of lines 53-80) *)

Definition mount : World :=
  {| deathTimeoutRef := None;
     activeHudPowerUps := [];
     hasMultiplier := false;
     lastSocialMsg := None;
     keysPressed := ∅;
     playerPos := mkVec PLAYER_X (GROUND_Y - PLAYER_SIZE);
     playerVel := mkVec 0 0;
     isJumping := false;
     scoreRef := 0;
     lastLevelRef := 1%Z;
     lastXDir := 0;
     isDying := false;
     invincibleUntil := 0%Z;
     timeScale := 1.0;
     dashTrails := [];
     activePowerUps := [];
     obstacles := [];
     collectibles := [];
     powerUps := [];
     particles := [];
     backgroundOffset := 0;
     nearMissedObstacles := ∅;
     shakeTime := 0;
     shakeOffset := mkVec 0 0;
     randomCalls := 0%nat;
     lastTimerId := 0%nat;
     timers := [];
     trace := [] |}.

(** ** A concrete host, for running the simulation

    The draws of [Math.random()] come from a table (and are [d] beyond it);
    the square root is truncated to three decimals; base-36 rendering
    gives eleven fractional digits. *)

Definition digit36 (d : Z) : Ascii.ascii :=
  nth (Z.to_nat d)
    (list_ascii_of_string "0123456789abcdefghijklmnopqrstuvwxyz")
    (Ascii.ascii_of_nat 48).

Fixpoint frac36 (n : nat) (q : Q) : string :=
  match n with
  | O => EmptyString
  | S n' =>
      let d := Qfloor (q * 36) in
      String (digit36 d) (frac36 n' (Qred (q * 36 - inject_Z d)))
  end.

Definition tableHost (draws : list Q) (d : Q) : Host :=
  {| h_random := fun n => nth n draws d;
     h_sin := fun _ => 0;
     h_cos := fun _ => 1;
     h_sqrt := fun q => inject_Z (Z.sqrt (Qfloor (q * 1000000))) / 1000;
     h_PI := 3.141592653589793;
     h_toString36 := fun q => String.append "0." (frac36 11 q) |}.

Definition neonGutter : Environment :=
  {| name := "Neon Gutter";
     primaryColor := "#00f2ff";
     secondaryColor := "#ff00ea";
     description := "The baseline of the rift. High voltage, low mercy.";
     atmosphere := "electric" |}.

(** * Properties *)

(** ** Loops preserve invariants *)

Lemma forEach_inv {A : Type} (P : World -> Prop)
    (f : A -> World -> A * World) :
  (forall a w, P w -> P (snd (f a w))) ->
  forall l w, P w -> P (snd (forEach f l w)).
Proof.
  intros Hf l. induction l as [|a l IH]; intros w Hw; simpl; [exact Hw|].
  specialize (Hf a w Hw). destruct (f a w) as [a' w1]. simpl in Hf.
  specialize (IH w1 Hf). destruct (forEach f l w1) as [l' w2]. exact IH.
Qed.

Lemma forEach_Forall2 {A : Type} (R : A -> A -> Prop)
    (f : A -> World -> A * World) :
  (forall a w, R a (fst (f a w))) ->
  forall l w, Forall2 R l (fst (forEach f l w)).
Proof.
  intros Hf l. induction l as [|a l IH]; intros w; simpl; [constructor|].
  specialize (Hf a w). destruct (f a w) as [a' w1]. simpl in Hf.
  specialize (IH w1). destruct (forEach f l w1) as [l' w2].
  constructor; assumption.
Qed.

Lemma iter_inv (P : World -> Prop) (f : World -> World) :
  (forall w, P w -> P (f w)) ->
  forall n w, P w -> P (Nat.iter n f w).
Proof.
  intros Hf n w Hw. induction n as [|n IH]; simpl; auto.
Qed.

(** ** Particle bursts touch the particle list and the random stream only *)

Definition cosmetic (w w' : World) : Prop :=
  exists ps n, w' = set_particles ps (set_randomCalls n w).

Lemma cosmetic_refl w : cosmetic w w.
Proof. exists (particles w), (randomCalls w). destruct w; reflexivity. Qed.

Lemma cosmetic_trans w1 w2 w3 :
  cosmetic w1 w2 -> cosmetic w2 w3 -> cosmetic w1 w3.
Proof.
  intros (ps & n & ->) (ps' & n' & ->). exists ps', n'. reflexivity.
Qed.

Section Bursts.

Variable host : Host.

Lemma createCollisionBurst_cosmetic x y colors count force w :
  cosmetic w (createCollisionBurst host x y colors count force w).
Proof.
  unfold createCollisionBurst.
  apply (iter_inv (cosmetic w)); [|apply cosmetic_refl].
  intros w' Hw'. eapply cosmetic_trans; [exact Hw'|].
  eexists _, _. reflexivity.
Qed.

Lemma createLikeParticles_cosmetic x y w :
  cosmetic w (createLikeParticles host x y w).
Proof.
  unfold createLikeParticles.
  apply (iter_inv (cosmetic w)); [|apply cosmetic_refl].
  intros w' Hw'. eapply cosmetic_trans; [exact Hw'|].
  eexists _, _. reflexivity.
Qed.

Lemma createJumpParticles_cosmetic environment w :
  cosmetic w (createJumpParticles host environment w).
Proof.
  unfold createJumpParticles.
  apply (iter_inv (cosmetic w)); [|apply cosmetic_refl].
  intros w' Hw'. eapply cosmetic_trans; [exact Hw'|].
  eexists _, _. reflexivity.
Qed.

End Bursts.

Arguments createCollisionBurst : simpl never.
Arguments createLikeParticles : simpl never.
Arguments createJumpParticles : simpl never.

(** ** Counting what a tick emits *)

Definition isSocial (s : SocialEvent) (e : Effect) : bool :=
  match e with
  | OnSocialEvent s' => SocialEvent_eqb s s'
  | _ => false
  end.

Definition isGameOverCue (e : Effect) : bool :=
  match e with
  | Audio playGameOverSound => true
  | _ => false
  end.

Definition count (q : Effect -> bool) (t : list Effect) : nat :=
  length (List.filter q t).

Lemma count_app q t1 t2 : count q (t1 ++ t2) = (count q t1 + count q t2)%nat.
Proof. unfold count. rewrite List.filter_app, length_app. reflexivity. Qed.

(** Effects that no scoring rule looks at: the jump, missile, laser and
    stomp cues and the score report. *)
Definition quietEffect (e : Effect) : bool :=
  match e with
  | Audio playJumpSound | Audio playMissileLaunchSound
  | Audio playLaserOnSound | Audio playStompSound | OnScoreUpdate _ => true
  | _ => false
  end.

(** [q] counts none of the quiet effects. *)
Definition loud (q : Effect -> bool) : Prop :=
  forall e, quietEffect e = true -> q e = false.

Lemma loud_isSocial s : loud (isSocial s).
Proof. intros [[]| | |] H; simpl in *; congruence. Qed.

Lemma loud_isGameOverCue : loud isGameOverCue.
Proof. intros [[]| | |] H; simpl in *; congruence. Qed.

(** [w'] extends the trace of [w] by effects that satisfy [P]. *)
Definition emits (P : Effect -> bool) (w w' : World) : Prop :=
  exists es, trace w' = trace w ++ es /\ forallb P es = true.

Lemma emits_refl P w : emits P w w.
Proof. exists []. rewrite app_nil_r. split; reflexivity. Qed.

Lemma emits_trans P w1 w2 w3 : emits P w1 w2 -> emits P w2 w3 -> emits P w1 w3.
Proof.
  intros (es & E1 & F1) (es' & E2 & F2). exists (es ++ es'). split.
  - rewrite E2, E1, app_assoc. reflexivity.
  - rewrite forallb_app, F1, F2. reflexivity.
Qed.

Lemma emits_one (P : Effect -> bool) e w w' :
  trace w' = trace w ++ [e] -> P e = true -> emits P w w'.
Proof. intros E H. exists [e]. split; [exact E|]. simpl. rewrite H. reflexivity. Qed.

Lemma emits_same P w w' : trace w' = trace w -> emits P w w'.
Proof. intros E. exists []. rewrite app_nil_r. split; [exact E|reflexivity]. Qed.

Lemma count_none P q es :
  (forall e, P e = true -> q e = false) -> forallb P es = true ->
  count q es = 0%nat.
Proof.
  intros H. induction es as [|e es IH]; simpl; [reflexivity|].
  intros F. apply andb_true_iff in F as [Fe Fes].
  unfold count in *. simpl. rewrite (H e Fe). apply IH, Fes.
Qed.

Lemma emits_count P q w w' :
  (forall e, P e = true -> q e = false) -> emits P w w' ->
  count q (trace w') = count q (trace w).
Proof.
  intros H (es & E & F). rewrite E, count_app, (count_none P q es H F). lia.
Qed.

(** ** Phases that leave the rules alone

    [steady w w']: score, level, dying flag, near-miss set, time scale,
    invincibility expiry and pending timers are those of [w], and only
    quiet effects were emitted. *)
Definition steady (w w' : World) : Prop :=
  scoreRef w' = scoreRef w /\ lastLevelRef w' = lastLevelRef w
  /\ isDying w' = isDying w
  /\ nearMissedObstacles w' = nearMissedObstacles w
  /\ timeScale w' = timeScale w
  /\ invincibleUntil w' = invincibleUntil w
  /\ timers w' = timers w
  /\ emits quietEffect w w'.

Lemma steady_refl w : steady w w.
Proof. unfold steady. repeat split; apply emits_refl. Qed.

Lemma steady_trans w1 w2 w3 : steady w1 w2 -> steady w2 w3 -> steady w1 w3.
Proof.
  unfold steady. intros (A1 & A2 & A3 & A4 & A5 & A6 & A7 & A8)
    (B1 & B2 & B3 & B4 & B5 & B6 & B7 & B8).
  repeat split; try congruence. eapply emits_trans; eassumption.
Qed.

Lemma steady_cosmetic w w' : cosmetic w w' -> steady w w'.
Proof.
  intros (ps & n & ->). unfold steady. repeat split. apply emits_same.
  reflexivity.
Qed.

(** Proves [steady] for a phase that is a composition of setters. *)
Ltac steady_setters :=
  unfold steady; repeat split;
  try (apply emits_same; reflexivity).

Lemma steady_set_backgroundOffset b w : steady w (set_backgroundOffset b w).
Proof. steady_setters. Qed.

Section Frames.

Variable host : Host.

Lemma update_stages environment gamepads now w :
  update host PLAYING environment gamepads now w =
  set_backgroundOffset
    (backgroundOffset
       (collisionsStep host environment now (isMultActiveAt host w)
          (atPickups host environment gamepads now w))
     - gameSpeedAt host environment gamepads now w * 0.5)
    (collisionsStep host environment now (isMultActiveAt host w)
       (atPickups host environment gamepads now w)).
Proof.
  unfold update, atPickups, atSpawn, afterScore, gameSpeedAt, afterPhysics,
    isMultActiveAt.
  cbv beta zeta iota delta [GameState_eqb negb]. reflexivity.
Qed.

Lemma update_not_playing gameState environment gamepads now w :
  gameState <> PLAYING ->
  update host gameState environment gamepads now w = w.
Proof. destruct gameState; intros H; try reflexivity. congruence. Qed.

Lemma shakeStep_steady dt w : steady w (shakeStep host dt w).
Proof.
  unfold shakeStep. destruct (Qltb 0 (shakeTime w)); steady_setters.
Qed.

Lemma shakeStep_registry dt w :
  activePowerUps (shakeStep host dt w) = activePowerUps w.
Proof. unfold shakeStep. destruct (Qltb 0 (shakeTime w)); reflexivity. Qed.

Lemma expirePowerUps_steady now w : steady w (expirePowerUps now w).
Proof.
  unfold expirePowerUps.
  destruct (fold_left _ _ _) as [reg hud]. steady_setters.
Qed.

Lemma jump_steady environment w : steady w (jump host environment w).
Proof.
  unfold jump. eapply steady_trans;
    [|apply steady_cosmetic, createJumpParticles_cosmetic].
  unfold steady. repeat split. eapply emits_one; reflexivity.
Qed.

Lemma gamepads_steady environment gamepads : forall dir w,
  steady w (snd (fold_left (gamepadStep host environment) gamepads (dir, w))).
Proof.
  induction gamepads as [|slot gps IH]; intros dir w; simpl;
    [apply steady_refl|].
  destruct slot as [gp|]; [|apply IH].
  eapply steady_trans; [|apply IH].
  destruct (negb (isJumping w) && _); [apply jump_steady|apply steady_refl].
Qed.

Lemma steerStep_steady environment gamepads currentSpeed dt w :
  steady w (steerStep host environment gamepads currentSpeed dt w).
Proof.
  unfold steerStep. destruct (isDying w); [apply steady_refl|].
  match goal with |- context [fold_left ?f ?l (?d, w)] =>
    pose proof (gamepads_steady environment l d w) as H;
    destruct (fold_left f l (d, w)) as [dir w1] end.
  simpl in H. eapply steady_trans; [exact H|]. steady_setters.
Qed.

Lemma dashStep_steady w : steady w (dashStep w).
Proof.
  unfold dashStep. destruct (reg_has BOOST (activePowerUps w)).
  - steady_setters.
  - destruct (0 <? length (dashTrails w))%nat; steady_setters.
Qed.

Lemma physicsStep_steady dt w : steady w (physicsStep dt w).
Proof.
  unfold physicsStep. cbv zeta.
  match goal with |- context [if ?b then _ else _] => destruct b end;
    steady_setters.
Qed.

Lemma afterPhysics_steady environment gamepads now w :
  steady w (afterPhysics host environment gamepads now w).
Proof.
  unfold afterPhysics. cbv zeta.
  eapply steady_trans; [|apply physicsStep_steady].
  eapply steady_trans; [|apply dashStep_steady].
  eapply steady_trans; [|apply steerStep_steady].
  eapply steady_trans; [|apply expirePowerUps_steady].
  eapply steady_trans; [apply shakeStep_steady|]. steady_setters.
Qed.

Lemma cullStep_steady gameSpeed w : steady w (cullStep gameSpeed w).
Proof.
  unfold cullStep. unfold steady. repeat split.
  eapply emits_one; reflexivity.
Qed.

Lemma particlesStep_steady dt w : steady w (particlesStep dt w).
Proof. unfold particlesStep. steady_setters. Qed.

End Frames.

(** ** Spawning *)

Section Spawning.

Variable host : Host.

(** What [spawnObstacle] does to the rules and to the entity lists: one
    obstacle is appended, at most one companion pickup, both beyond the
    right edge of the canvas. *)
Lemma spawnObstacle_spec w :
  steady w (spawnObstacle host w)
  /\ activePowerUps (spawnObstacle host w) = activePowerUps w
  /\ playerPos (spawnObstacle host w) = playerPos w
  /\ particles (spawnObstacle host w) = particles w
  /\ (exists o,
        obstacles (spawnObstacle host w) = obstacles w ++ [o]
        /\ o_speedMultiplier o = 1 + scoreRef w / 1000
        /\ o_x o = CANVAS_WIDTH + 150)
  /\ ((collectibles (spawnObstacle host w) = collectibles w
       /\ powerUps (spawnObstacle host w) = powerUps w)
      \/ (collectibles (spawnObstacle host w) = collectibles w
          /\ exists pup,
               powerUps (spawnObstacle host w) = powerUps w ++ [pup]
               /\ pu_x pup = CANVAS_WIDTH + 200)
      \/ (powerUps (spawnObstacle host w) = powerUps w
          /\ exists col,
               collectibles (spawnObstacle host w) = collectibles w ++ [col]
               /\ c_x col = CANVAS_WIDTH + 200)).
Proof.
  unfold spawnObstacle.
  cbv beta zeta iota delta [mathRandom randomId].
  destruct (pick _ _ _);
    cbv beta zeta iota delta [spawnShape mathRandom randomId];
    repeat match goal with
           | |- context [if ?b then _ else _] => destruct b
           end;
    (split; [unfold steady; repeat split;
             first [ apply emits_same; reflexivity
                   | eapply emits_one; reflexivity ] |]);
    (split; [reflexivity|]); (split; [reflexivity|]);
    (split; [reflexivity|]);
    (split; [eexists; repeat split; reflexivity|]);
    first [ left; split; reflexivity
          | right; left; split; [reflexivity|];
            eexists; split; reflexivity
          | right; right; split; [reflexivity|];
            eexists; split; reflexivity ].
Qed.

Lemma spawnStep_steady w : steady w (spawnStep host w).
Proof.
  unfold spawnStep. destruct (spawnDue w); [|apply steady_refl].
  apply spawnObstacle_spec.
Qed.

End Spawning.

(** ** The passive accrual and the level check *)

Section ScoreStep.

Lemma scoreStep_dying now gameSpeed isMultActive w :
  isDying w = true -> scoreStep now gameSpeed isMultActive w = w.
Proof. unfold scoreStep. intros ->. reflexivity. Qed.

(** The level that line 339 derives from the score after accrual. *)
Definition levelAfterAccrual (gameSpeed : Q) (isMultActive : bool)
    (w : World) : Z :=
  (Qfloor
     ((scoreRef w + (gameSpeed / 8) * (if isMultActive then 2.5 else 1))
      / 1000) + 1)%Z.

Definition scoreEffect (e : Effect) : bool :=
  match e with
  | OnSocialEvent LEVEL_UP | Audio playLevelUpSound => true
  | _ => false
  end.

Lemma scoreStep_alive now gameSpeed isMultActive w :
  isDying w = false ->
  let w' := scoreStep now gameSpeed isMultActive w in
  let level := levelAfterAccrual gameSpeed isMultActive w in
  scoreRef w' =
    scoreRef w + (gameSpeed / 8) * (if isMultActive then 2.5 else 1)
  /\ isDying w' = false
  /\ nearMissedObstacles w' = nearMissedObstacles w
  /\ timeScale w' = timeScale w
  /\ emits scoreEffect w w'
  /\ ((lastLevelRef w < level)%Z ->
        lastLevelRef w' = level
        /\ invincibleUntil w' = (now + INVINCIBILITY_DURATION)%Z
        /\ trace w' =
             trace w ++ [OnSocialEvent LEVEL_UP; Audio playLevelUpSound])
  /\ ((level <= lastLevelRef w)%Z ->
        lastLevelRef w' = lastLevelRef w
        /\ invincibleUntil w' = invincibleUntil w
        /\ trace w' = trace w).
Proof.
  intros Hd. unfold scoreStep, levelAfterAccrual. rewrite Hd.
  cbv beta zeta. unfold emit.
  cbn [scoreRef lastLevelRef set_scoreRef].
  match goal with |- context [(?a <? ?b)%Z] =>
    destruct (Z.ltb_spec a b) as [Hlt|Hge] end.
  - split; [reflexivity|]. split; [exact Hd|]. split; [reflexivity|].
    split; [reflexivity|]. split; [|split].
    + exists [OnSocialEvent LEVEL_UP; Audio playLevelUpSound]. split.
      * cbn. rewrite <- app_assoc. reflexivity.
      * reflexivity.
    + intros _. split; [reflexivity|]. split; [reflexivity|].
      cbn. rewrite <- app_assoc. reflexivity.
    + intros H. lia.
  - split; [reflexivity|]. split; [exact Hd|]. split; [reflexivity|].
    split; [reflexivity|]. split; [|split].
    + apply emits_same. reflexivity.
    + intros H. lia.
    + intros _. repeat split; reflexivity.
Qed.

End ScoreStep.

(** ** The death sequence *)

Section Death.

Variable host : Host.

Lemma triggerDeathSequence_dying environment x y w :
  isDying w = true -> triggerDeathSequence host environment x y w = w.
Proof. unfold triggerDeathSequence. intros ->. reflexivity. Qed.

Lemma triggerDeathSequence_alive environment x y w :
  isDying w = false ->
  exists ps n,
    triggerDeathSequence host environment x y w =
    set_deathTimeoutRef (Some (S (lastTimerId w)))
      (set_timers (timers w ++ [S (lastTimerId w)])
         (set_lastTimerId (S (lastTimerId w))
            (set_shakeTime 200
               (set_particles ps
                  (set_randomCalls n
                     (set_trace (trace w ++ [Audio playGameOverSound])
                        (set_timeScale 0.15 (set_isDying true w)))))))).
Proof.
  intros Hd. unfold triggerDeathSequence. rewrite Hd. cbv beta zeta.
  match goal with |- context [createCollisionBurst host ?a ?b ?c ?d ?e ?v] =>
    destruct (createCollisionBurst_cosmetic host a b c d e v)
      as (ps & n & ->) end.
  exists ps, n. reflexivity.
Qed.

(** Whatever the state, the sequence leaves the player dying, and leaves
    the score, the registry, the position and the entities alone. *)
Lemma triggerDeathSequence_frame environment x y w :
  let w' := triggerDeathSequence host environment x y w in
  isDying w' = true
  /\ scoreRef w' = scoreRef w
  /\ lastLevelRef w' = lastLevelRef w
  /\ nearMissedObstacles w' = nearMissedObstacles w
  /\ activePowerUps w' = activePowerUps w
  /\ invincibleUntil w' = invincibleUntil w
  /\ playerPos w' = playerPos w
  /\ obstacles w' = obstacles w
  /\ collectibles w' = collectibles w
  /\ powerUps w' = powerUps w.
Proof.
  destruct (isDying w) eqn:Hd.
  - cbv zeta. rewrite (triggerDeathSequence_dying _ _ _ _ Hd).
    repeat split; assumption.
  - cbv zeta.
    destruct (triggerDeathSequence_alive environment x y w Hd)
      as (ps & n & ->).
    repeat split.
Qed.

End Death.

(** ** The obstacle pass: behaviours and near misses *)

(** What [update] never changes in an obstacle. *)
Definition same_obstacle (o o' : Obstacle) : Prop :=
  o_id o' = o_id o /\ o_speedMultiplier o' = o_speedMultiplier o
  /\ o_type o' = o_type o /\ o_width o' = o_width o
  /\ o_height o' = o_height o /\ o_baseY o' = o_baseY o.

Lemma same_obstacle_refl o : same_obstacle o o.
Proof. unfold same_obstacle. repeat split. Qed.

Lemma same_obstacle_trans o1 o2 o3 :
  same_obstacle o1 o2 -> same_obstacle o2 o3 -> same_obstacle o1 o3.
Proof. unfold same_obstacle. intuition congruence. Qed.

Definition behaveCue (e : Effect) : bool :=
  match e with
  | Audio playLaserOnSound | Audio playStompSound => true
  | _ => false
  end.

Definition obstacleEffect (e : Effect) : bool :=
  behaveCue e || isSocial NEAR_MISS e.

(** [w'] is [w] with more particles, more random draws made, and a longer
    trace. *)
Definition decorates (P : Effect -> bool) (w w' : World) : Prop :=
  exists ps n es,
    w' = set_particles ps (set_randomCalls n (set_trace (trace w ++ es) w))
    /\ forallb P es = true.

Lemma decorates_refl P w : decorates P w w.
Proof.
  exists (particles w), (randomCalls w), []. split; [|reflexivity].
  rewrite app_nil_r. destruct w; reflexivity.
Qed.

Lemma decorates_emit (P : Effect -> bool) e w :
  P e = true -> decorates P w (emit e w).
Proof.
  intros H. exists (particles w), (randomCalls w), [e]. split.
  - destruct w; reflexivity.
  - simpl. rewrite H. reflexivity.
Qed.

Lemma decorates_trans P w1 w2 w3 :
  decorates P w1 w2 -> decorates P w2 w3 -> decorates P w1 w3.
Proof.
  intros (ps & n & es & -> & F) (ps' & n' & es' & -> & F').
  exists ps', n', (es ++ es'). split.
  - cbn [trace set_trace set_particles set_randomCalls].
    rewrite app_assoc. reflexivity.
  - rewrite forallb_app, F, F'. reflexivity.
Qed.

Lemma decorates_cosmetic P w w' : cosmetic w w' -> decorates P w w'.
Proof.
  intros (ps & n & ->). exists ps, n, []. split; [|reflexivity].
  rewrite app_nil_r. destruct w; reflexivity.
Qed.

Section ObstaclePass.

Variable host : Host.

Lemma scrollObstacle_same gameSpeed dt obs :
  same_obstacle obs (scrollObstacle gameSpeed dt obs).
Proof.
  unfold scrollObstacle, same_obstacle, o_type.
  destruct (o_kind obs) eqn:E; simpl; rewrite ?E; repeat split.
Qed.

Lemma behave_spec environment now dt obs w :
  same_obstacle obs (fst (behave host environment now dt obs w))
  /\ decorates behaveCue w (snd (behave host environment now dt obs w)).
Proof.
  unfold behave, same_obstacle, o_type.
  destruct (o_kind obs) as [| | |ph|t a|r|st t pl|sp] eqn:E;
    try (simpl; rewrite ?E; split; [repeat split|apply decorates_refl]).
  - (* laser *)
    cbv zeta. destruct (Qltb 2000 (t + 16 * dt)); simpl.
    + split; [repeat split|].
      destruct (negb a); [|apply decorates_refl].
      apply decorates_emit. reflexivity.
    + split; [repeat split|apply decorates_refl].
  - (* stomp *)
    destruct st; cbv zeta.
    + simpl. split; [repeat split|apply decorates_refl].
    + destruct (Qle_bool _ _); simpl.
      * split; [repeat split|].
        destruct (negb pl); [|apply decorates_refl].
        eapply decorates_trans;
          [apply (decorates_emit behaveCue (Audio playStompSound));
           reflexivity|].
        apply decorates_cosmetic, createCollisionBurst_cosmetic.
      * rewrite E. split; [repeat split|apply decorates_refl].
    + destruct (Qle_bool (t - 16 * dt) 0); simpl.
      * destruct (Qle_bool _ _); simpl.
        -- split; [repeat split|].
           exists (particles w), (S (randomCalls w)), [].
           split; [|reflexivity]. rewrite app_nil_r.
           destruct w; reflexivity.
        -- split; [repeat split|apply decorates_refl].
      * split; [repeat split|apply decorates_refl].
Qed.

(** The near-miss check either does nothing or credits the obstacle. *)
Definition credited (now : Z) (obs : Obstacle) (w : World) : World :=
  set_scoreRef (scoreRef w + 500)
    (set_lastSocialMsg
       (Some {| msg_text := "NEAR MISS! +500 CLOUT";
                msg_time := now;
                msg_color := None |})
       (emit (OnSocialEvent NEAR_MISS)
          (set_nearMissedObstacles
             ({[ o_id obs ]} ∪ nearMissedObstacles w) w))).

Lemma nearMissCheck_cases now obs w :
  (nearMissCheck host now obs w = w
   /\ (isDying w = true \/ (o_id obs ∈ nearMissedObstacles w)
       \/ (PLAYER_SIZE + NEAR_MISS_THRESHOLD
           <= centreDistance host (playerPos w) obs)))
  \/ (nearMissCheck host now obs w = credited now obs w
      /\ isDying w = false /\ (o_id obs ∉ nearMissedObstacles w)
      /\ (centreDistance host (playerPos w) obs
          < PLAYER_SIZE + NEAR_MISS_THRESHOLD)).
Proof.
  unfold nearMissCheck. destruct (isDying w); simpl; [left; auto|].
  destruct (bool_decide_reflect (o_id obs ∈ nearMissedObstacles w));
    simpl; [left; auto|].
  destruct (Qltb _ _) eqn:E.
  - right. apply Qltb_lt in E. repeat split; auto.
  - left. apply Qltb_ge in E. auto.
Qed.

(** The invariant of the obstacle pass: [k] near misses were credited,
    each by one NEAR_MISS event, one new id in the set and 500 points. *)
Definition ledger (w w' : World) : Prop :=
  lastLevelRef w' = lastLevelRef w /\ isDying w' = isDying w
  /\ timeScale w' = timeScale w /\ invincibleUntil w' = invincibleUntil w
  /\ activePowerUps w' = activePowerUps w
  /\ collectibles w' = collectibles w /\ powerUps w' = powerUps w
  /\ playerPos w' = playerPos w
  /\ timers w' = timers w
  /\ emits obstacleEffect w w'
  /\ nearMissedObstacles w ⊆ nearMissedObstacles w'
  /\ (isDying w = true ->
        scoreRef w' = scoreRef w
        /\ nearMissedObstacles w' = nearMissedObstacles w)
  /\ exists k : nat,
       count (isSocial NEAR_MISS) (trace w') =
         (count (isSocial NEAR_MISS) (trace w) + k)%nat
       /\ size (nearMissedObstacles w') =
            (size (nearMissedObstacles w) + k)%nat
       /\ scoreRef w' == scoreRef w + 500 * inject_Z (Z.of_nat k)
       /\ forall q, q (OnSocialEvent NEAR_MISS) = false ->
            (forall e, behaveCue e = true -> q e = false) ->
            count q (trace w') = count q (trace w).

Lemma ledger_refl w : ledger w w.
Proof.
  unfold ledger. repeat split; try reflexivity; try apply emits_refl.
  exists 0%nat. split; [lia|]. split; [lia|]. split; [simpl; ring|].
  intros q _ _. reflexivity.
Qed.

Lemma ledger_trans w1 w2 w3 : ledger w1 w2 -> ledger w2 w3 -> ledger w1 w3.
Proof.
  intros (A1 & A2 & A3 & A4 & A5 & A6 & A7 & A8 & A0 & A9 & A10 & A11 & k & K)
         (B1 & B2 & B3 & B4 & B5 & B6 & B7 & B8 & B0 & B9 & B10 & B11 & k' & K').
  unfold ledger. split; [congruence|].
  split; [congruence|]. split; [congruence|]. split; [congruence|].
  split; [congruence|]. split; [congruence|]. split; [congruence|].
  split; [congruence|]. split; [congruence|].
  split; [eapply emits_trans; eassumption|].
  split; [etransitivity; eassumption|].
  split.
  - intros Hd. destruct (A11 Hd) as [S1 N1].
    assert (Hd2 : isDying w2 = true) by congruence.
    destruct (B11 Hd2) as [S2 N2]. split; congruence.
  - destruct K as (C1 & C2 & C3 & C4). destruct K' as (D1 & D2 & D3 & D4).
    exists (k + k')%nat. split; [lia|]. split; [lia|]. split.
    + rewrite D3, C3. rewrite Nat2Z.inj_add, inject_Z_plus. ring.
    + intros q Hq Hc. rewrite (D4 q Hq Hc). apply C4; assumption.
Qed.

Lemma ledger_decorates w w' : decorates behaveCue w w' -> ledger w w'.
Proof.
  intros (ps & n & es & -> & F). unfold ledger.
  repeat (split; [reflexivity|]).
  split.
  { exists es. split; [reflexivity|]. unfold obstacleEffect.
    clear -F. induction es as [|e es IH]; [reflexivity|]. simpl in *.
    apply andb_true_iff in F as [-> F]. simpl. apply IH, F. }
  split; [reflexivity|].
  split; [intros _; split; reflexivity|].
  exists 0%nat. cbn [trace set_trace set_particles set_randomCalls].
  assert (Hc : forall q, (forall e, behaveCue e = true -> q e = false) ->
                 count q es = 0%nat)
    by (intros q Hq; eapply count_none; eassumption).
  split.
  { rewrite count_app, Hc; [lia|]. intros [[]| | |] H; simpl in *; congruence. }
  split; [cbn; lia|]. split; [cbn; ring|].
  intros q _ Hq. rewrite count_app, (Hc q Hq). lia.
Qed.

Lemma ledger_nearMissCheck now obs w : ledger w (nearMissCheck host now obs w).
Proof.
  destruct (nearMissCheck_cases now obs w)
    as [[-> _]|(-> & Hd & Hid & Hdist)]; [apply ledger_refl|].
  unfold ledger, credited, emit.
  repeat (split; [reflexivity|]).
  split; [eapply emits_one; reflexivity|].
  split; [cbn; set_solver|].
  split; [intros Hd'; congruence|].
  exists 1%nat. cbn [trace set_trace set_scoreRef set_lastSocialMsg
    set_nearMissedObstacles nearMissedObstacles scoreRef].
  split; [rewrite count_app; reflexivity|].
  split.
  { rewrite size_union by set_solver. rewrite size_singleton. lia. }
  split; [simpl; ring|].
  intros q Hq _. rewrite count_app. unfold count at 2. simpl.
  rewrite Hq. simpl. lia.
Qed.

Lemma obstacleStep_spec environment now gameSpeed dt obs w :
  same_obstacle obs
    (fst (obstacleStep host environment now gameSpeed dt obs w))
  /\ ledger w (snd (obstacleStep host environment now gameSpeed dt obs w)).
Proof.
  unfold obstacleStep. cbv zeta.
  pose proof (behave_spec environment now dt
                (scrollObstacle gameSpeed dt obs) w) as [Hs Hd].
  destruct (behave host environment now dt
              (scrollObstacle gameSpeed dt obs) w) as [obs' w1].
  simpl in *. split.
  - eapply same_obstacle_trans; [apply scrollObstacle_same|exact Hs].
  - eapply ledger_trans; [apply ledger_decorates, Hd|].
    apply ledger_nearMissCheck.
Qed.

Lemma obstaclesStep_ledger environment now gameSpeed dt w :
  ledger w (obstaclesStep host environment now gameSpeed dt w).
Proof.
  unfold obstaclesStep.
  pose proof (forEach_inv (ledger w)
    (obstacleStep host environment now gameSpeed dt)) as H.
  specialize (H (fun a w1 Hw1 => ledger_trans _ _ _ Hw1
    (proj2 (obstacleStep_spec environment now gameSpeed dt a w1)))
    (obstacles w) w (ledger_refl w)).
  destruct (forEach _ _ _) as [obs' w']. simpl in H.
  eapply ledger_trans; [exact H|].
  unfold ledger. repeat (split; [reflexivity|]).
  split; [apply emits_same; reflexivity|].
  split; [reflexivity|]. split; [intros _; split; reflexivity|].
  exists 0%nat. split; [rewrite Nat.add_0_r; reflexivity|].
  split; [rewrite Nat.add_0_r; reflexivity|].
  split; [cbn; ring|]. intros q _ _. reflexivity.
Qed.

Lemma obstaclesStep_obstacles environment now gameSpeed dt w :
  Forall2 same_obstacle (obstacles w)
    (obstacles (obstaclesStep host environment now gameSpeed dt w)).
Proof.
  unfold obstaclesStep.
  pose proof (forEach_Forall2 same_obstacle
    (obstacleStep host environment now gameSpeed dt)
    (fun a w1 => proj1 (obstacleStep_spec environment now gameSpeed dt a w1))
    (obstacles w) w) as H.
  destruct (forEach _ _ _) as [obs' w']. exact H.
Qed.

End ObstaclePass.

(** ** The pickup loops *)

Definition pickupEffect (e : Effect) : bool :=
  match e with
  | Audio playShieldActivateSound | Audio playBoostActivateSound
  | Audio playMultiplierActivateSound | Audio playCollectSound
  | OnSocialEvent POWERUP | OnSocialEvent COLLECT => true
  | _ => false
  end.

(** The invariant of the pickup loops: [k] collectibles were picked up,
    each by one COLLECT event and [award] points. *)
Definition pickupLedger (award : Q) (w w' : World) : Prop :=
  lastLevelRef w' = lastLevelRef w /\ isDying w' = isDying w
  /\ timeScale w' = timeScale w /\ invincibleUntil w' = invincibleUntil w
  /\ nearMissedObstacles w' = nearMissedObstacles w
  /\ obstacles w' = obstacles w
  /\ playerPos w' = playerPos w
  /\ emits pickupEffect w w'
  /\ exists k : nat,
       count (isSocial COLLECT) (trace w') =
         (count (isSocial COLLECT) (trace w) + k)%nat
       /\ scoreRef w' == scoreRef w + award * inject_Z (Z.of_nat k).

Lemma pickupLedger_refl award w : pickupLedger award w w.
Proof.
  unfold pickupLedger. repeat (split; [reflexivity|]).
  split; [apply emits_refl|].
  exists 0%nat. split; [lia|]. simpl. ring.
Qed.

Lemma pickupLedger_trans award w1 w2 w3 :
  pickupLedger award w1 w2 -> pickupLedger award w2 w3 ->
  pickupLedger award w1 w3.
Proof.
  intros (A1 & A2 & A3 & A4 & A5 & A6 & A7 & A8 & k & K1 & K2)
         (B1 & B2 & B3 & B4 & B5 & B6 & B7 & B8 & k' & K1' & K2').
  unfold pickupLedger.
  repeat (split; [congruence|]).
  split; [eapply emits_trans; eassumption|].
  exists (k + k')%nat. split; [lia|].
  rewrite K2', K2, Nat2Z.inj_add, inject_Z_plus. ring.
Qed.

(** Points for one collectible (line 446). *)
Definition collectibleAward (isMultActive : bool) : Q :=
  if isMultActive then 300 else 100.

Section Pickups.

Variable host : Host.

Lemma powerUpStep_ledger award now pup w :
  pickupLedger award w (snd (powerUpStep host now pup w)).
Proof.
  unfold powerUpStep.
  destruct (negb (pu_collected pup) && _); [|apply pickupLedger_refl].
  cbv zeta. cbn [snd].
  match goal with |- context [createCollisionBurst host ?a ?b ?c ?d ?e ?v] =>
    destruct (createCollisionBurst_cosmetic host a b c d e v)
      as (ps & n & ->) end.
  unfold pickupLedger, emit. repeat (split; [reflexivity|]).
  split.
  - eexists [_; _]. split.
    + cbn [trace set_trace set_particles set_randomCalls set_activePowerUps].
      rewrite <- app_assoc. reflexivity.
    + cbn [pu_type]. destruct (pu_type pup); reflexivity.
  - exists 0%nat.
    cbn [trace set_trace set_particles set_randomCalls set_activePowerUps
         scoreRef].
    split; [|simpl; ring].
    rewrite !count_app. cbn [pu_type].
    destruct (pu_type pup); unfold count; simpl; lia.
Qed.

Lemma collectibleStep_ledger isMultActive col w :
  pickupLedger (collectibleAward isMultActive) w
    (snd (collectibleStep host isMultActive col w)).
Proof.
  unfold collectibleStep, collectibleAward.
  destruct (negb (c_collected col) && _); [|apply pickupLedger_refl].
  cbv zeta. cbn [snd].
  match goal with |- context [createLikeParticles host ?a ?b ?v] =>
    destruct (createLikeParticles_cosmetic host a b v)
      as (ps & n & ->) end.
  unfold pickupLedger, emit. repeat (split; [reflexivity|]).
  split.
  - eexists [_; _]. split.
    + cbn [trace set_trace set_particles set_randomCalls set_scoreRef].
      rewrite <- app_assoc. reflexivity.
    + reflexivity.
  - exists 1%nat.
    cbn [trace set_trace set_particles set_randomCalls set_scoreRef scoreRef].
    split; [rewrite !count_app; unfold count; simpl; lia|]. simpl. ring.
Qed.

Lemma pickupsStep_ledger now isMultActive w :
  pickupLedger (collectibleAward isMultActive) w
    (pickupsStep host now isMultActive w).
Proof.
  set (award := collectibleAward isMultActive).
  assert (Hset1 : forall l v, pickupLedger award v (set_powerUps l v)).
  { intros l v. unfold pickupLedger. repeat (split; [reflexivity|]).
    split; [apply emits_same; reflexivity|].
    exists 0%nat. split; [rewrite Nat.add_0_r; reflexivity|]. cbn. ring. }
  assert (Hset2 : forall l v, pickupLedger award v (set_collectibles l v)).
  { intros l v. unfold pickupLedger. repeat (split; [reflexivity|]).
    split; [apply emits_same; reflexivity|].
    exists 0%nat. split; [rewrite Nat.add_0_r; reflexivity|]. cbn. ring. }
  unfold pickupsStep.
  pose proof (forEach_inv (pickupLedger award w) (powerUpStep host now)
    (fun a w1 Hw1 => pickupLedger_trans _ _ _ _ Hw1
       (powerUpStep_ledger award now a w1))
    (powerUps w) w (pickupLedger_refl award w)) as H1.
  destruct (forEach (powerUpStep host now) (powerUps w) w) as [pups' w1].
  simpl in H1.
  pose proof (pickupLedger_trans _ _ _ _ H1 (Hset1 pups' w1)) as H1'.
  pose proof (forEach_inv (pickupLedger award w)
    (collectibleStep host isMultActive)
    (fun a w2 Hw2 => pickupLedger_trans _ _ _ _ Hw2
       (collectibleStep_ledger isMultActive a w2))
    (collectibles (set_powerUps pups' w1)) (set_powerUps pups' w1) H1')
    as H2.
  destruct (forEach (collectibleStep host isMultActive) _ _) as [cols' w2].
  simpl in H2.
  exact (pickupLedger_trans _ _ _ _ H2 (Hset2 cols' w2)).
Qed.

End Pickups.

(** ** The hazard pass *)

Definition hazardEffect (e : Effect) : bool :=
  match e with
  | Audio playShieldBreakSound | Audio playGameOverSound => true
  | _ => false
  end.

(** What the hazard pass never changes, and that it never revives. *)
Definition hazardFrame (w w' : World) : Prop :=
  scoreRef w' = scoreRef w /\ lastLevelRef w' = lastLevelRef w
  /\ nearMissedObstacles w' = nearMissedObstacles w
  /\ collectibles w' = collectibles w /\ powerUps w' = powerUps w
  /\ playerPos w' = playerPos w
  /\ (isDying w = true -> isDying w' = true)
  /\ emits hazardEffect w w'.

Lemma hazardFrame_refl w : hazardFrame w w.
Proof.
  unfold hazardFrame. repeat (split; [reflexivity|]).
  split; [auto|apply emits_refl].
Qed.

Lemma hazardFrame_trans w1 w2 w3 :
  hazardFrame w1 w2 -> hazardFrame w2 w3 -> hazardFrame w1 w3.
Proof.
  intros (A1 & A2 & A3 & A4 & A5 & A6 & A7 & A8)
         (B1 & B2 & B3 & B4 & B5 & B6 & B7 & B8).
  unfold hazardFrame. repeat (split; [congruence|]).
  split; [auto|eapply emits_trans; eassumption].
Qed.

Section Hazards.

Variable host : Host.

Lemma triggerDeathSequence_hazardFrame environment x y w :
  hazardFrame w (triggerDeathSequence host environment x y w).
Proof.
  destruct (isDying w) eqn:Hd.
  - rewrite (triggerDeathSequence_dying _ _ _ _ _ Hd).
    apply hazardFrame_refl.
  - destruct (triggerDeathSequence_alive host environment x y w Hd)
      as (ps & n & ->).
    unfold hazardFrame. repeat (split; [reflexivity|]).
    eapply emits_one; reflexivity.
Qed.

Lemma hazardStep_spec environment now obs w :
  same_obstacle obs (fst (hazardStep host environment now obs w))
  /\ hazardFrame w (snd (hazardStep host environment now obs w)).
Proof.
  unfold hazardStep. destruct (hit (playerPos w) obs);
    [|split; [apply same_obstacle_refl|apply hazardFrame_refl]].
  destruct (reg_has SHIELD (activePowerUps w)).
  - cbv zeta. cbn [fst snd]. split.
    + destruct (negb _); [|apply same_obstacle_refl].
      unfold same_obstacle, o_type. repeat split.
    + match goal with
      |- context [createCollisionBurst host ?a ?b ?c ?d ?e ?v] =>
        destruct (createCollisionBurst_cosmetic host a b c d e v)
          as (ps & n & ->) end.
      unfold hazardFrame, emit. repeat (split; [reflexivity|]).
      split; [auto|]. eapply emits_one; reflexivity.
  - cbn [fst snd]. split; [apply same_obstacle_refl|].
    apply triggerDeathSequence_hazardFrame.
Qed.

Lemma hazardsStep_frame environment now w :
  hazardFrame w (hazardsStep host environment now w).
Proof.
  unfold hazardsStep. cbv zeta.
  destruct (negb _); [|apply hazardFrame_refl].
  pose proof (forEach_inv (hazardFrame w) (hazardStep host environment now)
    (fun a w1 Hw1 => hazardFrame_trans _ _ _ Hw1
       (proj2 (hazardStep_spec environment now a w1)))
    (obstacles w) w (hazardFrame_refl w)) as H.
  destruct (forEach _ _ _) as [obs' w']. simpl in H.
  eapply hazardFrame_trans; [exact H|].
  unfold hazardFrame. repeat (split; [reflexivity|]).
  split; [auto|apply emits_same; reflexivity].
Qed.

Lemma hazardsStep_obstacles environment now w :
  Forall2 same_obstacle (obstacles w)
    (obstacles (hazardsStep host environment now w)).
Proof.
  unfold hazardsStep. cbv zeta. destruct (negb _).
  - pose proof (forEach_Forall2 same_obstacle
      (hazardStep host environment now)
      (fun a w1 => proj1 (hazardStep_spec environment now a w1))
      (obstacles w) w) as H.
    destruct (forEach _ _ _) as [obs' w']. exact H.
  - clear. induction (obstacles w); constructor;
      [apply same_obstacle_refl|assumption].
Qed.

(** Without a shield the pass leaves the obstacles as they are and
    amounts to one call of the death sequence if some obstacle hits, and to
    nothing otherwise - however many obstacles hit. *)
Lemma hazards_unshielded environment now l : forall w,
  reg_has SHIELD (activePowerUps w) = false ->
  forEach (hazardStep host environment now) l w =
  (l, if existsb (hit (playerPos w)) l
      then triggerDeathSequence host environment
             (v_x (playerPos w)) (v_y (playerPos w)) w
      else w).
Proof.
  induction l as [|obs l IH]; intros w Hs; [reflexivity|].
  cbn [forEach existsb]. unfold hazardStep at 1. rewrite Hs.
  destruct (hit (playerPos w) obs) eqn:Hh.
  - pose proof (triggerDeathSequence_frame host environment
      (v_x (playerPos w)) (v_y (playerPos w)) w) as F. cbv zeta in F.
    destruct F as (Fd & _ & _ & _ & Fr & _ & Fp & _).
    set (w1 := triggerDeathSequence host environment
                 (v_x (playerPos w)) (v_y (playerPos w)) w) in *.
    rewrite IH by (rewrite Fr; exact Hs).
    rewrite Fp. cbn [orb].
    rewrite (triggerDeathSequence_dying host environment _ _ w1 Fd).
    destruct (existsb (hit (playerPos w)) l); reflexivity.
  - rewrite IH by exact Hs. reflexivity.
Qed.

End Hazards.

Arguments triggerDeathSequence : simpl never.

(** ** The stages of a tick *)

Lemma set_obstacles_same w : set_obstacles (obstacles w) w = w.
Proof. destruct w; reflexivity. Qed.

Lemma emits_weaken (P P' : Effect -> bool) w w' :
  (forall e, P e = true -> P' e = true) -> emits P w w' -> emits P' w w'.
Proof.
  intros H (es & E & F). exists es. split; [exact E|].
  clear E. induction es as [|e es IH]; [reflexivity|]. simpl in *.
  apply andb_true_iff in F as [Fe Fes]. rewrite (H e Fe), (IH Fes).
  reflexivity.
Qed.

(** Solves [forall e, P e = true -> q e = false] for two disjoint classes
    of effects. *)
Ltac effect_classes :=
  let H := fresh in
  intros [[]|[]| |] H; cbv in H |- *; congruence.

(** Everything a tick can emit before its hazard pass. *)
Definition preHazardEffect (e : Effect) : bool :=
  quietEffect e || scoreEffect e || obstacleEffect e || pickupEffect e.

Section Stages.

Variable host : Host.
Variable environment : Environment.
Variable gamepads : list (option Gamepad).
Variable now : Z.

Lemma atSpawn_steady w :
  steady
    (obstaclesStep host environment now
       (gameSpeedAt host environment gamepads now w) (timeScale w)
       (afterScore host environment gamepads now w))
    (atSpawn host environment gamepads now w).
Proof. apply cullStep_steady. Qed.

Lemma atPickups_steady w :
  steady (atSpawn host environment gamepads now w)
    (atPickups host environment gamepads now w).
Proof.
  unfold atPickups. eapply steady_trans;
    [apply spawnStep_steady|apply particlesStep_steady].
Qed.

Lemma atHazards_ledger w :
  pickupLedger (collectibleAward (isMultActiveAt host w))
    (atPickups host environment gamepads now w)
    (atHazards host environment gamepads now w).
Proof. apply pickupsStep_ledger. Qed.

Lemma isMultActiveAt_eq w :
  isMultActiveAt host w = reg_has MULTIPLIER (activePowerUps w).
Proof. unfold isMultActiveAt. rewrite shakeStep_registry. reflexivity. Qed.

Lemma gameSpeedAt_eq w :
  gameSpeedAt host environment gamepads now w =
  (6 + scoreRef w / 1200) * timeScale w.
Proof.
  unfold gameSpeedAt.
  destruct (afterPhysics_steady host environment gamepads now w) as [-> _].
  reflexivity.
Qed.

Lemma afterScore_eq w :
  afterScore host environment gamepads now w =
  scoreStep now ((6 + scoreRef w / 1200) * timeScale w)
    (reg_has MULTIPLIER (activePowerUps w))
    (afterPhysics host environment gamepads now w).
Proof.
  unfold afterScore. rewrite gameSpeedAt_eq, isMultActiveAt_eq. reflexivity.
Qed.

(** The dying flag is the same at every stage up to the hazard pass. *)
Lemma stages_isDying w :
  isDying (afterPhysics host environment gamepads now w) = isDying w
  /\ isDying (afterScore host environment gamepads now w) = isDying w
  /\ isDying (atSpawn host environment gamepads now w) = isDying w
  /\ isDying (atPickups host environment gamepads now w) = isDying w
  /\ isDying (atHazards host environment gamepads now w) = isDying w.
Proof.
  pose proof (afterPhysics_steady host environment gamepads now w)
    as (_ & _ & H1 & _).
  assert (H2 : isDying (afterScore host environment gamepads now w)
               = isDying w).
  { unfold afterScore.
    destruct (isDying (afterPhysics host environment gamepads now w)) eqn:E.
    - rewrite scoreStep_dying by exact E. congruence.
    - destruct (scoreStep_alive now
        (gameSpeedAt host environment gamepads now w)
        (isMultActiveAt host w) _ E) as (_ & -> & _). congruence. }
  pose proof (obstaclesStep_ledger host environment now
    (gameSpeedAt host environment gamepads now w) (timeScale w)
    (afterScore host environment gamepads now w)) as (_ & H3 & _).
  pose proof (atSpawn_steady w) as (_ & _ & H4 & _).
  pose proof (atPickups_steady w) as (_ & _ & H5 & _).
  pose proof (atHazards_ledger w) as (_ & H6 & _).
  repeat split; congruence.
Qed.

(** The effects of a tick up to its hazard pass. *)
Lemma atHazards_emits w :
  emits preHazardEffect w (atHazards host environment gamepads now w).
Proof.
  pose proof (afterPhysics_steady host environment gamepads now w)
    as (_ & _ & _ & _ & _ & _ & _ & E1).
  assert (E2 : emits scoreEffect
                 (afterPhysics host environment gamepads now w)
                 (afterScore host environment gamepads now w)).
  { unfold afterScore.
    destruct (isDying (afterPhysics host environment gamepads now w)) eqn:E.
    - rewrite scoreStep_dying by exact E. apply emits_refl.
    - apply (scoreStep_alive now _ _ _ E). }
  pose proof (obstaclesStep_ledger host environment now
    (gameSpeedAt host environment gamepads now w) (timeScale w)
    (afterScore host environment gamepads now w))
    as (_ & _ & _ & _ & _ & _ & _ & _ & _ & E3 & _).
  pose proof (atSpawn_steady w) as (_ & _ & _ & _ & _ & _ & _ & E4).
  pose proof (atPickups_steady w) as (_ & _ & _ & _ & _ & _ & _ & E5).
  pose proof (atHazards_ledger w) as (_ & _ & _ & _ & _ & _ & _ & E6 & _).
  unfold preHazardEffect.
  eapply emits_trans; [eapply emits_weaken; [|exact E1]|].
  { intros e ->. reflexivity. }
  eapply emits_trans; [eapply emits_weaken; [|exact E2]|].
  { intros e ->. rewrite orb_true_r. reflexivity. }
  eapply emits_trans; [eapply emits_weaken; [|exact E3]|].
  { intros e ->. rewrite orb_true_r. reflexivity. }
  eapply emits_trans; [eapply emits_weaken; [|exact E4]|].
  { intros e ->. reflexivity. }
  eapply emits_trans; [eapply emits_weaken; [|exact E5]|].
  { intros e ->. reflexivity. }
  eapply emits_weaken; [|exact E6].
  intros e ->. rewrite orb_true_r. reflexivity.
Qed.

(** A PLAYING tick that starts alive runs the hazard pass. *)
Lemma update_alive w :
  isDying w = false ->
  update host PLAYING environment gamepads now w =
  set_backgroundOffset
    (backgroundOffset
       (hazardsStep host environment now
          (atHazards host environment gamepads now w))
     - gameSpeedAt host environment gamepads now w * 0.5)
    (hazardsStep host environment now
       (atHazards host environment gamepads now w)).
Proof.
  intros Hd. rewrite update_stages. unfold collisionsStep.
  destruct (stages_isDying w) as (_ & _ & _ & -> & _). rewrite Hd.
  cbv iota. unfold atHazards. reflexivity.
Qed.

(** A PLAYING tick that starts dying skips pickups and hazards. *)
Lemma update_dying w :
  isDying w = true ->
  update host PLAYING environment gamepads now w =
  set_backgroundOffset
    (backgroundOffset (atPickups host environment gamepads now w)
     - gameSpeedAt host environment gamepads now w * 0.5)
    (atPickups host environment gamepads now w).
Proof.
  intros Hd. rewrite update_stages. unfold collisionsStep.
  destruct (stages_isDying w) as (_ & _ & _ & -> & _). rewrite Hd.
  cbv iota. reflexivity.
Qed.

End Stages.

(** ** The accounts of a tick *)

Section Accounts.

Variable host : Host.
Variable environment : Environment.
Variable gamepads : list (option Gamepad).
Variable now : Z.

(** Passive accrual of the tick that starts in [w] (line 337). *)
Definition baseAccrual (w : World) : Q :=
  ((6 + scoreRef w / 1200) * timeScale w) / 8.

Definition accrualFactor (isMultActive : bool) : Q :=
  if isMultActive then 2.5 else 1.

(** A PLAYING tick of a living player: [n] near misses and [c] collectible
    pickups are credited, each with its own social event, and the score
    grows by the passive accrual, 500 per near miss and the collectible
    award per pickup. *)
Lemma update_alive_accounts w :
  isDying w = false ->
  let w' := update host PLAYING environment gamepads now w in
  let isMultActive := reg_has MULTIPLIER (activePowerUps w) in
  exists n c : nat,
    count (isSocial NEAR_MISS) (trace w')
      = (count (isSocial NEAR_MISS) (trace w) + n)%nat
    /\ size (nearMissedObstacles w') = (size (nearMissedObstacles w) + n)%nat
    /\ nearMissedObstacles w ⊆ nearMissedObstacles w'
    /\ count (isSocial COLLECT) (trace w')
       = (count (isSocial COLLECT) (trace w) + c)%nat
    /\ scoreRef w' ==
         scoreRef w + baseAccrual w * accrualFactor isMultActive
         + 500 * inject_Z (Z.of_nat n)
         + collectibleAward isMultActive * inject_Z (Z.of_nat c).
Proof.
  intros Hd. cbv zeta. rewrite (update_alive _ _ _ _ _ Hd).
  pose proof (afterPhysics_steady host environment gamepads now w)
    as (P1 & _ & P3 & P4 & _ & _ & _ & P8).
  assert (Hd1 : isDying (afterPhysics host environment gamepads now w)
                = false) by congruence.
  destruct (scoreStep_alive now ((6 + scoreRef w / 1200) * timeScale w)
    (reg_has MULTIPLIER (activePowerUps w))
    (afterPhysics host environment gamepads now w) Hd1)
    as (S1 & _ & S3 & _ & S5 & _).
  rewrite <- afterScore_eq in S1, S3, S5.
  pose proof (obstaclesStep_ledger host environment now
    (gameSpeedAt host environment gamepads now w) (timeScale w)
    (afterScore host environment gamepads now w))
    as (_ & _ & _ & _ & _ & _ & _ & _ & _ & O1 & O2 & _ & n & O3 & O4 & O5 & _).
  pose proof (atSpawn_steady host environment gamepads now w)
    as (A1 & _ & _ & A4 & _ & _ & _ & A8).
  pose proof (atPickups_steady host environment gamepads now w)
    as (B1 & _ & _ & B4 & _ & _ & _ & B8).
  pose proof (atHazards_ledger host environment gamepads now w)
    as (_ & _ & _ & _ & C5 & _ & _ & C8 & c & C9 & C10).
  rewrite isMultActiveAt_eq in C10.
  pose proof (hazardsStep_frame host environment now
    (atHazards host environment gamepads now w))
    as (H1 & _ & H3 & _ & _ & _ & _ & H8).
  exists n, c.
  cbn [trace nearMissedObstacles scoreRef set_backgroundOffset].
  split.
  { rewrite (emits_count hazardEffect (isSocial NEAR_MISS) _ _
               ltac:(effect_classes) H8).
    rewrite (emits_count pickupEffect (isSocial NEAR_MISS) _ _
               ltac:(effect_classes) C8).
    rewrite (emits_count quietEffect _ _ _ (loud_isSocial _) B8).
    rewrite (emits_count quietEffect _ _ _ (loud_isSocial _) A8).
    rewrite O3.
    rewrite (emits_count scoreEffect (isSocial NEAR_MISS) _ _
               ltac:(effect_classes) S5).
    rewrite (emits_count quietEffect _ _ _ (loud_isSocial _) P8).
    reflexivity. }
  split; [rewrite H3, C5, B4, A4, O4, S3, P4; reflexivity|].
  split; [rewrite H3, C5, B4, A4, <- P4, <- S3; exact O2|].
  split.
  { rewrite (emits_count hazardEffect (isSocial COLLECT) _ _
               ltac:(effect_classes) H8).
    rewrite C9.
    rewrite (emits_count quietEffect _ _ _ (loud_isSocial _) B8).
    rewrite (emits_count quietEffect _ _ _ (loud_isSocial _) A8).
    rewrite (emits_count obstacleEffect (isSocial COLLECT) _ _
               ltac:(effect_classes) O1).
    rewrite (emits_count scoreEffect (isSocial COLLECT) _ _
               ltac:(effect_classes) S5).
    rewrite (emits_count quietEffect _ _ _ (loud_isSocial _) P8).
    reflexivity. }
  rewrite H1, C10, B1, A1, O5, S1, P1.
  unfold baseAccrual, accrualFactor. ring.
Qed.

(** A PLAYING tick of a dying player changes nothing that the rules look
    at. *)
Lemma update_dying_frame w :
  isDying w = true ->
  steady w (update host PLAYING environment gamepads now w).
Proof.
  intros Hd. rewrite (update_dying _ _ _ _ _ Hd).
  pose proof (afterPhysics_steady host environment gamepads now w)
    as P.
  assert (Hd1 : isDying (afterPhysics host environment gamepads now w)
                = true) by (destruct P as (_ & _ & -> & _); exact Hd).
  assert (S : steady (afterPhysics host environment gamepads now w)
                (afterScore host environment gamepads now w)).
  { unfold afterScore. rewrite scoreStep_dying by exact Hd1.
    apply steady_refl. }
  assert (Hd2 : isDying (afterScore host environment gamepads now w) = true).
  { destruct S as (_ & _ & -> & _). exact Hd1. }
  pose proof (obstaclesStep_ledger host environment now
    (gameSpeedAt host environment gamepads now w) (timeScale w)
    (afterScore host environment gamepads now w))
    as (O1 & O2 & O3 & O4 & _ & _ & _ & _ & O9 & O10 & _ & O12 & n & O13 & O14
        & _).
  destruct (O12 Hd2) as [O15 O16].
  assert (Hn : n = 0%nat) by (rewrite O16 in O14; lia).
  subst n. rewrite Nat.add_0_r in O13.
  assert (O : steady (afterScore host environment gamepads now w)
                (obstaclesStep host environment now
                   (gameSpeedAt host environment gamepads now w)
                   (timeScale w)
                   (afterScore host environment gamepads now w))).
  { unfold steady. repeat (split; [assumption|]).
    destruct O10 as (es & E & F). exists es. split; [exact E|].
    assert (Hc : count (isSocial NEAR_MISS) es = 0%nat).
    { rewrite E, count_app in O13. lia. }
    clear -F Hc. induction es as [|e es IH]; [reflexivity|].
    simpl in F. apply andb_true_iff in F as [Fe Fes].
    unfold count in Hc. simpl in Hc.
    destruct e as [[]|[]| |]; cbv in Fe; try discriminate Fe;
      simpl in Hc; try discriminate Hc; simpl; apply IH; assumption. }
  eapply steady_trans; [exact P|]. eapply steady_trans; [exact S|].
  eapply steady_trans; [exact O|].
  eapply steady_trans;
    [apply (atSpawn_steady host environment gamepads now w)|].
  eapply steady_trans;
    [apply (atPickups_steady host environment gamepads now w)|].
  apply steady_set_backgroundOffset.
Qed.

End Accounts.

(** * The claims *)

(** ** Laser hazard test *)

(** C10. The laser hazard test does not look at the player's vertical
    position: for a laser obstacle a hit is registered exactly when the
    laser is active and the player's horizontal extent
    [(x, x + PLAYER_SIZE)] overlaps the band
    [(obs.x + 5, obs.x + width - 5)]; two player positions that differ only
    in [y] give the same outcome. *)
Theorem C10_laser_hit_ignores_player_y (p : Vector2D) (obs : Obstacle) :
  o_type obs = laser ->
  (hit p obs = true <->
     (exists timer, o_kind obs = Laser timer true)
     /\ o_x obs + 5 < v_x p + PLAYER_SIZE
     /\ v_x p < o_x obs + o_width obs - 5)
  /\ forall y' : Q, hit (mkVec (v_x p) y') obs = hit p obs.
Proof.
  unfold o_type, hit. intros Ht.
  destruct (o_kind obs) as [| | |ph|t a|r|st t pl|sp] eqn:E;
    try discriminate.
  unfold o_type. rewrite E. cbn [ObstacleType_eqb negb andb orb v_x].
  split; [|reflexivity].
  rewrite !andb_true_iff, !Qltb_lt. split.
  - intros [[-> H1] H2]. split; [exists t; reflexivity|]. split; assumption.
  - intros [[t' Ht'] [H1 H2]]. inversion Ht'; subst. auto.
Qed.

Definition laserOverPlayer : Obstacle :=
  {| o_id := "k3x9q0"; o_x := 110; o_y := 0; o_baseY := 0; o_width := 20;
     o_height := GROUND_Y; o_kind := Laser 0 true; o_speedMultiplier := 1 |}.

Lemma C10_laser_hit_ignores_player_y_witness :
  hit (mkVec 100 290) laserOverPlayer = true
  /\ hit (mkVec 100 35) laserOverPlayer = hit (mkVec 100 290) laserOverPlayer.
Proof.
  pose proof (C10_laser_hit_ignores_player_y (mkVec 100 290) laserOverPlayer
                eq_refl) as [H1 H2].
  split.
  - apply H1. split; [exists 0; reflexivity|]. split; reflexivity.
  - exact (H2 35).
Defined.

(** ** The death sequence *)

Section DeathOnce.

Variable host : Host.
Variable environment : Environment.
Variable gamepads : list (option Gamepad).
Variable now : Z.

(** C3. In a PLAYING tick of a living player whose hazard pass starts with
    no SHIELD in the registry and outside the invincibility window, and in
    which at least one obstacle hits: the tick ends exactly as if the death
    sequence had been triggered once (however many obstacles hit), the
    game-over cue is played exactly once, the dying flag is set and the
    time scale is 0.15; and any further trigger on the resulting state
    changes nothing. *)
Theorem C3_death_sequence_triggers_once (w : World) :
  let m := atHazards host environment gamepads now w in
  let w' := update host PLAYING environment gamepads now w in
  isDying w = false ->
  reg_has SHIELD (activePowerUps m) = false ->
  (invincibleUntil m <= now)%Z ->
  existsb (hit (playerPos m)) (obstacles m) = true ->
  (exists bg,
     w' = set_backgroundOffset bg
            (triggerDeathSequence host environment
               (v_x (playerPos m)) (v_y (playerPos m)) m))
  /\ isDying w' = true
  /\ timeScale w' = 0.15
  /\ count isGameOverCue (trace w') = S (count isGameOverCue (trace w))
  /\ forall environment' x y,
       triggerDeathSequence host environment' x y w' = w'.
Proof.
  intros m w' Hd Hs Hi Hh.
  assert (Hdm : isDying m = false).
  { destruct (stages_isDying host environment gamepads now w)
      as (_ & _ & _ & _ & H). unfold m. congruence. }
  assert (Hz : hazardsStep host environment now m =
               triggerDeathSequence host environment
                 (v_x (playerPos m)) (v_y (playerPos m)) m).
  { unfold hazardsStep. cbv zeta.
    destruct (Z.ltb_spec now (invincibleUntil m)) as [Hlt|_]; [lia|].
    cbn [negb]. rewrite hazards_unshielded by exact Hs. rewrite Hh.
    destruct (triggerDeathSequence_frame host environment
      (v_x (playerPos m)) (v_y (playerPos m)) m)
      as (_ & _ & _ & _ & _ & _ & _ & Ho & _).
    rewrite <- Ho. apply set_obstacles_same. }
  assert (Hw' : w' = set_backgroundOffset
                  (backgroundOffset (hazardsStep host environment now m)
                   - gameSpeedAt host environment gamepads now w * 0.5)
                  (hazardsStep host environment now m)).
  { unfold w', m. apply update_alive, Hd. }
  rewrite Hz in Hw'.
  destruct (triggerDeathSequence_alive host environment
    (v_x (playerPos m)) (v_y (playerPos m)) m Hdm) as (ps & n & Hshape).
  split; [eexists; exact Hw'|].
  rewrite Hw', Hshape.
  split; [reflexivity|]. split; [reflexivity|]. split.
  - cbn [trace set_trace set_backgroundOffset set_deathTimeoutRef set_timers
         set_lastTimerId set_shakeTime set_particles set_randomCalls].
    rewrite count_app.
    rewrite (emits_count preHazardEffect isGameOverCue w m).
    + unfold count at 2. simpl. lia.
    + effect_classes.
    + apply atHazards_emits.
  - intros environment' x y.
    apply triggerDeathSequence_dying. reflexivity.
Qed.

End DeathOnce.

(** ** Level-up *)

Section LevelUp.

Variable host : Host.
Variable environment : Environment.
Variable gamepads : list (option Gamepad).
Variable now : Z.

Lemma levelAfterAccrual_score gameSpeed isMultActive (w1 w2 : World) :
  scoreRef w1 = scoreRef w2 ->
  levelAfterAccrual gameSpeed isMultActive w1
  = levelAfterAccrual gameSpeed isMultActive w2.
Proof. unfold levelAfterAccrual. intros ->. reflexivity. Qed.



End LevelUp.

(** ** Concrete runs *)

(** A host whose draws are all one half. *)
Definition demoHost : Host := tableHost [] 0.5.


(** A spike and a missile reach the player in the same frame. *)
Definition doubleHit : World :=
  set_nearMissedObstacles {[ "sp1ke0001"%string; "m1ssile01"%string ]}
    (set_obstacles
       [ {| o_id := "sp1ke0001"; o_x := 110; o_y := 290; o_baseY := 290;
            o_width := 30; o_height := 30; o_kind := Spike;
            o_speedMultiplier := 2.4 |};
         {| o_id := "m1ssile01"; o_x := 120; o_y := 290; o_baseY := 290;
            o_width := 40; o_height := 20; o_kind := Missile 10;
            o_speedMultiplier := 2.5 |} ]
       (set_lastLevelRef 2%Z (set_scoreRef 1500 mount))).

(** The same frame with a SHIELD that runs for five more seconds. *)
Definition shieldedDoubleHit : World :=
  set_activePowerUps [(SHIELD, 105000%Z)] doubleHit.


Lemma C3_death_sequence_triggers_once_witness :
  isDying (update demoHost PLAYING neonGutter [] 100000 doubleHit) = true
  /\ count isGameOverCue
       (trace (update demoHost PLAYING neonGutter [] 100000 doubleHit))
     = S (count isGameOverCue (trace doubleHit)).
Proof.
  destruct (C3_death_sequence_triggers_once demoHost neonGutter []
              100000%Z doubleHit) as (_ & H1 & _ & H2 & _).
  - reflexivity.
  - vm_compute. reflexivity.
  - apply Z.leb_le. vm_compute. reflexivity.
  - vm_compute. reflexivity.
  - split; [exact H1|exact H2].
Defined.



(** ** Shield absorption *)

Section Shield.

Variable host : Host.
Variable environment : Environment.

(** One obstacle that hits a shielded player: the shield is consumed, the
    invincibility expiry becomes [now + 1000], every obstacle but a laser
    is moved to [x = -1000], and the dying flag is left as it was. *)
Lemma hazardStep_shielded now obs w :
  hit (playerPos w) obs = true ->
  reg_has SHIELD (activePowerUps w) = true ->
  let r := hazardStep host environment now obs w in
  activePowerUps (snd r) = reg_delete SHIELD (activePowerUps w)
  /\ invincibleUntil (snd r) = (now + 1000)%Z
  /\ isDying (snd r) = isDying w
  /\ fst r = (if ObstacleType_eqb (o_type obs) laser
              then obs else o_set_x (-1000) obs).
Proof.
  intros Hh Hs. unfold hazardStep. rewrite Hh, Hs. cbv zeta. cbn [fst snd].
  match goal with |- context [createCollisionBurst host ?a ?b ?c ?d ?e ?v] =>
    destruct (createCollisionBurst_cosmetic host a b c d e v)
      as (ps & n & ->) end.
  repeat split. destruct (ObstacleType_eqb (o_type obs) laser); reflexivity.
Qed.

Lemma reg_delete_has k m : reg_has k (reg_delete k m) = false.
Proof.
  unfold reg_has, reg_delete. induction m as [|[k' v] m IH]; [reflexivity|].
  simpl. destruct (PowerUpType_eqb k' k) eqn:E; simpl; [exact IH|].
  rewrite E. exact IH.
Qed.

End Shield.

(** C2 fails when two obstacles hit in one frame.  The hazard pass of
    [shieldedDoubleHit] starts outside the invincibility window with SHIELD
    in the registry, and the spike and the missile both hit: the spike
    consumes the shield and is pushed off-stage and the expiry becomes
    [now + 1000], but the missile, tested in the same pass against the
    invincibility flag read before the loop, triggers the death
    sequence. *)
Theorem C2_second_hit_kills_shielded_player :
  (invincibleUntil
     (atHazards demoHost neonGutter [] 100000 shieldedDoubleHit)
   <=? 100000)%Z = true
  /\ reg_has SHIELD
       (activePowerUps
          (atHazards demoHost neonGutter [] 100000 shieldedDoubleHit))
     = true
  /\ map (hit (playerPos
                 (atHazards demoHost neonGutter [] 100000 shieldedDoubleHit)))
       (obstacles
          (atHazards demoHost neonGutter [] 100000 shieldedDoubleHit))
     = [true; true; false]
  /\ reg_has SHIELD
       (activePowerUps
          (update demoHost PLAYING neonGutter [] 100000 shieldedDoubleHit))
     = false
  /\ invincibleUntil
       (update demoHost PLAYING neonGutter [] 100000 shieldedDoubleHit)
     = 101000%Z
  /\ isDying (update demoHost PLAYING neonGutter [] 100000 shieldedDoubleHit)
     = true
  /\ count isGameOverCue
       (trace
          (update demoHost PLAYING neonGutter [] 100000 shieldedDoubleHit))
     = 1%nat.
Proof. vm_compute. repeat split; reflexivity. Qed.

(** * Further properties of the simulation *)

(** ** The player stays in the play field *)

Lemma physicsStep_bounds dt w :
  0 <= v_x (playerPos (physicsStep dt w))
  /\ v_x (playerPos (physicsStep dt w)) <= CANVAS_WIDTH - PLAYER_SIZE
  /\ v_y (playerPos (physicsStep dt w)) <= GROUND_Y - PLAYER_SIZE.
Proof.
  unfold physicsStep. cbv zeta.
  cbn [playerPos playerVel set_playerPos set_playerVel v_x v_y].
  match goal with |- context [if Qltb ?a ?b then _ else _] =>
    destruct (Qltb a b) eqn:E end;
    cbn [playerPos playerVel set_playerPos set_playerVel set_isJumping
         v_x v_y].
  - split; [apply Q.le_max_l|]. split; [|apply Qle_refl].
    apply Q.max_lub; [unfold CANVAS_WIDTH, PLAYER_SIZE; lra|apply Q.le_min_r].
  - split; [apply Q.le_max_l|]. split.
    + apply Q.max_lub;
        [unfold CANVAS_WIDTH, PLAYER_SIZE; lra|apply Q.le_min_r].
    + apply Qltb_ge in E. exact E.
Qed.

Lemma scoreStep_playerPos now gameSpeed isMultActive w :
  playerPos (scoreStep now gameSpeed isMultActive w) = playerPos w.
Proof.
  unfold scoreStep. destruct (isDying w); [reflexivity|]. cbv zeta.
  match goal with |- context [if ?b then _ else _] => destruct b end;
    reflexivity.
Qed.

Lemma cullStep_playerPos gameSpeed w :
  playerPos (cullStep gameSpeed w) = playerPos w.
Proof. reflexivity. Qed.

Lemma particlesStep_playerPos dt w :
  playerPos (particlesStep dt w) = playerPos w.
Proof. reflexivity. Qed.

Lemma playerPos_set_backgroundOffset b w :
  playerPos (set_backgroundOffset b w) = playerPos w.
Proof. reflexivity. Qed.

Section PlayField.

Variable host : Host.
Variable environment : Environment.
Variable gamepads : list (option Gamepad).
Variable now : Z.

Lemma spawnStep_playerPos w : playerPos (spawnStep host w) = playerPos w.
Proof.
  unfold spawnStep. destruct (spawnDue w); [|reflexivity].
  apply spawnObstacle_spec.
Qed.

Lemma collisionsStep_playerPos isMultActive w :
  playerPos (collisionsStep host environment now isMultActive w)
  = playerPos w.
Proof.
  unfold collisionsStep. destruct (isDying w); [reflexivity|].
  pose proof (pickupsStep_ledger host now isMultActive w)
    as (_ & _ & _ & _ & _ & _ & P & _).
  pose proof (hazardsStep_frame host environment now
                (pickupsStep host now isMultActive w))
    as (_ & _ & _ & _ & _ & H & _).
  congruence.
Qed.

Lemma atPickups_playerPos w :
  playerPos (atPickups host environment gamepads now w)
  = playerPos (afterPhysics host environment gamepads now w).
Proof.
  unfold atPickups. rewrite particlesStep_playerPos, spawnStep_playerPos.
  unfold atSpawn. cbv zeta. rewrite cullStep_playerPos.
  pose proof (obstaclesStep_ledger host environment now
    (gameSpeedAt host environment gamepads now w) (timeScale w)
    (afterScore host environment gamepads now w))
    as (_ & _ & _ & _ & _ & _ & _ & P & _).
  rewrite P. rewrite afterScore_eq. apply scoreStep_playerPos.
Qed.

(** After every PLAYING tick - whatever the keys, the gamepads, the time
    scale and the state before - the player box lies within the canvas
    horizontally and on or above the ground line. *)
Theorem player_stays_in_field (w : World) :
  0 <= v_x (playerPos (update host PLAYING environment gamepads now w))
  /\ v_x (playerPos (update host PLAYING environment gamepads now w))
     + PLAYER_SIZE <= CANVAS_WIDTH
  /\ v_y (playerPos (update host PLAYING environment gamepads now w))
     + PLAYER_SIZE <= GROUND_Y.
Proof.
  rewrite update_stages, playerPos_set_backgroundOffset,
    collisionsStep_playerPos, atPickups_playerPos.
  unfold afterPhysics. cbv zeta.
  match goal with |- context [physicsStep ?d ?v] =>
    destruct (physicsStep_bounds d v) as (H1 & H2 & H3) end.
  split; [exact H1|]. split; lra.
Qed.

End PlayField.

(** ** The dash trail *)




(** ** Jumping *)

Definition isJumpCue (e : Effect) : bool :=
  match e with
  | Audio playJumpSound => true
  | _ => false
  end.

(** Between [w] and [w'] the player either did not jump, or took off once
    from the ground. *)
Definition jumpedAtMostOnce (w w' : World) : Prop :=
  (trace w' = trace w /\ isJumping w' = isJumping w
   /\ playerVel w' = playerVel w /\ particles w' = particles w)
  \/ (isJumping w = false /\ isJumping w' = true
      /\ trace w' = trace w ++ [Audio playJumpSound]
      /\ playerVel w' = mkVec (v_x (playerVel w)) JUMP_FORCE
      /\ length (particles w') = (length (particles w) + 20)%nat).

Lemma jumpedAtMostOnce_trans w1 w2 w3 :
  jumpedAtMostOnce w1 w2 -> jumpedAtMostOnce w2 w3 -> jumpedAtMostOnce w1 w3.
Proof.
  intros [(A1 & A2 & A3 & A4)|(A1 & A2 & A3 & A4 & A5)]
         [(B1 & B2 & B3 & B4)|(B1 & B2 & B3 & B4 & B5)].
  - left. repeat split; congruence.
  - right. repeat split; congruence.
  - right. repeat split; congruence.
  - congruence.
Qed.

Section Jumping.

Variable host : Host.
Variable environment : Environment.

Lemma createJumpParticles_length w :
  length (particles (createJumpParticles host environment w))
  = (length (particles w) + 20)%nat.
Proof.
  unfold createJumpParticles. generalize 20%nat as n. intros n.
  induction n as [|n IH]; [cbn; lia|].
  rewrite Nat.iter_succ.
  match goal with |- context [Nat.iter n ?f w] =>
    set (v := Nat.iter n f w) in * end.
  clearbody v. unfold mathRandom, pushParticle. cbn.
  rewrite length_app. cbn. lia.
Qed.

Lemma jump_once w :
  isJumping w = false -> jumpedAtMostOnce w (jump host environment w).
Proof.
  intros Hj. right. unfold jump. cbv zeta.
  destruct (createJumpParticles_cosmetic host environment
    (emit (Audio playJumpSound)
       (set_isJumping true
          (set_playerVel (mkVec (v_x (playerVel w)) JUMP_FORCE) w))))
    as (ps & n & E).
  split; [exact Hj|].
  split; [rewrite E; reflexivity|].
  split; [rewrite E; reflexivity|].
  split; [rewrite E; reflexivity|].
  rewrite createJumpParticles_length. reflexivity.
Qed.

Lemma gamepads_jump_once gamepads : forall dir w,
  jumpedAtMostOnce w
    (snd (fold_left (gamepadStep host environment) gamepads (dir, w))).
Proof.
  induction gamepads as [|slot gps IH]; intros dir w; cbn [fold_left].
  - left. repeat split.
  - destruct slot as [gp|]; [|apply IH]. cbn [gamepadStep].
    eapply jumpedAtMostOnce_trans; [|apply IH].
    destruct (isJumping w) eqn:Hj; cbn [negb andb].
    + left. repeat split.
    + destruct (button0 gp || button1 gp || button2 gp).
      * apply jump_once, Hj.
      * left. repeat split.
Qed.

(** However many gamepads hold a jump button, one tick of steering makes
    the player take off at most once - one jump cue, one burst of twenty
    particles, vertical velocity [JUMP_FORCE] - and never while the player
    is already airborne or dying. *)
Theorem steering_jumps_at_most_once gamepads currentSpeed dt (w : World) :
  let w' := steerStep host environment gamepads currentSpeed dt w in
  jumpedAtMostOnce w w'
  /\ (isJumping w = true \/ isDying w = true ->
        count isJumpCue (trace w') = count isJumpCue (trace w)
        /\ playerVel w' = playerVel w)
  /\ (count isJumpCue (trace w') <= S (count isJumpCue (trace w)))%nat.
Proof.
  cbv zeta.
  assert (J : jumpedAtMostOnce w
                (steerStep host environment gamepads currentSpeed dt w)).
  { unfold steerStep. destruct (isDying w); [left; repeat split|].
    cbv zeta.
    match goal with |- context [fold_left ?f ?l (?d, w)] =>
      pose proof (gamepads_jump_once l d w) as H;
      destruct (fold_left f l (d, w)) as [dir w1] end.
    cbn [snd] in H.
    destruct H as [(A1 & A2 & A3 & A4)|(A1 & A2 & A3 & A4 & A5)].
    - left. repeat split; assumption.
    - right. repeat split; assumption. }
  split; [exact J|]. split.
  - intros Hor.
    destruct J as [(A1 & A2 & A3 & A4)|(A1 & A2 & A3 & A4 & A5)].
    + rewrite A1, A3. split; reflexivity.
    + destruct Hor as [Hj|Hd]; [congruence|].
      exfalso. unfold steerStep in A2. rewrite Hd in A2. congruence.
  - destruct J as [(A1 & A2 & A3 & A4)|(A1 & A2 & A3 & A4 & A5)].
    + rewrite A1. lia.
    + rewrite A3, count_app. unfold count at 2. cbn. lia.
Qed.

(** A key press is recorded whatever the game state; it makes the player
    jump exactly when the game is PLAYING, the player is alive and on the
    ground and the key is Space, ArrowUp or KeyW; releasing the key clears
    the record and touches nothing else. *)
Theorem keyboard_records_keys_and_jumps_from_ground gameState code
    (w : World) :
  let w' := handleKeyDown host gameState environment code w in
  keyDown code w' = true
  /\ jumpedAtMostOnce w w'
  /\ (isJumping w' = true /\ isJumping w = false <->
        gameState = PLAYING /\ isDying w = false /\ isJumping w = false
        /\ (code = "Space" \/ code = "ArrowUp" \/ code = "KeyW")%string)
  /\ keyDown code (handleKeyUp code w') = false
  /\ steady w' (handleKeyUp code w').
Proof.
  cbv zeta. unfold handleKeyDown. cbv zeta.
  set (w0 := set_keysPressed (<[code:=true]> (keysPressed w)) w).
  assert (K0 : keyDown code w0 = true).
  { unfold keyDown, w0. cbn [keysPressed set_keysPressed].
    rewrite lookup_insert_eq. reflexivity. }
  assert (Hup : forall v, keyDown code (handleKeyUp code v) = false).
  { intros v. unfold keyDown, handleKeyUp. cbn [keysPressed set_keysPressed].
    rewrite lookup_insert_eq. reflexivity. }
  assert (Hst : forall v, steady v (handleKeyUp code v)).
  { intros v. unfold handleKeyUp, steady. repeat split.
    apply emits_same. reflexivity. }
  assert (Hkeys : (String.eqb code "Space" || String.eqb code "ArrowUp"
                   || String.eqb code "KeyW") = true
                  <-> (code = "Space" \/ code = "ArrowUp" \/ code = "KeyW")%string).
  { rewrite !orb_true_iff, !String.eqb_eq. tauto. }
  change (isDying w0) with (isDying w).
  change (isJumping w0) with (isJumping w).
  destruct gameState; cbn [GameState_eqb negb orb].
  1,3: (split; [exact K0|]; split; [left; repeat split|];
        split; [|split; [apply Hup|apply Hst]];
        change (isJumping w0) with (isJumping w);
        split; [intros [A B]; congruence|intros [A _]; discriminate A]).
  destruct (isDying w) eqn:Hd.
  { split; [exact K0|]. split; [left; repeat split|].
    split; [|split; [apply Hup|apply Hst]].
    change (isJumping w0) with (isJumping w).
    split; [intros [A B]; congruence|intros (_ & A & _); discriminate A]. }
  destruct (String.eqb code "Space" || String.eqb code "ArrowUp"
            || String.eqb code "KeyW") eqn:Hk; cbn [andb].
  2:{ split; [exact K0|]. split; [left; repeat split|].
      split; [|split; [apply Hup|apply Hst]].
      change (isJumping w0) with (isJumping w).
      split; [intros [A B]; congruence|].
      intros (_ & _ & _ & A). apply Hkeys in A. discriminate A. }
  destruct (isJumping w) eqn:Hj; cbn [negb].
  { split; [exact K0|]. split; [left; repeat split|].
    split; [|split; [apply Hup|apply Hst]].
    change (isJumping w0) with (isJumping w).
    split; [intros [A B]; congruence|intros (_ & _ & A & _); discriminate A]. }
  assert (Hj0 : isJumping w0 = false) by exact Hj.
  pose proof (jump_once w0 Hj0) as J.
  destruct J as [(A1 & A2 & A3 & A4)|(A1 & A2 & A3 & A4 & A5)].
  { exfalso. unfold jump in A1. cbv zeta in A1.
    destruct (createJumpParticles_cosmetic host environment
      (emit (Audio playJumpSound)
         (set_isJumping true
            (set_playerVel (mkVec (v_x (playerVel w0)) JUMP_FORCE) w0))))
      as (ps & n & E).
    rewrite E in A1. cbn in A1.
    apply (f_equal (@length Effect)) in A1. rewrite length_app in A1.
    cbn in A1. lia. }
  split.
  { unfold keyDown. unfold jump. cbv zeta.
    destruct (createJumpParticles_cosmetic host environment
      (emit (Audio playJumpSound)
         (set_isJumping true
            (set_playerVel (mkVec (v_x (playerVel w0)) JUMP_FORCE) w0))))
      as (ps & n & ->).
    exact K0. }
  split; [right; repeat split; assumption|].
  split; [|split; [apply Hup|apply Hst]].
  split; [intros _|intros _; split; [exact A2|reflexivity]].
  split; [reflexivity|]. split; [reflexivity|]. split; [reflexivity|].
  apply Hkeys. reflexivity.
Qed.

End Jumping.

(** ** The power-up registry *)

(** The registry holds at most one entry per power-up type. *)
Definition reg_wf (m : Registry) : Prop := List.NoDup (map fst m).

Lemma reg_delete_absent k (m : Registry) :
  ~ In k (map fst m) -> reg_delete k m = m.
Proof.
  unfold reg_delete. induction m as [|[k' v] m IH]; intros H; [reflexivity|].
  cbn [List.filter fst]. cbn [map fst In] in H.
  destruct (PowerUpType_eqb k' k) eqn:E.
  - apply PowerUpType_eqb_eq in E. tauto.
  - cbn [negb]. f_equal. apply IH. tauto.
Qed.

Lemma reg_delete_app k (m1 m2 : Registry) :
  reg_delete k (m1 ++ m2) = reg_delete k m1 ++ reg_delete k m2.
Proof. unfold reg_delete. apply List.filter_app. Qed.

Lemma PowerUpType_eqb_refl k : PowerUpType_eqb k k = true.
Proof. destruct k; reflexivity. Qed.

(** An entry is live at [now] when its expiry has not passed. *)
Definition live (now : Z) (entry : PowerUpType * Z) : bool :=
  negb (snd entry <? now)%Z.

Definition hudEntry (now : Z) (entry : PowerUpType * Z)
    : ActivePowerUpState :=
  {| hud_type := fst entry;
     hud_timeLeft := (snd entry - now)%Z;
     hud_percent :=
       (inject_Z (snd entry - now) / inject_Z POWERUP_DURATION) * 100 |}.

Lemma expire_fold now (l : Registry) : forall (pre : Registry) hud,
  reg_wf (pre ++ l) ->
  fold_left (expireStep now) l (List.filter (live now) pre ++ l, hud)
  = (List.filter (live now) (pre ++ l),
     hud ++ map (hudEntry now) (List.filter (live now) l)).
Proof.
  induction l as [|[k e] l IH]; intros pre hud Hwf.
  - cbn [fold_left List.filter map]. rewrite !app_nil_r. reflexivity.
  - cbn [fold_left].
    assert (Hwf' : reg_wf ((pre ++ [(k, e)]) ++ l))
      by (rewrite <- app_assoc; exact Hwf).
    assert (Hstep :
      expireStep now (List.filter (live now) pre ++ (k, e) :: l, hud) (k, e)
      = (List.filter (live now) (pre ++ [(k, e)]) ++ l,
         hud ++ map (hudEntry now) (List.filter (live now) [(k, e)]))).
    { unfold reg_wf in Hwf. rewrite map_app in Hwf. cbn [map fst] in Hwf.
      apply List.NoDup_remove_2 in Hwf.
      assert (Hpre : ~ In k (map fst (List.filter (live now) pre))).
      { intros Hin. apply Hwf, in_or_app. left.
        apply in_map_iff in Hin as ((k0 & e0) & Hk & Hin).
        apply filter_In in Hin as [Hin _].
        apply in_map_iff. exists (k0, e0). split; assumption. }
      assert (Hl : ~ In k (map fst l))
        by (intros Hin; apply Hwf, in_or_app; right; exact Hin).
      unfold expireStep. rewrite List.filter_app. cbn [List.filter].
      assert (Hlive : live now (k, e) = negb (e <? now)%Z) by reflexivity.
      rewrite !Hlive.
      destruct (e <? now)%Z; cbn [negb map].
      - rewrite !app_nil_r. f_equal.
        change ((k, e) :: l) with ([(k, e)] ++ l).
        rewrite !reg_delete_app.
        rewrite (reg_delete_absent k _ Hpre), (reg_delete_absent k _ Hl).
        unfold reg_delete. cbn [List.filter fst].
        rewrite PowerUpType_eqb_refl. reflexivity.
      - rewrite <- app_assoc. reflexivity. }
    rewrite Hstep, (IH _ _ Hwf').
    rewrite <- !app_assoc. cbn [app]. f_equal. f_equal.
    cbn [List.filter]. destruct (live now (k, e)); reflexivity.
Qed.

(** The expiry pass of a tick keeps exactly the entries whose expiry has
    not passed - an entry that expires at this very millisecond stays for
    one more tick - in their order, and shows each of them in the HUD with
    a time left that is never negative. *)
Theorem expiry_keeps_live_entries (now : Z) (w : World) :
  reg_wf (activePowerUps w) ->
  activePowerUps (expirePowerUps now w)
    = List.filter (live now) (activePowerUps w)
  /\ activeHudPowerUps (expirePowerUps now w)
     = map (hudEntry now) (activePowerUps (expirePowerUps now w))
  /\ reg_wf (activePowerUps (expirePowerUps now w))
  /\ Forall (fun h => (0 <= hud_timeLeft h)%Z)
       (activeHudPowerUps (expirePowerUps now w))
  /\ (forall k e, In (k, e) (activePowerUps (expirePowerUps now w)) <->
        In (k, e) (activePowerUps w) /\ (now <= e)%Z).
Proof.
  intros Hwf. unfold expirePowerUps.
  pose proof (expire_fold now (activePowerUps w) [] [] Hwf) as H.
  cbn [List.filter app] in H.
  destruct (fold_left (expireStep now) (activePowerUps w)
              (activePowerUps w, [])) as [reg hud] eqn:F.
  assert (F' : (reg, hud)
               = (List.filter (live now) (activePowerUps w),
                  map (hudEntry now)
                    (List.filter (live now) (activePowerUps w))))
    by (rewrite <- F; exact H).
  inversion F'; subst reg hud; clear F F'.
  cbn [activePowerUps activeHudPowerUps set_activePowerUps
       set_activeHudPowerUps app].
  split; [reflexivity|]. split; [reflexivity|]. split; [|split].
  - unfold reg_wf in *. clear H.
    induction (activePowerUps w) as [|[k e] m IH]; [constructor|].
    cbn [map fst] in Hwf. apply List.NoDup_cons_iff in Hwf as [Hk Hm].
    cbn [List.filter]. destruct (live now (k, e)); [|apply IH, Hm].
    cbn [map fst]. constructor; [|apply IH, Hm].
    intros Hin. apply Hk.
    apply in_map_iff in Hin as ((k0 & e0) & Hk0 & Hin).
    apply filter_In in Hin as [Hin _].
    apply in_map_iff. exists (k0, e0). split; assumption.
  - apply List.Forall_forall. intros h Hin.
    apply in_map_iff in Hin as ((k & e) & <- & Hin).
    apply filter_In in Hin as [_ Hl]. unfold live in Hl. cbn in Hl |- *.
    apply negb_true_iff, Z.ltb_ge in Hl. lia.
  - intros k e. rewrite filter_In. unfold live. cbn [snd].
    rewrite negb_true_iff, Z.ltb_ge. reflexivity.
Qed.

Lemma expiry_keeps_live_entries_witness :
  activePowerUps
    (expirePowerUps 5000
       (set_activePowerUps [(SHIELD, 4999%Z); (BOOST, 5000%Z)] mount))
  = [(BOOST, 5000%Z)].
Proof.
  destruct (expiry_keeps_live_entries 5000
              (set_activePowerUps [(SHIELD, 4999%Z); (BOOST, 5000%Z)] mount))
    as (H & _).
  - repeat constructor; cbn; intuition discriminate.
  - rewrite H. reflexivity.
Defined.

(** [Map.set] on the registry. *)
Lemma reg_set_spec k v (m : Registry) :
  reg_wf m ->
  reg_wf (reg_set k v m)
  /\ (forall v', In (k, v') (reg_set k v m) <-> v' = v)
  /\ (forall k' v', k' <> k ->
        In (k', v') (reg_set k v m) <-> In (k', v') m)
  /\ reg_has k (reg_set k v m) = true.
Proof.
  intros Hwf. unfold reg_set.
  assert (Hhas : reg_has k m = true <-> In k (map fst m)).
  { unfold reg_has. rewrite existsb_exists, in_map_iff. split.
    - intros ((k0 & e0) & Hin & E). apply PowerUpType_eqb_eq in E.
      exists (k0, e0). split; assumption.
    - intros ((k0 & e0) & E & Hin). exists (k0, e0). split; [exact Hin|].
      apply PowerUpType_eqb_eq. exact E. }
  destruct (reg_has k m) eqn:Hk.
  - assert (Hin : In k (map fst m)) by (apply Hhas; reflexivity).
    clear Hhas Hk. unfold reg_wf in *.
    induction m as [|[k0 e0] m IH]; [destruct Hin|].
    cbn [map fst] in Hwf, Hin |- *.
    apply List.NoDup_cons_iff in Hwf as [Hk0 Hm].
    destruct (PowerUpType_eqb k0 k) eqn:E.
    + apply PowerUpType_eqb_eq in E. subst k0.
      assert (Hsame :
        map (fun e : PowerUpType * Z =>
               if PowerUpType_eqb (fst e) k then (k, v) else e) m = m).
      { clear -Hk0. induction m as [|[k1 e1] m IH]; [reflexivity|].
        cbn [map fst] in Hk0 |- *. cbn [In] in Hk0.
        destruct (PowerUpType_eqb k1 k) eqn:E1.
        - apply PowerUpType_eqb_eq in E1. tauto.
        - f_equal. apply IH. tauto. }
      rewrite Hsame. split; [|split; [|split]].
      * cbn [map fst]. constructor; assumption.
      * intros v'. cbn [In]. split.
        -- intros [H|H]; [congruence|].
           exfalso. apply Hk0. apply in_map_iff. exists (k, v'). auto.
        -- intros ->. left. reflexivity.
      * intros k' v' Hne. cbn [In]. split;
          (intros [H|H]; [congruence|right; exact H]).
      * unfold reg_has. cbn [existsb fst]. rewrite PowerUpType_eqb_refl.
        reflexivity.
    + assert (Hne0 : k0 <> k)
        by (intros ->; rewrite PowerUpType_eqb_refl in E; discriminate).
      destruct Hin as [Hin|Hin]; [congruence|].
      destruct (IH Hm Hin) as (I1 & I2 & I3 & I4).
      assert (Hkeys :
        map fst (map (fun e : PowerUpType * Z =>
                        if PowerUpType_eqb (fst e) k then (k, v) else e) m)
        = map fst m).
      { clear. induction m as [|[k1 e1] m IH]; [reflexivity|].
        cbn [map fst]. destruct (PowerUpType_eqb k1 k) eqn:E1.
        - apply PowerUpType_eqb_eq in E1. subst. cbn. f_equal. exact IH.
        - cbn. f_equal. exact IH. }
      split; [|split; [|split]].
      * cbn [map fst]. constructor; [rewrite Hkeys; exact Hk0|exact I1].
      * intros v'. cbn [In]. rewrite <- I2. split.
        -- intros [H|H]; [congruence|exact H].
        -- intros H. right. exact H.
      * intros k' v' Hne. cbn [In]. rewrite (I3 k' v' Hne). reflexivity.
      * unfold reg_has in *. cbn [existsb fst]. rewrite E. exact I4.
  - assert (Hnin : ~ In k (map fst m))
      by (intros H; apply Hhas in H; discriminate).
    split; [|split; [|split]].
    + unfold reg_wf in *. rewrite map_app. cbn [map fst].
      apply List.NoDup_app; [exact Hwf| |].
      * repeat constructor. intros [].
      * intros x Hx [<-|[]]. exact (Hnin Hx).
    + intros v'. rewrite in_app_iff. cbn [In]. split.
      * intros [H|[H|[]]]; [|congruence].
        exfalso. apply Hnin. apply in_map_iff. exists (k, v'). auto.
      * intros ->. right. left. reflexivity.
    + intros k' v' Hne. rewrite in_app_iff. cbn [In]. split.
      * intros [H|[H|[]]]; [exact H|congruence].
      * intros H. left. exact H.
    + unfold reg_has. rewrite existsb_app. cbn [existsb fst].
      rewrite PowerUpType_eqb_refl. apply orb_true_iff. right. reflexivity.
Qed.

Section PowerUpPickup.

Variable host : Host.

(** Picking up a power-up never stacks: afterwards the registry holds
    exactly one entry for its type, expiring [POWERUP_DURATION] after the
    pickup whatever was left of an earlier one, and the entries of the
    other types are untouched; a power-up that was already collected or
    does not overlap the player changes nothing. *)
Theorem power_up_pickup_refreshes_its_entry (now : Z) (pup : PowerUp)
    (w : World) :
  reg_wf (activePowerUps w) ->
  let w' := snd (powerUpStep host now pup w) in
  let pup' := fst (powerUpStep host now pup w) in
  (pu_collected pup = false ->
   overlapsPickup (playerPos w) (pu_x pup) (pu_y pup) (pu_size pup) = true ->
     pu_collected pup' = true
     /\ reg_wf (activePowerUps w')
     /\ (forall e, In (pu_type pup, e) (activePowerUps w') <->
           e = (now + POWERUP_DURATION)%Z)
     /\ (forall k e, k <> pu_type pup ->
           In (k, e) (activePowerUps w') <-> In (k, e) (activePowerUps w))
     /\ count (isSocial POWERUP) (trace w')
        = S (count (isSocial POWERUP) (trace w)))
  /\ (pu_collected pup = true
      \/ overlapsPickup (playerPos w) (pu_x pup) (pu_y pup) (pu_size pup)
         = false ->
        w' = w /\ pup' = pup).
Proof.
  intros Hwf. cbv zeta. unfold powerUpStep. split.
  - intros Hc Ho. rewrite Hc, Ho. cbn [negb andb fst snd]. cbv zeta.
    match goal with |- context [createCollisionBurst host ?a ?b ?c ?d ?e ?v] =>
      destruct (createCollisionBurst_cosmetic host a b c d e v)
        as (ps & n & ->) end.
    cbn [pu_type pu_collected activePowerUps set_particles set_randomCalls
         emit set_trace set_activePowerUps trace].
    destruct (reg_set_spec (pu_type pup) (now + POWERUP_DURATION)%Z
                (activePowerUps w) Hwf) as (R1 & R2 & R3 & _).
    split; [reflexivity|]. split; [exact R1|]. split; [exact R2|].
    split; [exact R3|].
    rewrite !count_app. unfold count at 2 3.
    destruct (pu_type pup); cbn; lia.
  - intros [Hc|Ho].
    + rewrite Hc. cbn [negb andb fst snd]. split; reflexivity.
    + rewrite Ho, andb_false_r. cbn [fst snd]. split; reflexivity.
Qed.

End PowerUpPickup.

Lemma power_up_pickup_refreshes_its_entry_witness :
  In (SHIELD, 108000%Z)
    (activePowerUps
       (snd (powerUpStep demoHost 100000
               (mkPowerUp "p0wer0001" 110 280 30 SHIELD false)
               (set_activePowerUps [(SHIELD, 100500%Z)] mount)))).
Proof.
  destruct (power_up_pickup_refreshes_its_entry demoHost 100000
              (mkPowerUp "p0wer0001" 110 280 30 SHIELD false)
              (set_activePowerUps [(SHIELD, 100500%Z)] mount)) as [H _].
  - repeat constructor. intros [].
  - destruct H as (_ & _ & H & _); [reflexivity|reflexivity|].
    apply H. reflexivity.
Defined.

(** ** Obstacle behaviours over several frames *)

Section Behaviours.

Variable host : Host.
Variable environment : Environment.

(** The behaviour of one obstacle over consecutive frames, one [now] per
    frame, at a fixed time scale. *)
Fixpoint behaveFrames (nows : list Z) (dt : Q) (obs : Obstacle) (w : World)
    : Obstacle * World :=
  match nows with
  | [] => (obs, w)
  | now :: rest =>
      let '(obs1, w1) := behave host environment now dt obs w in
      behaveFrames rest dt obs1 w1
  end.

Lemma behaveFrames_app nows1 nows2 dt obs w :
  behaveFrames (nows1 ++ nows2) dt obs w
  = behaveFrames nows2 dt (fst (behaveFrames nows1 dt obs w))
      (snd (behaveFrames nows1 dt obs w)).
Proof.
  revert obs w. induction nows1 as [|now nows1 IH]; intros obs w;
    [reflexivity|].
  cbn [app behaveFrames].
  destruct (behave host environment now dt obs w) as [obs1 w1]. apply IH.
Qed.

Lemma laser_charges nows : forall obs w t a,
  o_kind obs = Laser t a ->
  t + 16 * inject_Z (Z.of_nat (length nows)) <= 2000 ->
  snd (behaveFrames nows 1 obs w) = w
  /\ exists t',
       fst (behaveFrames nows 1 obs w) = o_set_kind (Laser t' a) obs
       /\ t' == t + 16 * inject_Z (Z.of_nat (length nows)).
Proof.
  induction nows as [|now nows IH]; intros obs w t a Hk Ht.
  - cbn [behaveFrames fst snd length]. split; [reflexivity|].
    exists t. split.
    + destruct obs; cbn in Hk |- *. subst. reflexivity.
    + cbn. ring.
  - cbn [length] in Ht. rewrite Nat2Z.inj_succ, <- Z.add_1_r in Ht.
    rewrite inject_Z_plus in Ht. change (inject_Z 1) with 1 in Ht.
    assert (Hpos : 0 <= inject_Z (Z.of_nat (length nows))).
    { change 0 with (inject_Z 0). rewrite <- Zle_Qle. lia. }
    assert (Hb : behave host environment now 1 obs w
                 = (o_set_kind (Laser (t + 16 * 1) a) obs, w)).
    { unfold behave. rewrite Hk. cbv zeta.
      destruct (Qltb 2000 (t + 16 * 1)) eqn:E; [|reflexivity].
      apply Qltb_lt in E. exfalso. lra. }
    cbn [behaveFrames]. rewrite Hb.
    destruct (IH (o_set_kind (Laser (t + 16 * 1) a) obs) w (t + 16 * 1) a
                eq_refl) as (I1 & t' & I2 & I3); [lra|].
    split; [exact I1|]. exists t'. split.
    + rewrite I2. reflexivity.
    + rewrite I3. cbn [length]. rewrite Nat2Z.inj_succ, <- Z.add_1_r.
      rewrite inject_Z_plus. change (inject_Z 1) with 1. ring.
Qed.

(** At time scale 1 a laser holds each state for exactly 126 frames: during
    the first 125 frames after a switch it only accumulates time, on the
    126th it switches, restarts its timer at zero, and plays the laser cue
    exactly when it switches on. *)
Theorem laser_switches_every_126_frames (obs : Obstacle) (w : World)
    (a : bool) (nows : list Z) :
  o_kind obs = Laser 0 a ->
  ((length nows <= 125)%nat ->
     exists t,
       o_kind (fst (behaveFrames nows 1 obs w)) = Laser t a
       /\ t == 16 * inject_Z (Z.of_nat (length nows))
       /\ snd (behaveFrames nows 1 obs w) = w)
  /\ (length nows = 126%nat ->
        o_kind (fst (behaveFrames nows 1 obs w)) = Laser 0 (negb a)
        /\ trace (snd (behaveFrames nows 1 obs w))
           = trace w ++ (if a then [] else [Audio playLaserOnSound])).
Proof.
  intros Hk. split.
  - intros Hlen.
    destruct (laser_charges nows obs w 0 a Hk) as (I1 & t & I2 & I3).
    { assert (inject_Z (Z.of_nat (length nows)) <= inject_Z 125)
        by (rewrite <- Zle_Qle; lia).
      change (inject_Z 125) with 125 in H. lra. }
    exists t. split; [rewrite I2; reflexivity|]. split; [|exact I1].
    rewrite I3. ring.
  - intros Hlen.
    destruct (exists_last (l := nows)) as (first & now & ->).
    { intros ->. discriminate Hlen. }
    rewrite length_app in Hlen. cbn [length] in Hlen.
    assert (Hfirst : length first = 125%nat) by lia.
    rewrite behaveFrames_app.
    destruct (laser_charges first obs w 0 a Hk) as (I1 & t & I2 & I3).
    { rewrite Hfirst. unfold Qle. cbn. lia. }
    rewrite I1, I2. cbn [behaveFrames]. unfold behave.
    cbn [o_kind o_set_kind]. cbv zeta.
    rewrite Hfirst in I3.
    assert (Ht : t == 2000) by (rewrite I3; reflexivity).
    destruct (Qltb 2000 (t + 16 * 1)) eqn:E.
    + cbn [fst snd o_kind o_set_kind]. split; [reflexivity|].
      destruct a; cbn [negb].
      * rewrite app_nil_r. reflexivity.
      * reflexivity.
    + apply Qltb_ge in E. exfalso. rewrite Ht in E. lra.
Qed.

(** The stages a stomp can move to in one frame. *)
Definition stompNext (s s' : StompStage) : Prop :=
  match s, s' with
  | waiting, waiting | waiting, dropping
  | dropping, dropping | dropping, rising
  | rising, rising | rising, waiting => True
  | _, _ => False
  end.

(** A stomp only ever cycles waiting, dropping, rising, waiting, and while
    time does not run backwards it stays between its parking position
    above the canvas ([y = -height]) and the ground
    ([y = GROUND_Y - height]); it plays its impact cue at most when it
    changes from dropping to rising. *)
Theorem stomp_cycles_between_ceiling_and_ground (now : Z) (dt : Q)
    (obs : Obstacle) (w : World) (stage : StompStage) (timer : Q)
    (played : bool) :
  o_kind obs = Stomp stage timer played ->
  0 <= dt ->
  - o_height obs <= o_y obs <= GROUND_Y - o_height obs ->
  let obs' := fst (behave host environment now dt obs w) in
  let w' := snd (behave host environment now dt obs w) in
  (exists stage' timer' played',
     o_kind obs' = Stomp stage' timer' played'
     /\ stompNext stage stage'
     /\ (count (fun e => match e with
                         | Audio playStompSound => true
                         | _ => false
                         end) (trace w')
         = count (fun e => match e with
                           | Audio playStompSound => true
                           | _ => false
                           end) (trace w)
           + (match stage, stage', played with
              | dropping, rising, false => 1
              | _, _, _ => 0
              end))%nat)
  /\ - o_height obs' <= o_y obs' <= GROUND_Y - o_height obs'
  /\ o_height obs' = o_height obs.
Proof.
  intros Hk Hdt [Hlo Hhi]. cbv zeta. unfold behave. rewrite Hk.
  destruct stage; cbv zeta.
  - (* waiting *)
    cbn [fst snd o_kind o_set_kind o_y o_height].
    split; [|split; [split; assumption|reflexivity]].
    destruct (Qle_bool (timer - 16 * dt) 0);
      do 3 eexists; (split; [reflexivity|]); (split; [exact I|]); lia.
  - (* dropping *)
    cbn [o_y o_set_y o_height].
    destruct (Qle_bool (GROUND_Y - o_height obs) (o_y obs + 20 * dt)) eqn:E.
    + cbn [fst snd o_kind o_set_kind o_set_y o_y o_height].
      split; [|split; [split; [lra|apply Qle_refl]|reflexivity]].
      do 3 eexists. split; [reflexivity|]. split; [exact I|].
      destruct played; cbn [negb].
      * lia.
      * match goal with
        |- context [createCollisionBurst host ?a ?b ?c ?d ?e ?v] =>
          destruct (createCollisionBurst_cosmetic host a b c d e v)
            as (ps & n & ->) end.
        cbn [trace set_trace set_particles set_randomCalls emit].
        rewrite count_app. unfold count at 2. cbn. lia.
    + cbn [fst snd o_kind o_set_y o_y o_height].
      assert (Hlt : o_y obs + 20 * dt < GROUND_Y - o_height obs).
      { apply Qnot_le_lt. intros H. apply Qle_bool_iff in H. congruence. }
      split; [|split; [split; [|lra]|reflexivity]].
      * rewrite Hk. do 3 eexists. split; [reflexivity|].
        split; [exact I|]. lia.
      * assert (0 <= 20 * dt) by (apply Qmult_le_0_compat; lra). lra.
  - (* rising *)
    destruct (Qle_bool (timer - 16 * dt) 0).
    + cbn [o_y o_set_y o_height].
      destruct (Qle_bool (o_y obs - 3 * dt) (- o_height obs)) eqn:E.
      * cbn [fst snd o_kind o_set_kind o_set_y o_y o_height mathRandom
             trace set_randomCalls].
        split; [|split; [split; [apply Qle_refl|lra]|reflexivity]].
        do 3 eexists. split; [reflexivity|]. split; [exact I|]. lia.
      * cbn [fst snd o_kind o_set_kind o_set_y o_y o_height].
        assert (Hgt : - o_height obs < o_y obs - 3 * dt).
        { apply Qnot_le_lt. intros H. apply Qle_bool_iff in H. congruence. }
        assert (0 <= 3 * dt) by (apply Qmult_le_0_compat; lra).
        split; [|split; [split; lra|reflexivity]].
        do 3 eexists. split; [reflexivity|]. split; [exact I|]. lia.
    + cbn [fst snd o_kind o_set_kind o_y o_height].
      split; [|split; [split; assumption|reflexivity]].
      do 3 eexists. split; [reflexivity|]. split; [exact I|]. lia.
Qed.

End Behaviours.

Lemma laser_switches_every_126_frames_witness :
  o_kind (fst (behaveFrames demoHost neonGutter (repeat 0%Z 126) 1
                 laserOverPlayer mount))
  = Laser 0 false.
Proof.
  destruct (laser_switches_every_126_frames demoHost neonGutter
              laserOverPlayer mount true (repeat 0%Z 126) eq_refl)
    as [_ H].
  apply H. reflexivity.
Defined.

Lemma stomp_cycles_between_ceiling_and_ground_witness :
  o_y (fst (behave demoHost neonGutter 0 1
              (mkObstacle "st0mp0001" 400 (-80) (-80) 60 80
                 (Stomp dropping 0 false) 1) mount)) <= GROUND_Y - 80.
Proof.
  destruct (stomp_cycles_between_ceiling_and_ground demoHost neonGutter 0 1
              (mkObstacle "st0mp0001" 400 (-80) (-80) 60 80
                 (Stomp dropping 0 false) 1) mount dropping 0 false eq_refl)
    as (_ & [_ H] & _).
  - discriminate.
  - cbn. split; discriminate.
  - exact H.
Defined.

(** ** Spawning: pace and placement *)

(** A host whose [Math.random()] behaves: every draw lies in [0, 1). *)
Definition randomInRange (host : Host) : Prop :=
  forall n : nat, 0 <= h_random host n /\ h_random host n < 1.

Lemma randomInRange_tableHost :
  randomInRange demoHost.
Proof.
  intros n. unfold demoHost, tableHost. cbn [h_random].
  destruct n; cbn; split; reflexivity || discriminate.
Qed.

(** While the player is alive, a further obstacle is spawned once the
    newest one has scrolled left of a threshold that grows with the score
    from 550 (score 0) to 700 (score 4500 and above): never while the
    newest obstacle is still at 700 or beyond, always once it is left of
    550. *)
Theorem spawn_waits_for_a_gap (w : World) (newest : Obstacle) :
  isDying w = false ->
  0 <= scoreRef w ->
  last (obstacles w) = Some newest ->
  (spawnDue w = true <->
     o_x newest < 550 + Qmin (scoreRef w / 30) 150)
  /\ (spawnDue w = true -> o_x newest < 700)
  /\ (o_x newest < 550 -> spawnDue w = true).
Proof.
  intros Hd Hs Hlast. unfold spawnDue. rewrite Hd, Hlast. cbn [negb andb].
  assert (Hlen : Nat.eqb (length (obstacles w)) 0 = false).
  { destruct (obstacles w); [discriminate Hlast|reflexivity]. }
  rewrite Hlen. cbn [orb].
  assert (Hmin : 0 <= Qmin (scoreRef w / 30) 150 <= 150).
  { split; [|apply Q.le_min_r].
    apply Q.min_glb; [|lra]. apply Qle_shift_div_l; lra. }
  assert (Hiff : Qltb (o_x newest)
                   (CANVAS_WIDTH - (250 - Qmin (scoreRef w / 30) 150)) = true
                 <-> o_x newest < 550 + Qmin (scoreRef w / 30) 150).
  { rewrite Qltb_lt. unfold CANVAS_WIDTH. split; intros H; lra. }
  split; [exact Hiff|]. split.
  - intros H. apply Hiff in H. lra.
  - intros H. apply Hiff. lra.
Qed.

Definition oneSpikeAt (x : Q) : World :=
  set_obstacles
    [ {| o_id := "sp1ke0001"; o_x := x; o_y := 290; o_baseY := 290;
         o_width := 30; o_height := 30; o_kind := Spike;
         o_speedMultiplier := 1 |} ]
    (set_scoreRef 900 mount).

Lemma spawn_waits_for_a_gap_witness :
  spawnDue (oneSpikeAt 540) = true.
Proof.
  destruct (spawn_waits_for_a_gap (oneSpikeAt 540)
              {| o_id := "sp1ke0001"; o_x := 540; o_y := 290; o_baseY := 290;
                 o_width := 30; o_height := 30; o_kind := Spike;
                 o_speedMultiplier := 1 |}) as (_ & _ & H).
  - reflexivity.
  - cbn. discriminate.
  - reflexivity.
  - apply H. reflexivity.
Defined.

Section Placement.

Variable host : Host.

(** With draws in [0, 1), whatever [spawnObstacle] adds is well placed:
    the obstacle starts beyond the right edge at [x = CANVAS_WIDTH + 150],
    anchored where it stands, and does not reach below the ground line
    (for a missile, as long as the player does not); at most one companion
    pickup comes with it, never both kinds, uncollected, at
    [x = CANVAS_WIDTH + 200] and above the ground line. *)
Theorem spawned_entities_are_well_placed (w : World) :
  randomInRange host ->
  v_y (playerPos w) + PLAYER_SIZE <= GROUND_Y ->
  let w' := spawnObstacle host w in
  (exists obs,
     obstacles w' = obstacles w ++ [obs]
     /\ o_x obs = CANVAS_WIDTH + 150
     /\ o_baseY obs = o_y obs
     /\ o_y obs + o_height obs <= GROUND_Y)
  /\ ((collectibles w' = collectibles w /\ powerUps w' = powerUps w)
      \/ (collectibles w' = collectibles w
          /\ exists pup,
               powerUps w' = powerUps w ++ [pup]
               /\ pu_x pup = CANVAS_WIDTH + 200
               /\ pu_collected pup = false
               /\ pu_y pup + pu_size pup <= GROUND_Y)
      \/ (powerUps w' = powerUps w
          /\ exists col,
               collectibles w' = collectibles w ++ [col]
               /\ c_x col = CANVAS_WIDTH + 200
               /\ c_collected col = false
               /\ c_y col + c_size col <= GROUND_Y)).
Proof.
  intros Hr Hp. cbv zeta. unfold spawnObstacle.
  cbv beta zeta iota delta [mathRandom randomId].
  unfold GROUND_Y, PLAYER_SIZE in Hp.
  destruct (pick _ _ _);
    cbv beta zeta iota delta [spawnShape mathRandom randomId];
    repeat match goal with
           | |- context [if ?b then _ else _] => destruct b
           end;
    (split;
     [eexists; split; [reflexivity|]; split; [reflexivity|];
      split; [reflexivity|];
      cbn [o_y o_height playerPos set_randomCalls emit set_trace];
      unfold GROUND_Y;
      repeat match goal with
             | |- context [h_random host ?n] =>
               let H := fresh in
               pose proof (Hr n) as H; generalize dependent (h_random host n);
               intros
             end; lra
     |]);
    first
      [ left; split; reflexivity
      | right; left; split; [reflexivity|];
        eexists; split; [reflexivity|]; split; [reflexivity|];
        split; [reflexivity|]; cbn [pu_y pu_size]; unfold GROUND_Y;
        match goal with
        | |- context [h_random host ?n] =>
          pose proof (Hr n); generalize dependent (h_random host n); intros
        end; lra
      | right; right; split; [reflexivity|];
        eexists; split; [reflexivity|]; split; [reflexivity|];
        split; [reflexivity|]; cbn [c_y c_size]; unfold GROUND_Y;
        match goal with
        | |- context [h_random host ?n] =>
          pose proof (Hr n); generalize dependent (h_random host n); intros
        end; lra ].
Qed.

End Placement.

Lemma spawned_entities_are_well_placed_witness :
  exists obs,
    obstacles (spawnObstacle demoHost mount) = [obs]
    /\ o_x obs = CANVAS_WIDTH + 150.
Proof.
  destruct (spawned_entities_are_well_placed demoHost mount
              randomInRange_tableHost) as [(obs & H1 & H2 & _) _].
  - cbn. discriminate.
  - exists obs. split; [exact H1|exact H2].
Defined.

(** ** Missiles *)



(** ** Session lifecycle *)

Definition isGameOverReport (e : Effect) : bool :=
  match e with
  | OnGameOver _ => true
  | _ => false
  end.

Section Lifecycle.

Variable host : Host.

Lemma resetGame_facts w :
  isDying (resetGame w) = false
  /\ isDying (resetGame w) = false
  /\ scoreRef (resetGame w) = 0
  /\ obstacles (resetGame w) = []
  /\ trace (resetGame w) = trace w
  /\ timers (resetGame w)
     = match deathTimeoutRef w with
       | Some (S _ as tid) =>
           List.filter (fun t => negb (Nat.eqb t tid)) (timers w)
       | _ => timers w
       end.
Proof.
  unfold resetGame. destruct (deathTimeoutRef w) as [[|tid]|];
    repeat split; reflexivity.
Qed.

Lemma resetGame_idempotent w : resetGame (resetGame w) = resetGame w.
Proof.
  destruct w as [ref hud hm msg keys pos vel jmp sc lvl xd dy inv ts dash
                 reg obs cols pups parts bg nm sht sho rc ltid tms tr].
  destruct ref as [[|tid]|]; vm_compute; reflexivity.
Qed.

Lemma deathTimeoutFires_alive tid v :
  isDying v = false -> trace (deathTimeoutFires tid v) = trace v.
Proof.
  intros Hd. unfold deathTimeoutFires.
  destruct (existsb (Nat.eqb tid) (timers v)); [|reflexivity].
  cbv zeta. change (isDying (clearTimeout tid v)) with (isDying v).
  rewrite Hd. reflexivity.
Qed.

(** Resetting twice is resetting once; a reset cancels the pending death
    timer, and no timer that fires after a reset - the cancelled one or any
    other - reports a game over. *)
Theorem reset_is_idempotent_and_cancels_game_over (w : World) :
  resetGame (resetGame w) = resetGame w
  /\ (forall tid, deathTimeoutRef w = Some (S tid) ->
        existsb (Nat.eqb (S tid)) (timers (resetGame w)) = false)
  /\ (forall tid,
        trace (deathTimeoutFires tid (resetGame w)) = trace w).
Proof.
  split; [apply resetGame_idempotent|split].
  - intros tid Href.
    destruct (resetGame_facts w) as (_ & _ & _ & _ & _ & ->).
    rewrite Href. clear.
    induction (timers w) as [|t ts IH]; [reflexivity|].
    cbn [List.filter]. destruct (Nat.eqb_spec t (S tid)) as [->|Hne];
      cbn [negb]; [exact IH|].
    cbn [existsb]. rewrite IH.
    destruct (Nat.eqb_spec (S tid) t); [congruence|reflexivity].
  - intros tid.
    destruct (resetGame_facts w) as (_ & D & _ & _ & T & _).
    rewrite (deathTimeoutFires_alive tid _ D). exact T.
Qed.

(** Whenever the game state becomes START or PLAYING, the simulation is
    left alive and not stale - never dying, never at score zero with
    obstacles on stage - and a state that already was so is taken over
    unchanged on entering PLAYING; on GAMEOVER nothing is touched. *)
Theorem entering_play_never_resumes_a_dead_session (gameState : GameState)
    (w : World) :
  (gameState <> GAMEOVER ->
     isDying (onGameState gameState w) = false
     /\ ~ (scoreRef (onGameState gameState w) == 0
           /\ obstacles (onGameState gameState w) <> []))
  /\ (isDying w = false ->
      ~ (scoreRef w == 0 /\ obstacles w <> []) ->
        onGameState PLAYING w = w)
  /\ onGameState GAMEOVER w = w.
Proof.
  split; [|split; [|reflexivity]].
  - intros Hg.
    assert (Hreset : isDying (resetGame w) = false
                     /\ ~ (scoreRef (resetGame w) == 0
                           /\ obstacles (resetGame w) <> [])).
    { destruct (resetGame_facts w) as (_ & -> & _ & -> & _).
      split; [reflexivity|]. intros [_ H]. apply H. reflexivity. }
    destruct gameState; [exact Hreset| |congruence].
    unfold onGameState. destruct (isDying w) eqn:Hd; [exact Hreset|].
    cbn [orb].
    destruct (Qeq_bool (scoreRef w) 0) eqn:Hs; cbn [andb].
    + destruct (Nat.ltb_spec 0 (length (obstacles w))) as [Hlen|Hlen];
        [exact Hreset|].
      split; [exact Hd|]. intros [_ H]. apply H.
      destruct (obstacles w); [reflexivity|cbn in Hlen; lia].
    + split; [exact Hd|]. intros [H _].
      apply Qeq_bool_iff in H. congruence.
  - intros Hd Hstale. unfold onGameState. rewrite Hd. cbn [orb].
    destruct (Qeq_bool (scoreRef w) 0) eqn:Hs; cbn [andb]; [|reflexivity].
    destruct (Nat.ltb_spec 0 (length (obstacles w))) as [Hlen|Hlen];
      [|reflexivity].
    exfalso. apply Hstale. split; [apply Qeq_bool_iff, Hs|].
    intros E. rewrite E in Hlen. cbn in Hlen. lia.
Qed.

Variable environment : Environment.





End Lifecycle.


(** ** The invincibility window *)

Section Invincibility.

Variable host : Host.
Variable environment : Environment.
Variable gamepads : list (option Gamepad).
Variable now : Z.

Lemma hazardsStep_invincible v :
  (now < invincibleUntil v)%Z -> hazardsStep host environment now v = v.
Proof.
  intros H. unfold hazardsStep. cbv zeta.
  destruct (Z.ltb_spec now (invincibleUntil v)); [reflexivity|lia].
Qed.

Lemma isDying_set_backgroundOffset b v :
  isDying (set_backgroundOffset b v) = isDying v.
Proof. reflexivity. Qed.

Lemma activePowerUps_set_backgroundOffset b v :
  activePowerUps (set_backgroundOffset b v) = activePowerUps v.
Proof. reflexivity. Qed.

Lemma invincibleUntil_set_backgroundOffset b v :
  invincibleUntil (set_backgroundOffset b v) = invincibleUntil v.
Proof. reflexivity. Qed.

Lemma trace_set_backgroundOffset b v :
  trace (set_backgroundOffset b v) = trace v.
Proof. reflexivity. Qed.

(** The expiry of the invincibility window on entry to the hazard pass. *)
Lemma atHazards_invincibleUntil w :
  isDying w = false ->
  let level :=
    levelAfterAccrual ((6 + scoreRef w / 1200) * timeScale w)
      (reg_has MULTIPLIER (activePowerUps w)) w in
  invincibleUntil (atHazards host environment gamepads now w)
  = if (lastLevelRef w <? level)%Z
    then (now + INVINCIBILITY_DURATION)%Z else invincibleUntil w.
Proof.
  intros Hd. cbv zeta.
  pose proof (afterPhysics_steady host environment gamepads now w)
    as (P1 & P2 & P3 & _ & _ & P6 & _).
  assert (Hd1 : isDying (afterPhysics host environment gamepads now w)
                = false) by congruence.
  destruct (scoreStep_alive now ((6 + scoreRef w / 1200) * timeScale w)
    (reg_has MULTIPLIER (activePowerUps w))
    (afterPhysics host environment gamepads now w) Hd1)
    as (_ & _ & _ & _ & _ & Sup & Sno).
  rewrite <- afterScore_eq in Sup, Sno.
  rewrite levelAfterAccrual_score with (w2 := w) in Sup, Sno by exact P1.
  rewrite P2 in Sup, Sno.
  pose proof (obstaclesStep_ledger host environment now
    (gameSpeedAt host environment gamepads now w) (timeScale w)
    (afterScore host environment gamepads now w))
    as (_ & _ & _ & O4 & _).
  pose proof (atSpawn_steady host environment gamepads now w)
    as (_ & _ & _ & _ & _ & A6 & _).
  pose proof (atPickups_steady host environment gamepads now w)
    as (_ & _ & _ & _ & _ & B6 & _).
  pose proof (atHazards_ledger host environment gamepads now w)
    as (_ & _ & _ & C4 & _).
  rewrite C4, B6, A6, O4.
  destruct (Z.ltb_spec (lastLevelRef w)
              (levelAfterAccrual ((6 + scoreRef w / 1200) * timeScale w)
                 (reg_has MULTIPLIER (activePowerUps w)) w)) as [Hlt|Hge].
  - apply (Sup Hlt).
  - destruct (Sno Hge) as (_ & -> & _). exact P6.
Qed.

(** A living player survives every PLAYING tick that runs inside the
    invincibility window or levels up: the hazard pass is skipped, so the
    player is not dying afterwards, no game-over cue is played, and a
    SHIELD held on entry to the hazard pass is still held.  In particular
    a level-up protects the very tick in which it happens. *)
Theorem invincible_tick_is_survived (w : World) :
  let level :=
    levelAfterAccrual ((6 + scoreRef w / 1200) * timeScale w)
      (reg_has MULTIPLIER (activePowerUps w)) w in
  let w' := update host PLAYING environment gamepads now w in
  isDying w = false ->
  (now < invincibleUntil w)%Z \/ (lastLevelRef w < level)%Z ->
  isDying w' = false
  /\ (now < invincibleUntil w')%Z
  /\ activePowerUps w'
     = activePowerUps (atHazards host environment gamepads now w)
  /\ count isGameOverCue (trace w') = count isGameOverCue (trace w).
Proof.
  cbv zeta. intros Hd Hor.
  pose proof (atHazards_invincibleUntil w Hd) as Hinv. cbv zeta in Hinv.
  assert (Hwin : (now < invincibleUntil
                          (atHazards host environment gamepads now w))%Z).
  { rewrite Hinv.
    destruct (Z.ltb_spec (lastLevelRef w)
                (levelAfterAccrual ((6 + scoreRef w / 1200) * timeScale w)
                   (reg_has MULTIPLIER (activePowerUps w)) w)) as [Hlt|Hge].
    - unfold INVINCIBILITY_DURATION. lia.
    - destruct Hor as [H|H]; [exact H|lia]. }
  rewrite (update_alive _ _ _ _ _ Hd).
  rewrite (hazardsStep_invincible _ Hwin).
  rewrite isDying_set_backgroundOffset, invincibleUntil_set_backgroundOffset,
    activePowerUps_set_backgroundOffset.
  destruct (stages_isDying host environment gamepads now w)
    as (_ & _ & _ & _ & ->).
  split; [exact Hd|]. split; [exact Hwin|]. split; [reflexivity|].
  rewrite trace_set_backgroundOffset.
  apply (emits_count preHazardEffect); [effect_classes|].
  apply atHazards_emits.
Qed.

End Invincibility.

Lemma invincible_tick_is_survived_witness :
  isDying (update demoHost PLAYING neonGutter [] 100000
             (set_invincibleUntil 100500 doubleHit)) = false.
Proof.
  destruct (invincible_tick_is_survived demoHost neonGutter [] 100000
              (set_invincibleUntil 100500 doubleHit)) as (H & _).
  - reflexivity.
  - left. reflexivity.
  - exact H.
Defined.

(** * The host application ([App.tsx]) *)

Module App.

(** The React state and refs of the component (lines 15-24).  Scores and
    clout are integers: the canvas reports [Math.floor] of its score. *)
Record State : Type := mkState {
  gameState : GameState;
  score : Z;
  highScore : Z;
  clout : Z;
  environment : Environment;
  biomeHistory : list string;
  isTransitioning : bool;
  streamerName : string;
  lastShiftRef : Z;
  lastChatFetchRef : Z
}.

(** [DEFAULT_ENVIRONMENT] is [neonGutter]. *)
Definition initial : State :=
  {| gameState := START; score := 0; highScore := 0; clout := 0;
     environment := neonGutter;
     biomeHistory := [name neonGutter];
     isTransitioning := false;
     streamerName := "Rift_Walker";
     lastShiftRef := 0; lastChatFetchRef := 0 |}.

(** [handleSocialEvent] (lines 56-60). *)
Definition handleSocialEvent (event : SocialEvent) (st : State) : State :=
  let add n :=
    mkState (gameState st) (score st) (highScore st) (clout st + n)
      (environment st) (biomeHistory st) (isTransitioning st)
      (streamerName st) (lastShiftRef st) (lastChatFetchRef st) in
  match event with
  | COLLECT => add 10%Z
  | NEAR_MISS => add 100%Z
  | LEVEL_UP => add 500%Z
  | _ => st
  end.

(** [startGame] (lines 62-70). *)
Definition startGame (st : State) : State :=
  mkState PLAYING 0 (highScore st) 0 neonGutter [name neonGutter]
    (isTransitioning st) (streamerName st) 0 0.

(** [handleGameOver] (lines 72-76). *)
Definition handleGameOver (finalScore : Z) (st : State) : State :=
  mkState GAMEOVER finalScore
    (if (highScore st <? finalScore)%Z then finalScore else highScore st)
    (clout st) (environment st) (biomeHistory st) (isTransitioning st)
    (streamerName st) (lastShiftRef st) (lastChatFetchRef st).

(** [onScoreUpdate={setScore}] (line 115). *)
Definition setScore (n : Z) (st : State) : State :=
  mkState (gameState st) n (highScore st) (clout st) (environment st)
    (biomeHistory st) (isTransitioning st) (streamerName st)
    (lastShiftRef st) (lastChatFetchRef st).

(** The milestone effect (lines 45-54) together with the synchronous
    start of [handleBiomeShift] (lines 27-29): the new state and, when a
    biome is requested, the arguments of [fetchNewEnvironment]. *)
Definition milestoneEffect (st : State) : State * option (Z * list string) :=
  match gameState st with
  | PLAYING =>
      let milestone := (score st / 5000)%Z in
      if (lastShiftRef st <? milestone)%Z && negb (isTransitioning st) then
        (mkState (gameState st) (score st) (highScore st) (clout st)
           (environment st) (biomeHistory st) true (streamerName st)
           milestone (lastChatFetchRef st),
         Some (score st, biomeHistory st))
      else (st, None)
  | _ => (st, None)
  end.

(** The request resolves (lines 32-36); [None] is a null result. *)
Definition environmentArrives (newEnv : option Environment) (st : State)
    : State :=
  match newEnv with
  | Some env =>
      mkState (gameState st) (score st) (highScore st) (clout st) env
        (biomeHistory st ++ [name env]) (isTransitioning st)
        (streamerName st) (lastShiftRef st) (lastChatFetchRef st)
  | None => st
  end.

(** The cooldown timer of line 41 fires. *)
Definition cooldownEnds (st : State) : State :=
  mkState (gameState st) (score st) (highScore st) (clout st)
    (environment st) (biomeHistory st) false (streamerName st)
    (lastShiftRef st) (lastChatFetchRef st).

(** The handle filter of line 132:
    [value.replace(/[^a-zA-Z0-9_]/g, '').slice(0, 15)]. *)
Definition handleChar (c : ascii) : bool :=
  let n := nat_of_ascii c in
  ((97 <=? n) && (n <=? 122) || (65 <=? n) && (n <=? 90)
   || (48 <=? n) && (n <=? 57) || (n =? 95))%nat.

Fixpoint keepChars (p : ascii -> bool) (s : string) : string :=
  match s with
  | EmptyString => EmptyString
  | String c s' => if p c then String c (keepChars p s') else keepChars p s'
  end.

Definition sanitizeHandle (value : string) : string :=
  substring 0 15 (keepChars handleChar value).

(** ** Clout *)

Definition countSocial (e : SocialEvent) (events : list SocialEvent) : Z :=
  Z.of_nat (length (List.filter (SocialEvent_eqb e) events)).

Definition withClout (c : Z) (st : State) : State :=
  mkState (gameState st) (score st) (highScore st) c (environment st)
    (biomeHistory st) (isTransitioning st) (streamerName st)
    (lastShiftRef st) (lastChatFetchRef st).

(** The clout shown to the player is the sum of the rewards of the social
    events received so far: 10 per COLLECT, 100 per NEAR_MISS, 500 per
    LEVEL_UP, and nothing for POWERUP and BIOME_SHIFT; it never
    decreases, and the events touch nothing but the clout. *)
Theorem clout_is_the_sum_of_rewards (events : list SocialEvent) (st : State) :
  let st' := fold_left (fun s e => handleSocialEvent e s) events st in
  clout st' = (clout st + 10 * countSocial COLLECT events
               + 100 * countSocial NEAR_MISS events
               + 500 * countSocial LEVEL_UP events)%Z
  /\ (clout st <= clout st')%Z
  /\ st' = withClout (clout st') st.
Proof.
  cbv zeta. revert st. induction events as [|e events IH]; intros st.
  - cbn [fold_left]. unfold countSocial. cbn. split; [lia|]. split; [lia|].
    destruct st; reflexivity.
  - cbn [fold_left]. destruct (IH (handleSocialEvent e st)) as (I1 & I2 & I3).
    assert (Hc : (clout (handleSocialEvent e st)
                  = clout st
                    + 10 * countSocial COLLECT [e]
                    + 100 * countSocial NEAR_MISS [e]
                    + 500 * countSocial LEVEL_UP [e])%Z)
      by (destruct e; unfold countSocial; cbn; lia).
    assert (Hf : forall c, withClout c (handleSocialEvent e st)
                           = withClout c st)
      by (intros c; destruct e; reflexivity).
    assert (Hsplit : forall s,
              countSocial s (e :: events)
              = (countSocial s [e] + countSocial s events)%Z).
    { intros s. unfold countSocial. cbn [List.filter].
      destruct (SocialEvent_eqb s e); cbn [length]; lia. }
    rewrite !Hsplit. split; [lia|]. split.
    + assert (0 <= countSocial COLLECT [e]
              /\ 0 <= countSocial NEAR_MISS [e]
              /\ 0 <= countSocial LEVEL_UP [e])%Z
        by (unfold countSocial; lia).
      lia.
    + rewrite I3 at 1. apply Hf.
Qed.

(** ** High score *)

(** One session: the player starts the game and eventually the canvas
    reports a final score. *)
Definition session (st : State) (finalScore : Z) : State :=
  handleGameOver finalScore (startGame st).

(** Over any number of sessions the high score is the largest final score
    seen so far (or the high score held before, if that is larger): it
    never decreases, it is at least every final score of these sessions,
    and restarting the game does not reset it. *)
Theorem high_score_is_the_best_final_score (finals : list Z) (st : State) :
  let st' := fold_left session finals st in
  highScore st' = fold_left Z.max finals (highScore st)
  /\ (highScore st <= highScore st')%Z
  /\ Forall (fun n => (n <= highScore st')%Z) finals
  /\ highScore (startGame st') = highScore st'.
Proof.
  cbv zeta. split; [|split; [|split; [|reflexivity]]].
  - revert st. induction finals as [|n finals IH]; intros st; [reflexivity|].
    cbn [fold_left]. rewrite IH. f_equal.
    unfold session, handleGameOver, startGame. cbn [highScore].
    destruct (Z.ltb_spec (highScore st) n); lia.
  - revert st. induction finals as [|n finals IH]; intros st;
      [cbn; lia|].
    cbn [fold_left]. etransitivity; [|apply IH].
    unfold session, handleGameOver, startGame. cbn [highScore].
    destruct (Z.ltb_spec (highScore st) n); lia.
  - revert st. induction finals as [|n finals IH]; intros st;
      [constructor|].
    cbn [fold_left]. constructor; [|apply IH].
    assert (Hmono : forall l s, (highScore s <= highScore
                                   (fold_left session l s))%Z).
    { clear. induction l as [|m l IHl]; intros s; [cbn; lia|].
      cbn [fold_left]. etransitivity; [|apply IHl].
      unfold session, handleGameOver, startGame. cbn [highScore].
      destruct (Z.ltb_spec (highScore s) m); lia. }
    etransitivity; [|apply Hmono].
    unfold session, handleGameOver, startGame. cbn [highScore].
    destruct (Z.ltb_spec (highScore st) n); lia.
Qed.

(** ** Biome milestones *)

(** A new biome is requested exactly when the game is PLAYING, no request
    is in its cooldown, and the score has reached the next multiple of
    5000 after the last milestone served.  The request marks the
    milestone and starts the cooldown: until the cooldown ends no further
    request is made whatever the score, and after it ends none is made
    before the score reaches a later milestone. *)
Theorem one_biome_request_per_milestone (st : State) :
  (snd (milestoneEffect st) <> None <->
     gameState st = PLAYING /\ isTransitioning st = false
     /\ (5000 * (lastShiftRef st + 1) <= score st)%Z)
  /\ (snd (milestoneEffect st) = None -> fst (milestoneEffect st) = st)
  /\ (snd (milestoneEffect st) <> None ->
        let st1 := fst (milestoneEffect st) in
        snd (milestoneEffect st) = Some (score st, biomeHistory st)
        /\ lastShiftRef st1 = (score st / 5000)%Z
        /\ (forall n, snd (milestoneEffect (setScore n st1)) = None)
        /\ (forall n, (n < 5000 * (score st / 5000 + 1))%Z ->
              snd (milestoneEffect (setScore n (cooldownEnds st1))) = None)).
Proof.
  unfold milestoneEffect.
  assert (Hdiv : forall last n : Z,
            (last < n / 5000 <-> 5000 * (last + 1) <= n)%Z).
  { intros last n. split; intros H.
    - assert (last + 1 <= n / 5000)%Z by lia.
      pose proof (Z.mul_div_le n 5000 ltac:(lia)). nia.
    - assert (last + 1 <= n / 5000)%Z
        by (apply Z.div_le_lower_bound; lia).
      lia. }
  destruct (gameState st) eqn:Hg;
    try (split; [split; [intros H; exfalso; apply H; reflexivity
                        |intros (H & _); discriminate H]
                |split; [reflexivity|intros H; exfalso; apply H; reflexivity]]).
  destruct (Z.ltb_spec (lastShiftRef st) (score st / 5000)) as [Hlt|Hge];
    cbn [andb].
  - destruct (isTransitioning st) eqn:Ht; cbn [negb fst snd].
    + split; [split; [intros H; exfalso; apply H; reflexivity
                     |intros (_ & H & _); discriminate H]|].
      split; [reflexivity|intros H; exfalso; apply H; reflexivity].
    + split; [split; [intros _|discriminate]|].
      { split; [reflexivity|]. split; [reflexivity|]. apply Hdiv, Hlt. }
      split; [discriminate|]. intros _. cbv zeta.
      split; [reflexivity|]. split; [reflexivity|]. split.
      * intros n. cbn [setScore gameState isTransitioning negb].
        rewrite andb_false_r. reflexivity.
      * intros n Hn.
        cbn [setScore cooldownEnds gameState isTransitioning lastShiftRef
             score negb].
        rewrite andb_true_r.
        destruct (Z.ltb_spec (score st / 5000) (n / 5000)) as [Hl|Hl];
          [|reflexivity].
        apply Hdiv in Hl. lia.
  - cbn [fst snd].
    split; [split; [intros H; exfalso; apply H; reflexivity|]|].
    { intros (_ & _ & H). apply Hdiv in H. lia. }
    split; [reflexivity|intros H; exfalso; apply H; reflexivity].
Qed.

(** ** The streamer handle *)

Lemma keepChars_all p s :
  (forall c, In c (list_ascii_of_string (keepChars p s)) -> p c = true).
Proof.
  induction s as [|c s IH]; cbn [keepChars]; [intros c []|].
  destruct (p c) eqn:E; [|exact IH].
  cbn [list_ascii_of_string]. intros c' [<-|H]; [exact E|apply IH, H].
Qed.

Lemma keepChars_id p s :
  (forall c, In c (list_ascii_of_string s) -> p c = true) ->
  keepChars p s = s.
Proof.
  induction s as [|c s IH]; intros H; [reflexivity|].
  cbn [keepChars]. rewrite (H c) by (left; reflexivity).
  f_equal. apply IH. intros c' Hc'. apply H. right. exact Hc'.
Qed.

Lemma substring_prefix n : forall s c,
  In c (list_ascii_of_string (substring 0 n s)) ->
  In c (list_ascii_of_string s).
Proof.
  induction n as [|n IH]; intros s c.
  - destruct s; cbn; intros [].
  - destruct s as [|a s]; cbn [substring list_ascii_of_string];
      [intros []|].
    intros [<-|H]; [left; reflexivity|right; apply IH, H].
Qed.

Lemma substring_length n : forall s,
  (String.length (substring 0 n s) <= n)%nat.
Proof.
  induction n as [|n IH]; intros s.
  - destruct s; cbn; lia.
  - destruct s as [|a s]; cbn [substring String.length]; [lia|].
    specialize (IH s). lia.
Qed.

Lemma substring_short n : forall s,
  (String.length s <= n)%nat -> substring 0 n s = s.
Proof.
  induction n as [|n IH]; intros s H.
  - destruct s; [reflexivity|cbn in H; lia].
  - destruct s as [|a s]; [reflexivity|].
    cbn [substring]. f_equal. apply IH. cbn in H. lia.
Qed.

(** The streamer handle typed by the player is filtered on every change:
    what is kept has at most 15 characters, all of them letters, digits
    or underscores; filtering again changes nothing, and a handle that
    already has that form is kept as typed. *)
Theorem handle_is_sanitized (value : string) :
  (String.length (sanitizeHandle value) <= 15)%nat
  /\ (forall c, In c (list_ascii_of_string (sanitizeHandle value)) ->
        handleChar c = true)
  /\ sanitizeHandle (sanitizeHandle value) = sanitizeHandle value
  /\ ((String.length value <= 15)%nat ->
      (forall c, In c (list_ascii_of_string value) -> handleChar c = true) ->
        sanitizeHandle value = value).
Proof.
  assert (Hall : forall c,
            In c (list_ascii_of_string (sanitizeHandle value)) ->
            handleChar c = true).
  { intros c H. unfold sanitizeHandle in H.
    apply substring_prefix in H. revert H. apply keepChars_all. }
  assert (Hfix : forall v, (String.length v <= 15)%nat ->
            (forall c, In c (list_ascii_of_string v) -> handleChar c = true) ->
            sanitizeHandle v = v).
  { intros v Hl Hc. unfold sanitizeHandle.
    rewrite (keepChars_id _ _ Hc). apply substring_short, Hl. }
  split; [apply substring_length|]. split; [exact Hall|]. split.
  - apply Hfix; [apply substring_length|exact Hall].
  - apply Hfix.
Qed.

End App.

(** * Fallback content of the biome service

    The service file of the repository answers with local content whenever
    the remote generator is unavailable; this is its choice of a fallback
    environment. *)

Module Fallback.

Definition FALLBACK_ENVIRONMENTS : list Environment :=
  [ {| name := "Cobalt Grid"; primaryColor := "#22d3ee";
       secondaryColor := "#818cf8";
       description := "Standard tactical visualization active.";
       atmosphere := "cold" |};
    {| name := "Magma Core"; primaryColor := "#f87171";
       secondaryColor := "#fbbf24";
       description := "Thermal levels critical. Watch your step.";
       atmosphere := "heavy" |};
    {| name := "Static Void"; primaryColor := "#ffffff";
       secondaryColor := "#475569";
       description :=
         "Data stream unstable. Atmospheric interference high.";
       atmosphere := "electric" |};
    {| name := "Jade Nexus"; primaryColor := "#34d399";
       secondaryColor := "#065f46";
       description := "Ancient protocols found in the deep web.";
       atmosphere := "ethereal" |} ].

(** [arr[Math.floor(r * arr.length)]]; an index outside the array reads
    [undefined]. *)
Definition randomElement {A : Type} (arr : list A) (r : Q) : option A :=
  let i := Qfloor (r * inject_Z (Z.of_nat (length arr))) in
  if (i <? 0)%Z then None else nth_error arr (Z.to_nat i).

(** [previousBiomes.includes(e.name)] *)
Definition includes (previousBiomes : list string) (e : Environment) : bool :=
  existsb (String.eqb (name e)) previousBiomes.

(** The fallback choice; [r] is the draw of [Math.random()] that the branch
    taken makes. *)
Definition fallbackEnvironment (previousBiomes : list string) (r : Q)
    : option Environment :=
  let availableFallbacks :=
    List.filter (fun e => negb (includes previousBiomes e))
      FALLBACK_ENVIRONMENTS in
  if (0 <? length availableFallbacks)%nat
  then randomElement availableFallbacks r
  else randomElement FALLBACK_ENVIRONMENTS r.

Lemma randomElement_in {A : Type} (arr : list A) (r : Q) :
  arr <> [] -> 0 <= r -> r < 1 ->
  exists a, randomElement arr r = Some a /\ In a arr.
Proof.
  intros Hne H0 H1. unfold randomElement. cbv zeta.
  set (n := Z.of_nat (length arr)).
  assert (Hn : (0 < n)%Z).
  { unfold n. destruct arr; [congruence|]. cbn [length]. lia. }
  assert (HnQ : 0 < inject_Z n).
  { change 0 with (inject_Z 0). rewrite <- Zlt_Qlt. exact Hn. }
  assert (Hlo : (0 <= Qfloor (r * inject_Z n))%Z).
  { change 0%Z with (Qfloor 0). apply Qfloor_resp_le.
    apply Qmult_le_0_compat; lra. }
  assert (Hhi : (Qfloor (r * inject_Z n) < n)%Z).
  { rewrite Zlt_Qlt. eapply Qle_lt_trans; [apply Qfloor_le|].
    assert (r * inject_Z n < 1 * inject_Z n)
      by (apply Qmult_lt_compat_r; assumption).
    lra. }
  destruct (Z.ltb_spec (Qfloor (r * inject_Z n)) 0); [lia|].
  destruct (nth_error arr (Z.to_nat (Qfloor (r * inject_Z n)))) as [a|] eqn:E.
  - exists a. split; [reflexivity|]. eapply nth_error_In, E.
  - exfalso. apply nth_error_None in E. subst n. lia.
Qed.

(** Whenever the remote generator cannot be used, the player still gets an
    environment: one of the four built-in ones, and one whose name is not in
    the biome history as long as some built-in environment is still
    unused. *)
Theorem fallback_is_a_built_in_unused_biome (previousBiomes : list string)
    (r : Q) :
  0 <= r -> r < 1 ->
  exists e,
    fallbackEnvironment previousBiomes r = Some e
    /\ In e FALLBACK_ENVIRONMENTS
    /\ ((exists f, In f FALLBACK_ENVIRONMENTS
                   /\ ~ In (name f) previousBiomes) ->
        ~ In (name e) previousBiomes).
Proof.
  intros H0 H1. unfold fallbackEnvironment. cbv zeta.
  set (available := List.filter (fun e => negb (includes previousBiomes e))
                      FALLBACK_ENVIRONMENTS).
  assert (Hinc : forall e, includes previousBiomes e = true
                           <-> In (name e) previousBiomes).
  { intros e. unfold includes. rewrite existsb_exists. split.
    - intros (x & Hx & E). apply String.eqb_eq in E. subst. exact Hx.
    - intros H. exists (name e). split; [exact H|apply String.eqb_refl]. }
  destruct (Nat.ltb_spec 0 (length available)) as [Hpos|Hz].
  - destruct (randomElement_in available r) as (e & He & Hin);
      [intros E; rewrite E in Hpos; cbn in Hpos; lia|assumption..|].
    exists e. split; [exact He|].
    apply filter_In in Hin as [Hin Hfree]. split; [exact Hin|].
    intros _ Hprev. apply Hinc in Hprev. rewrite Hprev in Hfree.
    discriminate Hfree.
  - destruct (randomElement_in FALLBACK_ENVIRONMENTS r) as (e & He & Hin);
      [discriminate|assumption..|].
    exists e. split; [exact He|]. split; [exact Hin|].
    intros (f & Hf & Hfree). exfalso.
    assert (Hfa : In f available).
    { apply filter_In. split; [exact Hf|].
      destruct (includes previousBiomes f) eqn:E; [|reflexivity].
      apply Hinc in E. contradiction. }
    destruct available; [destruct Hfa|cbn in Hz; lia].
Qed.

Lemma fallback_is_a_built_in_unused_biome_witness :
  exists e,
    fallbackEnvironment ["Neon Gutter"; "Cobalt Grid"; "Magma Core"]%string
      0.5 = Some e
    /\ In e FALLBACK_ENVIRONMENTS.
Proof.
  destruct (fallback_is_a_built_in_unused_biome
              ["Neon Gutter"; "Cobalt Grid"; "Magma Core"]%string 0.5)
    as (e & H1 & H2 & _).
  - discriminate.
  - reflexivity.
  - exists e. split; assumption.
Defined.

End Fallback.

(** ** Particle bursts *)

Section BurstShape.

Variable host : Host.

(** A collision burst appends exactly [count] particles to the particle
    list, all at the point of impact, and makes four draws per particle;
    with draws in [0, 1) every particle of the burst starts with a life of
    at least 0.8 and less than 2.3 and with velocity components within
    half the force.  Nothing else in the state changes. *)
Theorem burst_adds_its_particles (x y : Q) (colors : list string)
    (count : nat) (force : Q) (w : World) :
  randomInRange host ->
  0 <= force ->
  let w' := createCollisionBurst host x y colors count force w in
  cosmetic w w'
  /\ randomCalls w' = (randomCalls w + 4 * count)%nat
  /\ exists new,
       particles w' = particles w ++ new
       /\ length new = count
       /\ Forall (fun p =>
                    pt_x p = x /\ pt_y p = y
                    /\ 0.8 <= pt_life p /\ pt_life p < 2.3
                    /\ - (force / 2) <= pt_vx p <= force / 2
                    /\ - (force / 2) <= pt_vy p <= force / 2) new.
Proof.
  intros Hr Hf. cbv zeta.
  split; [apply createCollisionBurst_cosmetic|].
  unfold createCollisionBurst.
  induction count as [|n IH].
  - change (Nat.iter 0 ?f w) with w. split; [lia|]. exists [].
    rewrite app_nil_r. repeat split. constructor.
  - rewrite Nat.iter_succ. destruct IH as (I1 & new & I2 & I3 & I4).
    match goal with |- context [Nat.iter n ?f w] =>
      set (v := Nat.iter n f w) in * end.
    clearbody v. unfold mathRandom, pushParticle.
    cbn [particles randomCalls set_particles set_randomCalls].
    split; [lia|].
    eexists (new ++ [_]). split; [rewrite I2, <- app_assoc; reflexivity|].
    split; [rewrite length_app; cbn [length]; lia|].
    apply Forall_app. split; [exact I4|]. constructor; [|constructor].
    cbn [pt_x pt_y pt_life pt_vx pt_vy].
    pose proof (Hr (randomCalls v)) as R1.
    pose proof (Hr (S (randomCalls v))) as R2.
    pose proof (Hr (S (S (randomCalls v)))) as R3.
    generalize dependent (h_random host (randomCalls v)).
    generalize dependent (h_random host (S (randomCalls v))).
    generalize dependent (h_random host (S (S (randomCalls v)))).
    intros r3 R3 r2 R2 r1 R1.
    split; [reflexivity|]. split; [reflexivity|].
    split; [lra|]. split; [lra|].
    assert (Hb : forall r, 0 <= r /\ r < 1 ->
              - (force / 2) <= (r - 0.5) * force <= force / 2).
    { intros r [Hr0 Hr1].
      assert (0 <= r * force) by (apply Qmult_le_0_compat; assumption).
      assert (r * force <= 1 * force)
        by (apply Qmult_le_compat_r; [lra|assumption]).
      assert ((r - 0.5) * force == r * force - 0.5 * force) by ring.
      assert (force / 2 == 0.5 * force) by field.
      split; lra. }
    split; [apply Hb, R1|apply Hb, R2].
Qed.

End BurstShape.

Lemma burst_adds_its_particles_witness :
  randomCalls (createCollisionBurst demoHost 100 290 ["#ffffff"%string] 15 25
                 mount) = 60%nat.
Proof.
  destruct (burst_adds_its_particles demoHost 100 290 ["#ffffff"%string] 15
              25 mount randomInRange_tableHost) as (_ & H & _).
  - discriminate.
  - exact H.
Defined.

(** ** Collectibles pay once *)

(** A collectible that the pickup loop will take: not yet collected and
    overlapping the player box. *)
Definition collectable (p : Vector2D) (col : Collectible) : bool :=
  negb (c_collected col)
  && overlapsPickup p (c_x col) (c_y col) (c_size col).

Definition collect (p : Vector2D) (col : Collectible) : Collectible :=
  if collectable p col
  then mkCollectible (c_id col) (c_x col) (c_y col) (c_size col) true
  else col.

Lemma collectable_collect p col : collectable p (collect p col) = false.
Proof.
  unfold collect. destruct (collectable p col) eqn:E; [reflexivity|exact E].
Qed.

Section CollectOnce.

Variable host : Host.

Lemma collect_loop isMultActive (l : list Collectible) : forall w,
  fst (forEach (collectibleStep host isMultActive) l w)
    = map (collect (playerPos w)) l
  /\ playerPos (snd (forEach (collectibleStep host isMultActive) l w))
     = playerPos w
  /\ count (isSocial COLLECT)
       (trace (snd (forEach (collectibleStep host isMultActive) l w)))
     = (count (isSocial COLLECT) (trace w)
        + length (List.filter (collectable (playerPos w)) l))%nat
  /\ scoreRef (snd (forEach (collectibleStep host isMultActive) l w))
     == scoreRef w
        + collectibleAward isMultActive
          * inject_Z (Z.of_nat
                        (length (List.filter (collectable (playerPos w)) l))).
Proof.
  induction l as [|col l IH]; intros w.
  - cbn [forEach fst snd map List.filter length]. repeat split; try lia.
    cbn. ring.
  - cbn [forEach map List.filter].
    assert (Hstep :
      exists w1,
        collectibleStep host isMultActive col w
          = (collect (playerPos w) col, w1)
        /\ playerPos w1 = playerPos w
        /\ count (isSocial COLLECT) (trace w1)
           = (count (isSocial COLLECT) (trace w)
              + (if collectable (playerPos w) col then 1 else 0))%nat
        /\ scoreRef w1
           = (if collectable (playerPos w) col
              then scoreRef w + collectibleAward isMultActive
              else scoreRef w)).
    { unfold collectibleStep, collect, collectable, collectibleAward.
      destruct (negb (c_collected col)
                && overlapsPickup (playerPos w) (c_x col) (c_y col)
                     (c_size col)).
      - cbv zeta.
        match goal with |- context [createLikeParticles host ?a ?b ?v] =>
          destruct (createLikeParticles_cosmetic host a b v)
            as (ps & n & ->) end.
        eexists. split; [reflexivity|]. split; [reflexivity|].
        split; [|reflexivity].
        cbn [trace set_particles set_randomCalls emit set_trace
             set_scoreRef].
        rewrite !count_app. unfold count at 2 3. cbn. lia.
      - exists w. repeat split. lia. }
    destruct Hstep as (w1 & -> & P1 & C1 & S1).
    destruct (IH w1) as (I1 & I2 & I3 & I4).
    destruct (forEach (collectibleStep host isMultActive) l w1)
      as [l' w2].
    cbn [fst snd] in *. rewrite P1 in *.
    split; [rewrite I1; reflexivity|]. split; [exact I2|].
    destruct (collectable (playerPos w) col); cbn [length].
    + split; [lia|]. rewrite I4, S1, Nat2Z.inj_succ, <- Z.add_1_r,
        inject_Z_plus. change (inject_Z 1) with 1. ring.
    + split; [lia|]. rewrite I4, S1. reflexivity.
Qed.

(** What the power-up loop leaves alone. *)
Definition noCollect (w w' : World) : Prop :=
  collectibles w' = collectibles w /\ playerPos w' = playerPos w
  /\ scoreRef w' = scoreRef w
  /\ count (isSocial COLLECT) (trace w')
     = count (isSocial COLLECT) (trace w).

Lemma powerUpStep_noCollect now pup w :
  noCollect w (snd (powerUpStep host now pup w)).
Proof.
  unfold powerUpStep, noCollect.
  destruct (negb (pu_collected pup) && _); [|repeat split].
  cbv zeta. cbn [snd].
  match goal with |- context [createCollisionBurst host ?a ?b ?c ?d ?e ?v] =>
    destruct (createCollisionBurst_cosmetic host a b c d e v)
      as (ps & n & ->) end.
  repeat (split; [reflexivity|]).
  cbn [trace set_particles set_randomCalls emit set_trace
       set_activePowerUps pu_type].
  rewrite !count_app. unfold count at 2 3.
  destruct (pu_type pup); cbn; lia.
Qed.

Lemma powerUps_noCollect now w :
  noCollect w
    (set_powerUps (fst (forEach (powerUpStep host now) (powerUps w) w))
       (snd (forEach (powerUpStep host now) (powerUps w) w))).
Proof.
  pose proof (forEach_inv (noCollect w) (powerUpStep host now)) as H.
  assert (Htrans : forall a v, noCollect w v ->
            noCollect w (snd (powerUpStep host now a v))).
  { intros a v (A1 & A2 & A3 & A4).
    destruct (powerUpStep_noCollect now a v) as (B1 & B2 & B3 & B4).
    unfold noCollect. repeat split; congruence. }
  assert (Hrefl : noCollect w w) by (unfold noCollect; repeat split).
  specialize (H Htrans (powerUps w) w Hrefl).
  destruct (forEach (powerUpStep host now) (powerUps w) w) as [pups' w1].
  cbn [fst snd] in *. exact H.
Qed.

(** In the pickup pass every collectible that overlaps the player and was
    not collected before is collected exactly once: it is flagged, one
    COLLECT event is emitted for it and the award is added to the score;
    collectibles that do not overlap or were already flagged are left
    alone.  Running the pass again on the result collects nothing. *)
Theorem each_collectible_pays_once (now : Z) (isMultActive : bool)
    (w : World) :
  let taken :=
    length (List.filter (collectable (playerPos w)) (collectibles w)) in
  let w' := pickupsStep host now isMultActive w in
  collectibles w' = map (collect (playerPos w)) (collectibles w)
  /\ count (isSocial COLLECT) (trace w')
     = (count (isSocial COLLECT) (trace w) + taken)%nat
  /\ scoreRef w'
     == scoreRef w
        + collectibleAward isMultActive * inject_Z (Z.of_nat taken)
  /\ count (isSocial COLLECT)
       (trace (pickupsStep host now isMultActive w'))
     = count (isSocial COLLECT) (trace w').
Proof.
  cbv zeta.
  assert (Hpass : forall v,
    collectibles (pickupsStep host now isMultActive v)
      = map (collect (playerPos v)) (collectibles v)
    /\ playerPos (pickupsStep host now isMultActive v) = playerPos v
    /\ count (isSocial COLLECT) (trace (pickupsStep host now isMultActive v))
       = (count (isSocial COLLECT) (trace v)
          + length (List.filter (collectable (playerPos v))
                      (collectibles v)))%nat
    /\ scoreRef (pickupsStep host now isMultActive v)
       == scoreRef v
          + collectibleAward isMultActive
            * inject_Z (Z.of_nat
                (length (List.filter (collectable (playerPos v))
                           (collectibles v))))).
  { intros v. unfold pickupsStep.
    pose proof (powerUps_noCollect now v) as (N1 & N2 & N3 & N4).
    destruct (forEach (powerUpStep host now) (powerUps v) v) as [pups' v1].
    cbn [fst snd] in *.
    destruct (collect_loop isMultActive
                (collectibles (set_powerUps pups' v1))
                (set_powerUps pups' v1)) as (L1 & L2 & L3 & L4).
    destruct (forEach (collectibleStep host isMultActive)
                (collectibles (set_powerUps pups' v1))
                (set_powerUps pups' v1)) as [cols' v2].
    cbn [fst snd] in *.
    cbn [collectibles playerPos trace scoreRef set_collectibles].
    rewrite N1, N2 in *. rewrite N4 in L3. rewrite N3 in L4.
    repeat split; assumption. }
  destruct (Hpass w) as (H1 & H2 & H3 & H4).
  split; [exact H1|]. split; [exact H3|]. split; [exact H4|].
  destruct (Hpass (pickupsStep host now isMultActive w)) as (_ & _ & G3 & _).
  rewrite G3, H1, H2.
  assert (Hnone : forall l,
            length (List.filter (collectable (playerPos w))
                      (map (collect (playerPos w)) l)) = 0%nat).
  { induction l as [|col l IH]; [reflexivity|].
    cbn [map List.filter]. rewrite collectable_collect. exact IH. }
  rewrite Hnone. lia.
Qed.

End CollectOnce.

(** ** The entity census of a tick *)

(** Phases that do not touch the three entity lists. *)
Definition sameEntities (w w' : World) : Prop :=
  obstacles w' = obstacles w /\ collectibles w' = collectibles w
  /\ powerUps w' = powerUps w.

Lemma sameEntities_refl w : sameEntities w w.
Proof. repeat split. Qed.

Lemma sameEntities_trans w1 w2 w3 :
  sameEntities w1 w2 -> sameEntities w2 w3 -> sameEntities w1 w3.
Proof.
  intros (A1 & A2 & A3) (B1 & B2 & B3). unfold sameEntities.
  repeat split; congruence.
Qed.

Lemma sameEntities_cosmetic w w' : cosmetic w w' -> sameEntities w w'.
Proof. intros (ps & n & ->). repeat split. Qed.

Lemma Forall2_same_length {A : Type} (R : A -> A -> Prop) l l' :
  Forall2 R l l' -> length l' = length l.
Proof. induction 1; cbn; congruence. Qed.

Lemma filter_length_le {A : Type} (f : A -> bool) l :
  (length (List.filter f l) <= length l)%nat.
Proof.
  induction l as [|a l IH]; cbn; [lia|]. destruct (f a); cbn; lia.
Qed.

Section Census.

Variable host : Host.
Variable environment : Environment.
Variable gamepads : list (option Gamepad).
Variable now : Z.

Lemma gamepads_sameEntities gps : forall dir w,
  sameEntities w
    (snd (fold_left (gamepadStep host environment) gps (dir, w))).
Proof.
  induction gps as [|slot gps IH]; intros dir w; simpl;
    [apply sameEntities_refl|].
  destruct slot as [gp|]; [|apply IH].
  eapply sameEntities_trans; [|apply IH].
  destruct (negb (isJumping w) && _); [|apply sameEntities_refl].
  unfold jump. eapply sameEntities_trans;
    [|apply sameEntities_cosmetic, createJumpParticles_cosmetic].
  repeat split.
Qed.

Lemma shakeStep_sameEntities dt w : sameEntities w (shakeStep host dt w).
Proof.
  unfold shakeStep. destruct (Qltb 0 (shakeTime w)); repeat split.
Qed.

Lemma expirePowerUps_sameEntities w : sameEntities w (expirePowerUps now w).
Proof.
  unfold expirePowerUps.
  destruct (fold_left _ _ _) as [reg hud]. repeat split.
Qed.

Lemma steerStep_sameEntities currentSpeed dt w :
  sameEntities w (steerStep host environment gamepads currentSpeed dt w).
Proof.
  unfold steerStep. destruct (isDying w); [apply sameEntities_refl|].
  match goal with |- context [fold_left ?f ?l (?d, w)] =>
    pose proof (gamepads_sameEntities l d w) as H;
    destruct (fold_left f l (d, w)) as [dir w1] end.
  simpl in H. eapply sameEntities_trans; [exact H|]. repeat split.
Qed.

Lemma dashStep_sameEntities w : sameEntities w (dashStep w).
Proof.
  unfold dashStep. destruct (reg_has BOOST (activePowerUps w)).
  - repeat split.
  - destruct (0 <? length (dashTrails w))%nat; repeat split.
Qed.

Lemma physicsStep_sameEntities dt w : sameEntities w (physicsStep dt w).
Proof.
  unfold physicsStep. cbv zeta.
  match goal with |- context [if ?b then _ else _] => destruct b end;
    repeat split.
Qed.

Lemma set_hasMultiplier_sameEntities b w :
  sameEntities w (set_hasMultiplier b w).
Proof. repeat split. Qed.

Lemma afterPhysics_sameEntities w :
  sameEntities w (afterPhysics host environment gamepads now w).
Proof.
  unfold afterPhysics. cbv zeta.
  eapply sameEntities_trans; [|apply physicsStep_sameEntities].
  eapply sameEntities_trans; [|apply dashStep_sameEntities].
  eapply sameEntities_trans; [|apply steerStep_sameEntities].
  eapply sameEntities_trans; [|apply expirePowerUps_sameEntities].
  eapply sameEntities_trans; [apply shakeStep_sameEntities|].
  apply set_hasMultiplier_sameEntities.
Qed.

Lemma scoreStep_sameEntities gameSpeed isMultActive w :
  sameEntities w (scoreStep now gameSpeed isMultActive w).
Proof.
  unfold scoreStep. destruct (isDying w); [apply sameEntities_refl|].
  cbv zeta.
  match goal with |- context [if ?b then _ else _] => destruct b end;
    repeat split.
Qed.

Lemma particlesStep_sameEntities dt w :
  sameEntities w (particlesStep dt w).
Proof. repeat split. Qed.

Lemma set_backgroundOffset_sameEntities b w :
  sameEntities w (set_backgroundOffset b w).
Proof. repeat split. Qed.

Lemma spawnStep_census w :
  (length (obstacles (spawnStep host w))
   <= length (obstacles w) + (if isDying w then 0 else 1))%nat
  /\ (length (collectibles (spawnStep host w))
      + length (powerUps (spawnStep host w))
      <= length (collectibles w) + length (powerUps w)
         + (if isDying w then 0 else 1))%nat.
Proof.
  unfold spawnStep, spawnDue. destruct (isDying w); cbn [negb andb].
  { split; lia. }
  match goal with |- context [if ?b then _ else _] => destruct b end;
    [|split; lia].
  destruct (spawnObstacle_spec host w)
    as (_ & _ & _ & _ & (o & -> & _) & Hp).
  rewrite length_app. cbn [length]. split; [lia|].
  destruct Hp as [(-> & ->)|[(-> & pup & -> & _)|(-> & col & -> & _)]];
    rewrite ?length_app; cbn [length]; lia.
Qed.

Lemma cullStep_census gameSpeed w :
  (length (obstacles (cullStep gameSpeed w)) <= length (obstacles w))%nat
  /\ (length (collectibles (cullStep gameSpeed w))
      <= length (collectibles w))%nat
  /\ (length (powerUps (cullStep gameSpeed w))
      <= length (powerUps w))%nat.
Proof.
  unfold cullStep. cbv zeta.
  cbn [obstacles collectibles powerUps set_obstacles set_collectibles
       set_powerUps emit set_trace].
  repeat split.
  - apply filter_length_le.
  - etransitivity; [apply filter_length_le|]. rewrite length_map. lia.
  - etransitivity; [apply filter_length_le|]. rewrite length_map. lia.
Qed.

Lemma pickupsStep_census isMultActive w :
  length (collectibles (pickupsStep host now isMultActive w))
  = length (collectibles w)
  /\ length (powerUps (pickupsStep host now isMultActive w))
     = length (powerUps w).
Proof.
  unfold pickupsStep.
  pose proof (forEach_Forall2 (fun _ _ => True) (powerUpStep host now)
                (fun _ _ => I) (powerUps w) w) as Hp.
  pose proof (powerUps_noCollect host now w) as (N1 & _).
  destruct (forEach (powerUpStep host now) (powerUps w) w) as [pups' w1].
  cbn [fst snd] in *.
  pose proof (forEach_Forall2 (fun _ _ => True)
                (collectibleStep host isMultActive)
                (fun _ _ => I) (collectibles (set_powerUps pups' w1))
                (set_powerUps pups' w1)) as Hc.
  assert (Hpu : forall cols v,
            powerUps (snd (forEach (collectibleStep host isMultActive)
                             cols v)) = powerUps v).
  { intros cols v.
    apply (forEach_inv (fun v' => powerUps v' = powerUps v)
             (collectibleStep host isMultActive)); [|reflexivity].
    intros a v' Hv'.
    unfold collectibleStep.
    match goal with |- context [if ?b then _ else _] => destruct b end;
      [|exact Hv'].
    cbv zeta. cbn [snd].
    match goal with |- context [createLikeParticles host ?a ?b ?v] =>
      destruct (createLikeParticles_cosmetic host a b v)
        as (ps & n & ->) end.
    exact Hv'. }
  specialize (Hpu (collectibles (set_powerUps pups' w1))
                (set_powerUps pups' w1)).
  destruct (forEach (collectibleStep host isMultActive)
              (collectibles (set_powerUps pups' w1))
              (set_powerUps pups' w1)) as [cols' w2].
  cbn [fst snd] in *.
  cbn [collectibles powerUps set_collectibles].
  split.
  - rewrite (Forall2_same_length _ _ _ Hc). rewrite N1. reflexivity.
  - rewrite Hpu. cbn [powerUps set_powerUps].
    apply (Forall2_same_length _ _ _ Hp).
Qed.

(** A PLAYING tick adds at most one obstacle and at most one pickup
    (collectible or power-up) to the world, and adds nothing at all
    once the player is dying. *)
Theorem tick_spawns_at_most_one (w : World) :
  let w' := update host PLAYING environment gamepads now w in
  let fresh := if isDying w then 0%nat else 1%nat in
  (length (obstacles w') <= length (obstacles w) + fresh)%nat
  /\ (length (collectibles w') + length (powerUps w')
      <= length (collectibles w) + length (powerUps w) + fresh)%nat.
Proof.
  cbv zeta.
  (* the stages before the spawn decision *)
  destruct (afterPhysics_sameEntities w) as (A1 & A2 & A3).
  pose proof (scoreStep_sameEntities
                (gameSpeedAt host environment gamepads now w)
                (isMultActiveAt host w)
                (afterPhysics host environment gamepads now w))
    as (B1 & B2 & B3).
  assert (Hs : afterScore host environment gamepads now w
               = scoreStep now (gameSpeedAt host environment gamepads now w)
                   (isMultActiveAt host w)
                   (afterPhysics host environment gamepads now w))
    by reflexivity.
  rewrite <- Hs in B1, B2, B3.
  pose proof (obstaclesStep_obstacles host environment now
                (gameSpeedAt host environment gamepads now w) (timeScale w)
                (afterScore host environment gamepads now w)) as C1.
  apply Forall2_same_length in C1.
  pose proof (obstaclesStep_ledger host environment now
                (gameSpeedAt host environment gamepads now w) (timeScale w)
                (afterScore host environment gamepads now w))
    as (_ & _ & _ & _ & _ & C2 & C3 & _).
  pose proof (cullStep_census
                (gameSpeedAt host environment gamepads now w)
                (obstaclesStep host environment now
                   (gameSpeedAt host environment gamepads now w)
                   (timeScale w)
                   (afterScore host environment gamepads now w)))
    as (D1 & D2 & D3).
  assert (Hspawn : atSpawn host environment gamepads now w
                   = cullStep
                       (gameSpeedAt host environment gamepads now w)
                       (obstaclesStep host environment now
                          (gameSpeedAt host environment gamepads now w)
                          (timeScale w)
                          (afterScore host environment gamepads now w)))
    by reflexivity.
  rewrite <- Hspawn in D1, D2, D3.
  destruct (stages_isDying host environment gamepads now w)
    as (_ & _ & S3 & S4 & _).
  pose proof (spawnStep_census
                (atSpawn host environment gamepads now w)) as (E1 & E2).
  assert (Hpick : atPickups host environment gamepads now w
                  = particlesStep (timeScale w)
                      (spawnStep host
                         (atSpawn host environment gamepads now w)))
    by reflexivity.
  assert (F : sameEntities
                (spawnStep host (atSpawn host environment gamepads now w))
                (atPickups host environment gamepads now w)).
  { rewrite Hpick. apply particlesStep_sameEntities. }
  destruct F as (F1 & F2 & F3).
  rewrite <- F1 in E1. rewrite <- F2, <- F3 in E2.
  rewrite S3 in E1, E2.
  destruct (isDying w) eqn:Hd.
  - rewrite (update_dying host environment gamepads now w Hd).
    match goal with |- context [set_backgroundOffset ?b ?v] =>
      destruct (set_backgroundOffset_sameEntities b v) as (-> & -> & ->) end.
    rewrite C1, B1, A1 in D1. rewrite C2, B2, A2 in D2.
    rewrite C3, B3, A3 in D3. lia.
  - rewrite (update_alive host environment gamepads now w Hd).
    match goal with |- context [set_backgroundOffset ?b ?v] =>
      destruct (set_backgroundOffset_sameEntities b v) as (-> & -> & ->) end.
    pose proof (hazardsStep_obstacles host environment now
                  (atHazards host environment gamepads now w)) as G1.
    apply Forall2_same_length in G1.
    pose proof (hazardsStep_frame host environment now
                  (atHazards host environment gamepads now w))
      as (_ & _ & _ & G2 & G3 & _).
    pose proof (atHazards_ledger host environment gamepads now w)
      as (_ & _ & _ & _ & _ & H1 & _).
    assert (Hhaz : atHazards host environment gamepads now w
                   = pickupsStep host now (isMultActiveAt host w)
                       (atPickups host environment gamepads now w))
      by reflexivity.
    pose proof (pickupsStep_census (isMultActiveAt host w)
                  (atPickups host environment gamepads now w)) as (H2 & H3).
    rewrite <- Hhaz in H2, H3.
    rewrite G1, G2, G3, H1, H2, H3.
    rewrite C1, B1, A1 in D1. rewrite C2, B2, A2 in D2.
    rewrite C3, B3, A3 in D3. lia.
Qed.

End Census.
